(** * Slideshow video renderer: frame effects, timeline, scheduling, audio

    A shallow embedding of [video_renderer.py], [src/subtitle_processor.py]
    and [add_audio_to_videos.py].

    Conventions of the embedding:
    - Python [float] values (times, progress, zoom factors) are exact
      rationals [Q]; the decimal literals of the source keep their spelling.
    - Python [int] values are [Z]; [//] is [Z.div], [%] is [Z.modulo],
      [int(x)] truncates toward zero ([py_int]).
    - A raster ([np.ndarray] of shape [(h, w, 3)]) is a list of rows of
      pixels; basic slicing follows Python's rules ([py_slice]).
    - A call that can raise returns [option]; [None] stands for the exception.
    - OpenCV, PIL, MoviePy and [math] are outside the repository: they are
      Section variables, used through the part of their documented
      behaviour that a statement needs. *)

From Stdlib Require Import ZArith QArith Qround Qminmax Lia Lqa.
From Stdlib Require Import List Ascii String.
From stdpp Require Import gmap strings list sorting pretty.

Local Open Scope Z_scope.

(** ** Python numerics *)

(** [int(x)] on a float: truncation toward zero. *)
Definition py_int (x : Q) : Z :=
  if Qle_bool 0 x then Qfloor x else Qceiling x.

(** Strict comparison [a < b] on floats, as a boolean. *)
Definition Qltb (a b : Q) : bool := negb (Qle_bool b a).

(** ** Rasters and slicing *)

Definition pixel : Type := Z * Z * Z.
Definition image : Type := list (list pixel).

Definition black : pixel := (0, 0, 0).

(** [np.zeros((height, width, 3), dtype=np.uint8)] *)
Definition np_zeros (height width : Z) : image :=
  replicate (Z.to_nat height) (replicate (Z.to_nat width) black).

(** Normalisation of one slice bound against a length: a negative bound
    counts from the end, and every bound is clipped into [0, len]. *)
Definition slice_bound (len i : Z) : Z :=
  if i <? 0 then Z.max 0 (i + len) else Z.min i len.

(** [l[start:stop]] *)
Definition py_slice {A : Type} (l : list A) (start stop : Z) : list A :=
  let len := Z.of_nat (length l) in
  let s := slice_bound len start in
  let e := slice_bound len stop in
  take (Z.to_nat (e - s)) (drop (Z.to_nat s) l).

(** [img[start_y:start_y+height, start_x:start_x+width]] *)
Definition crop (img : image) (start_y start_x height width : Z) : image :=
  map (fun row => py_slice row start_x (start_x + width))
      (py_slice img start_y (start_y + height)).

(** The array has exactly [h] rows of [w] pixels. *)
Definition has_shape (img : image) (h w : Z) : Prop :=
  Z.of_nat (length img) = h /\
  Forall (fun row => Z.of_nat (length row) = w) img.

(** A raster that holds at least one pixel. *)
Definition is_image (img : image) : Prop :=
  exists h w, 0 < h /\ 0 < w /\ has_shape img h w.

Definition all_black (img : image) : Prop :=
  Forall (Forall (fun p => p = black)) img.

Definition has_shapeb (img : image) (h w : Z) : bool :=
  (Z.of_nat (length img) =? h) &&
  forallb (fun row => Z.of_nat (length row) =? w) img.

(** [canvas[start_y:start_y+h, start_x:start_x+w] = src].  NumPy raises
    when the selected region and [src] differ in shape.  Broadcasting of
    one-row or one-column sources and negative start indices are not
    modelled: the model fails there, so a [Some] of the model is a
    successful assignment of the source. *)
Definition paste_row (row : list pixel) (start_x : Z) (src : list pixel)
  : list pixel :=
  take (Z.to_nat start_x) row ++ src
    ++ drop (Z.to_nat start_x + length src) row.

Fixpoint paste_rows (rows : image) (start_x : Z) (src : image) : image :=
  match rows, src with
  | row :: rows', s :: src' =>
      paste_row row start_x s :: paste_rows rows' start_x src'
  | _, _ => rows
  end.

Definition paste (canvas : image) (start_y start_x h w : Z) (src : image)
  : option image :=
  let region := crop canvas start_y start_x h w in
  if has_shapeb region h w && has_shapeb src h w
     && (0 <=? start_y) && (0 <=? start_x) then
    Some (take (Z.to_nat start_y) canvas
            ++ paste_rows (drop (Z.to_nat start_y) canvas) start_x src)
  else None.

(** ** Ken Burns effects ([video_renderer.py]) *)

Module KenBurnsEffect.
Definition ZOOM_IN : string := "zoom_in".
Definition ZOOM_OUT : string := "zoom_out".
Definition PAN_LEFT : string := "pan_left".
Definition PAN_RIGHT : string := "pan_right".
Definition PAN_UP : string := "pan_up".
Definition PAN_DOWN : string := "pan_down".
Definition ZOOM_PAN_LEFT : string := "zoom_pan_left".
Definition ZOOM_PAN_RIGHT : string := "zoom_pan_right".
Definition ZOOM_PAN_UP : string := "zoom_pan_up".
Definition ZOOM_PAN_DOWN : string := "zoom_pan_down".
Definition ROTATE_ZOOM : string := "rotate_zoom".
Definition SPIRAL : string := "spiral".
End KenBurnsEffect.

Definition EFFECT_SEQUENCE : list string :=
  [ KenBurnsEffect.ZOOM_IN; KenBurnsEffect.PAN_LEFT;
    KenBurnsEffect.ZOOM_PAN_RIGHT; KenBurnsEffect.PAN_UP;
    KenBurnsEffect.ZOOM_OUT; KenBurnsEffect.PAN_DOWN;
    KenBurnsEffect.ZOOM_PAN_LEFT; KenBurnsEffect.SPIRAL;
    KenBurnsEffect.PAN_RIGHT; KenBurnsEffect.ZOOM_PAN_UP;
    KenBurnsEffect.ROTATE_ZOOM; KenBurnsEffect.ZOOM_IN;
    KenBurnsEffect.PAN_LEFT; KenBurnsEffect.ZOOM_PAN_DOWN;
    KenBurnsEffect.PAN_UP ].

(** Cubic ease-in-out; [pow(x, 3)] is written as a product. *)
Definition easing_function (t : Q) : Q :=
  if Qltb t 0.5 then 4 * t * t * t
  else 1 - ((-2 * t + 2) * (-2 * t + 2) * (-2 * t + 2)) / 2.

(** Where an effect reads its result from: the buffer that is sliced
    ([buf_width] by [buf_height]: the zoomed image, or the rotated canvas)
    and the start indices of the slice. *)
Record window : Type := Window {
  buf_width : Z;
  buf_height : Z;
  start_x : Z;
  start_y : Z
}.

(** The window lies inside its buffer for a target of [width] by
    [height]. *)
Definition window_in_bounds (win : window) (width height : Z) : Prop :=
  0 <= start_x win /\ start_x win + width <= buf_width win /\
  0 <= start_y win /\ start_y win + height <= buf_height win.

Definition zoom_in_window (progress : Q) (width height : Z) : window :=
  let zoom_start := 1.0%Q in
  let zoom_end := 1.3%Q in
  let current_zoom := (zoom_start + (zoom_end - zoom_start) * progress)%Q in
  let zoom_height := py_int (inject_Z height * current_zoom) in
  let zoom_width := py_int (inject_Z width * current_zoom) in
  let start_y := (zoom_height - height) / 2 in
  let start_x := (zoom_width - width) / 2 in
  Window zoom_width zoom_height start_x start_y.

Definition zoom_out_window (progress : Q) (width height : Z) : window :=
  let zoom_start := 1.3%Q in
  let zoom_end := 1.0%Q in
  let current_zoom := (zoom_start + (zoom_end - zoom_start) * progress)%Q in
  let zoom_height := py_int (inject_Z height * current_zoom) in
  let zoom_width := py_int (inject_Z width * current_zoom) in
  let start_y := (zoom_height - height) / 2 in
  let start_x := (zoom_width - width) / 2 in
  Window zoom_width zoom_height start_x start_y.

(** The offset of [apply_pan_left] before the clamp of its last line. *)
Definition pan_left_raw_x (progress : Q) (width : Z) : Z :=
  let pan_distance := py_int (inject_Z width * 0.3) in
  let zoom_factor := 1.2%Q in
  let zoom_width := py_int (inject_Z width * zoom_factor) in
  py_int (inject_Z (zoom_width - width) - progress * inject_Z pan_distance).

Definition pan_left_window (progress : Q) (width height : Z) : window :=
  let zoom_factor := 1.2%Q in
  let zoom_width := py_int (inject_Z width * zoom_factor) in
  let zoom_height := py_int (inject_Z height * zoom_factor) in
  let start_x := pan_left_raw_x progress width in
  let start_y := (zoom_height - height) / 2 in
  let start_x := Z.max 0 (Z.min start_x (zoom_width - width)) in
  Window zoom_width zoom_height start_x start_y.

(** The offset of [apply_pan_right] before the clamp of its last line. *)
Definition pan_right_raw_x (progress : Q) (width : Z) : Z :=
  let pan_distance := py_int (inject_Z width * 0.3) in
  py_int (progress * inject_Z pan_distance).

Definition pan_right_window (progress : Q) (width height : Z) : window :=
  let zoom_factor := 1.2%Q in
  let zoom_width := py_int (inject_Z width * zoom_factor) in
  let zoom_height := py_int (inject_Z height * zoom_factor) in
  let start_x := pan_right_raw_x progress width in
  let start_y := (zoom_height - height) / 2 in
  let start_x := Z.max 0 (Z.min start_x (zoom_width - width)) in
  Window zoom_width zoom_height start_x start_y.

Definition pan_up_window (progress : Q) (width height : Z) : window :=
  let pan_distance := py_int (inject_Z height * 0.3) in
  let zoom_factor := 1.2%Q in
  let zoom_width := py_int (inject_Z width * zoom_factor) in
  let zoom_height := py_int (inject_Z height * zoom_factor) in
  let start_x := (zoom_width - width) / 2 in
  let start_y :=
    py_int (inject_Z (zoom_height - height)
            - progress * inject_Z pan_distance) in
  let start_y := Z.max 0 (Z.min start_y (zoom_height - height)) in
  Window zoom_width zoom_height start_x start_y.

Definition pan_down_window (progress : Q) (width height : Z) : window :=
  let pan_distance := py_int (inject_Z height * 0.3) in
  let zoom_factor := 1.2%Q in
  let zoom_width := py_int (inject_Z width * zoom_factor) in
  let zoom_height := py_int (inject_Z height * zoom_factor) in
  let start_x := (zoom_width - width) / 2 in
  let start_y := py_int (progress * inject_Z pan_distance) in
  let start_y := Z.max 0 (Z.min start_y (zoom_height - height)) in
  Window zoom_width zoom_height start_x start_y.

Definition zoom_pan_left_window (progress : Q) (width height : Z) : window :=
  let zoom_start := 1.0%Q in
  let zoom_end := 1.25%Q in
  let current_zoom := (zoom_start + (zoom_end - zoom_start) * progress)%Q in
  let pan_distance := py_int (inject_Z width * 0.2) in
  let zoom_width := py_int (inject_Z width * current_zoom) in
  let zoom_height := py_int (inject_Z height * current_zoom) in
  let start_x :=
    py_int (inject_Z (zoom_width - width) / 2
            - progress * inject_Z pan_distance) in
  let start_y := (zoom_height - height) / 2 in
  let start_x := Z.max 0 (Z.min start_x (zoom_width - width)) in
  Window zoom_width zoom_height start_x start_y.

Definition zoom_pan_right_window (progress : Q) (width height : Z) : window :=
  let zoom_start := 1.0%Q in
  let zoom_end := 1.25%Q in
  let current_zoom := (zoom_start + (zoom_end - zoom_start) * progress)%Q in
  let pan_distance := py_int (inject_Z width * 0.2) in
  let zoom_width := py_int (inject_Z width * current_zoom) in
  let zoom_height := py_int (inject_Z height * current_zoom) in
  let start_x :=
    py_int (inject_Z (zoom_width - width) / 2
            + progress * inject_Z pan_distance) in
  let start_y := (zoom_height - height) / 2 in
  let start_x := Z.max 0 (Z.min start_x (zoom_width - width)) in
  Window zoom_width zoom_height start_x start_y.

Definition zoom_pan_up_window (progress : Q) (width height : Z) : window :=
  let zoom_start := 1.0%Q in
  let zoom_end := 1.25%Q in
  let current_zoom := (zoom_start + (zoom_end - zoom_start) * progress)%Q in
  let pan_distance := py_int (inject_Z height * 0.2) in
  let zoom_width := py_int (inject_Z width * current_zoom) in
  let zoom_height := py_int (inject_Z height * current_zoom) in
  let start_x := (zoom_width - width) / 2 in
  let start_y :=
    py_int (inject_Z (zoom_height - height) / 2
            - progress * inject_Z pan_distance) in
  let start_y := Z.max 0 (Z.min start_y (zoom_height - height)) in
  Window zoom_width zoom_height start_x start_y.

Definition zoom_pan_down_window (progress : Q) (width height : Z) : window :=
  let zoom_start := 1.0%Q in
  let zoom_end := 1.25%Q in
  let current_zoom := (zoom_start + (zoom_end - zoom_start) * progress)%Q in
  let pan_distance := py_int (inject_Z height * 0.2) in
  let zoom_width := py_int (inject_Z width * current_zoom) in
  let zoom_height := py_int (inject_Z height * current_zoom) in
  let start_x := (zoom_width - width) / 2 in
  let start_y :=
    py_int (inject_Z (zoom_height - height) / 2
            + progress * inject_Z pan_distance) in
  let start_y := Z.max 0 (Z.min start_y (zoom_height - height)) in
  Window zoom_width zoom_height start_x start_y.

Section Effects.

(** [cv2.resize(img, (width, height))] *)
Variable cv2_resize : image -> Z -> Z -> option image.
(** The 2x3 matrices of OpenCV. *)
Variable affine : Type.
(** [cv2.getRotationMatrix2D(center, angle, scale)] *)
Variable cv2_getRotationMatrix2D : Z * Z -> Q -> Q -> affine.
(** [cv2.warpAffine(src, M, (width, height))] *)
Variable cv2_warpAffine : image -> affine -> Z -> Z -> option image.
Variables math_sin math_cos : Q -> Q.
Variable math_pi : Q.

(** The common tail of the effects: resize to the buffer of the window,
    then slice the target out of it. *)
Definition resize_and_crop (img : image) (win : window) (width height : Z)
  : option image :=
  zoomed_img ← cv2_resize img (buf_width win) (buf_height win);
  Some (crop zoomed_img (start_y win) (start_x win) height width).

Definition apply_zoom_in (img : image) (progress : Q) (width height : Z) :=
  resize_and_crop img (zoom_in_window progress width height) width height.

Definition apply_zoom_out (img : image) (progress : Q) (width height : Z) :=
  resize_and_crop img (zoom_out_window progress width height) width height.

Definition apply_pan_left (img : image) (progress : Q) (width height : Z) :=
  resize_and_crop img (pan_left_window progress width height) width height.

Definition apply_pan_right (img : image) (progress : Q) (width height : Z) :=
  resize_and_crop img (pan_right_window progress width height) width height.

Definition apply_pan_up (img : image) (progress : Q) (width height : Z) :=
  resize_and_crop img (pan_up_window progress width height) width height.

Definition apply_pan_down (img : image) (progress : Q) (width height : Z) :=
  resize_and_crop img (pan_down_window progress width height) width height.

Definition apply_zoom_pan_left (img : image) (progress : Q)
  (width height : Z) :=
  resize_and_crop img (zoom_pan_left_window progress width height)
    width height.

Definition apply_zoom_pan_right (img : image) (progress : Q)
  (width height : Z) :=
  resize_and_crop img (zoom_pan_right_window progress width height)
    width height.

Definition apply_zoom_pan_up (img : image) (progress : Q)
  (width height : Z) :=
  resize_and_crop img (zoom_pan_up_window progress width height)
    width height.

Definition apply_zoom_pan_down (img : image) (progress : Q)
  (width height : Z) :=
  resize_and_crop img (zoom_pan_down_window progress width height)
    width height.

Definition rotate_zoom_current_zoom (progress : Q) : Q :=
  let zoom_start := 1.1%Q in
  let zoom_end := 1.3%Q in
  (zoom_start + (zoom_end - zoom_start) * progress)%Q.

Definition rotate_zoom_canvas_size (progress : Q) (width height : Z) : Z :=
  py_int (inject_Z (Z.max width height) * rotate_zoom_current_zoom progress
          * 1.5).

(** The final slice of [apply_rotate_zoom], taken from the rotated
    canvas. *)
Definition rotate_zoom_window (progress : Q) (width height : Z) : window :=
  let canvas_size := rotate_zoom_canvas_size progress width height in
  let final_start_y := (canvas_size - height) / 2 in
  let final_start_x := (canvas_size - width) / 2 in
  Window canvas_size canvas_size final_start_x final_start_y.

Definition apply_rotate_zoom (img : image) (progress : Q) (width height : Z)
  : option image :=
  let current_zoom := rotate_zoom_current_zoom progress in
  let rotation_angle := (math_sin (progress * math_pi) * 3)%Q in
  let canvas_size := rotate_zoom_canvas_size progress width height in
  let canvas := np_zeros canvas_size canvas_size in
  let zoom_width := py_int (inject_Z width * current_zoom) in
  let zoom_height := py_int (inject_Z height * current_zoom) in
  zoomed_img ← cv2_resize img zoom_width zoom_height;
  let start_y := (canvas_size - zoom_height) / 2 in
  let start_x := (canvas_size - zoom_width) / 2 in
  canvas ← paste canvas start_y start_x zoom_height zoom_width zoomed_img;
  let center := (canvas_size / 2, canvas_size / 2) in
  let rotation_matrix :=
    cv2_getRotationMatrix2D center rotation_angle 1.0%Q in
  rotated ← cv2_warpAffine canvas rotation_matrix canvas_size canvas_size;
  let final_start_y := (canvas_size - height) / 2 in
  let final_start_x := (canvas_size - width) / 2 in
  Some (crop rotated final_start_y final_start_x height width).

Definition spiral_window (progress : Q) (width height : Z) : window :=
  let zoom_start := 1.0%Q in
  let zoom_end := 1.4%Q in
  let current_zoom := (zoom_start + (zoom_end - zoom_start) * progress)%Q in
  let angle := (progress * math_pi * 2)%Q in
  let spiral_radius :=
    (inject_Z (Z.min width height) * 0.1 * progress)%Q in
  let pan_x := py_int (math_cos angle * spiral_radius) in
  let pan_y := py_int (math_sin angle * spiral_radius) in
  let zoom_width := py_int (inject_Z width * current_zoom) in
  let zoom_height := py_int (inject_Z height * current_zoom) in
  let start_x := (zoom_width - width) / 2 + pan_x in
  let start_y := (zoom_height - height) / 2 + pan_y in
  let start_x := Z.max 0 (Z.min start_x (zoom_width - width)) in
  let start_y := Z.max 0 (Z.min start_y (zoom_height - height)) in
  Window zoom_width zoom_height start_x start_y.

Definition apply_spiral (img : image) (progress : Q) (width height : Z) :=
  resize_and_crop img (spiral_window progress width height) width height.

Definition apply_ken_burns_effect (img : image) (progress : Q)
  (effect_type : string) (width height : Z) : option image :=
  let progress := Qmax 0.0 (Qmin 1.0 progress) in
  let eased_progress := easing_function progress in
  if String.eqb effect_type KenBurnsEffect.ZOOM_IN then
    apply_zoom_in img eased_progress width height
  else if String.eqb effect_type KenBurnsEffect.ZOOM_OUT then
    apply_zoom_out img eased_progress width height
  else if String.eqb effect_type KenBurnsEffect.PAN_LEFT then
    apply_pan_left img eased_progress width height
  else if String.eqb effect_type KenBurnsEffect.PAN_RIGHT then
    apply_pan_right img eased_progress width height
  else if String.eqb effect_type KenBurnsEffect.PAN_UP then
    apply_pan_up img eased_progress width height
  else if String.eqb effect_type KenBurnsEffect.PAN_DOWN then
    apply_pan_down img eased_progress width height
  else if String.eqb effect_type KenBurnsEffect.ZOOM_PAN_LEFT then
    apply_zoom_pan_left img eased_progress width height
  else if String.eqb effect_type KenBurnsEffect.ZOOM_PAN_RIGHT then
    apply_zoom_pan_right img eased_progress width height
  else if String.eqb effect_type KenBurnsEffect.ZOOM_PAN_UP then
    apply_zoom_pan_up img eased_progress width height
  else if String.eqb effect_type KenBurnsEffect.ZOOM_PAN_DOWN then
    apply_zoom_pan_down img eased_progress width height
  else if String.eqb effect_type KenBurnsEffect.ROTATE_ZOOM then
    apply_rotate_zoom img eased_progress width height
  else if String.eqb effect_type KenBurnsEffect.SPIRAL then
    apply_spiral img eased_progress width height
  else
    apply_zoom_in img eased_progress width height.

(** The slice that [apply_ken_burns_effect] returns, by effect kind: the
    window of the branch that the dispatch above takes. *)
Definition ken_burns_window (progress : Q) (effect_type : string)
  (width height : Z) : window :=
  let progress := Qmax 0.0 (Qmin 1.0 progress) in
  let eased_progress := easing_function progress in
  if String.eqb effect_type KenBurnsEffect.ZOOM_IN then
    zoom_in_window eased_progress width height
  else if String.eqb effect_type KenBurnsEffect.ZOOM_OUT then
    zoom_out_window eased_progress width height
  else if String.eqb effect_type KenBurnsEffect.PAN_LEFT then
    pan_left_window eased_progress width height
  else if String.eqb effect_type KenBurnsEffect.PAN_RIGHT then
    pan_right_window eased_progress width height
  else if String.eqb effect_type KenBurnsEffect.PAN_UP then
    pan_up_window eased_progress width height
  else if String.eqb effect_type KenBurnsEffect.PAN_DOWN then
    pan_down_window eased_progress width height
  else if String.eqb effect_type KenBurnsEffect.ZOOM_PAN_LEFT then
    zoom_pan_left_window eased_progress width height
  else if String.eqb effect_type KenBurnsEffect.ZOOM_PAN_RIGHT then
    zoom_pan_right_window eased_progress width height
  else if String.eqb effect_type KenBurnsEffect.ZOOM_PAN_UP then
    zoom_pan_up_window eased_progress width height
  else if String.eqb effect_type KenBurnsEffect.ZOOM_PAN_DOWN then
    zoom_pan_down_window eased_progress width height
  else if String.eqb effect_type KenBurnsEffect.ROTATE_ZOOM then
    rotate_zoom_window eased_progress width height
  else if String.eqb effect_type KenBurnsEffect.SPIRAL then
    spiral_window eased_progress width height
  else
    zoom_in_window eased_progress width height.

End Effects.

(** ** Subtitle timeline ([src/subtitle_processor.py]) *)

(** One entry of [all_segments]. *)
Module Seg.
Record t : Type := Make {
  scene : Z;
  chunk : Z;
  text : string;
  start_time : Q;
  end_time : Q;
  duration : Q
}.
End Seg.

(** One entry of [SubtitleRenderer.timing_info]; [scene] is the name of the
    directive in the RST file. *)
Module Info.
Record t : Type := Make {
  text : string;
  start_time : Q;
  end_time : Q;
  duration : Q;
  scene : string
}.
End Info.

(** [s.strip()] for the whitespace of [Ascii.is_space]. *)
Fixpoint lstrip (s : string) : string :=
  match s with
  | String a s' => if Ascii.is_space a then lstrip s' else s
  | EmptyString => EmptyString
  end.

Definition py_strip (s : string) : string :=
  String.rev (lstrip (String.rev (lstrip s))).

(** The truth value of a string: it is not empty. *)
Definition py_nonempty (s : string) : bool :=
  match s with EmptyString => false | _ => true end.

Definition py_len (s : string) : Z := Z.of_nat (String.length s).

(** The loop of [split_into_chunks] over the words, with the chunks
    collected so far and the chunk under construction. *)
Fixpoint split_loop (words : list string) (max_chars_per_chunk : Z)
  (chunks : list string) (current_chunk : string) : list string * string :=
  match words with
  | [] => (chunks, current_chunk)
  | word :: rest =>
      let test_chunk :=
        current_chunk +:+ (if py_nonempty current_chunk then " " else "")
          +:+ word in
      if py_len test_chunk <=? max_chars_per_chunk then
        split_loop rest max_chars_per_chunk chunks test_chunk
      else
        let chunks :=
          if py_nonempty (py_strip current_chunk)
          then chunks ++ [py_strip current_chunk] else chunks in
        split_loop rest max_chars_per_chunk chunks word
  end.

(** [text.split()] is [String.words]. *)
Definition split_into_chunks (text : string) (max_chars_per_chunk : Z)
  : list string :=
  let words := String.words text in
  let '(chunks, current_chunk) :=
    split_loop words max_chars_per_chunk [] "" in
  if py_nonempty (py_strip current_chunk)
  then chunks ++ [py_strip current_chunk] else chunks.

(** [re.sub(r'\s+', ' ', text)]: every run of whitespace becomes one
    space. *)
Fixpoint collapse_whitespace (in_run : bool) (s : string) : string :=
  match s with
  | EmptyString => EmptyString
  | String a s' =>
      if Ascii.is_space a then
        if in_run then collapse_whitespace true s'
        else String " "%char (collapse_whitespace true s')
      else String a (collapse_whitespace false s')
  end.

Section Generate.

(** The first substitution of [remove_punctuation]:
    [re.sub(punctuation_pattern, ' ', text)]. *)
Variable sub_punctuation : string -> string.

(** The duration of the audio file at a path: [None] when the file does
    not exist or [AudioFileClip] raises. *)
Variable audio_duration : string -> option Q.

Definition remove_punctuation (text : string) : string :=
  let clean_text := sub_punctuation text in
  py_strip (collapse_whitespace false clean_text).

(** The inner loop of [generate_complete_rst_file]:
    [for j, chunk in enumerate(chunks)], from index [j] on. *)
Fixpoint chunk_segments (i : Z) (current_start_time chunk_duration : Q)
  (j : Z) (chunks : list string) : list Seg.t :=
  match chunks with
  | [] => []
  | chunk :: rest =>
      let segment_start :=
        (current_start_time + inject_Z j * chunk_duration)%Q in
      let segment_end :=
        (current_start_time + inject_Z (j + 1) * chunk_duration)%Q in
      Seg.Make i (j + 1) chunk segment_start segment_end chunk_duration
        :: chunk_segments i current_start_time chunk_duration (j + 1) rest
  end.

Definition scene_duration_of (audio_path : string) : Q :=
  match audio_duration audio_path with
  | Some d => d
  | None => 3.0%Q
  end.

(** [scene_duration / len(chunks) if chunks else scene_duration] *)
Definition chunk_duration_for (scene_duration : Q) (chunks : list string)
  : Q :=
  match chunks with
  | [] => scene_duration
  | _ => (scene_duration / inject_Z (Z.of_nat (length chunks)))%Q
  end.

(** The outer loop:
    [for i, (caption_text, audio_path) in enumerate(zip(...), 1)], from
    scene number [i] on; returns the segments and the final
    [current_start_time]. *)
Fixpoint scene_loop (i : Z) (current_start_time : Q)
  (scenes : list (string * string)) : list Seg.t * Q :=
  match scenes with
  | [] => ([], current_start_time)
  | (caption_text, audio_path) :: rest =>
      let scene_duration := scene_duration_of audio_path in
      let clean_text := remove_punctuation caption_text in
      let chunks := split_into_chunks clean_text 15 in
      let chunk_duration := chunk_duration_for scene_duration chunks in
      let segs :=
        chunk_segments i current_start_time chunk_duration 0 chunks in
      let '(more, total) :=
        scene_loop (i + 1) (current_start_time + scene_duration)%Q rest in
      (segs ++ more, total)
  end.

(** Returns [all_segments] and the [total_duration] it prints and writes
    in the header of the RST file. *)
Definition generate_complete_rst_file
  (captions_list audio_files_list : list string) : list Seg.t * Q :=
  scene_loop 1 0.0%Q (zip captions_list audio_files_list).

End Generate.

(** [SubtitleRenderer.get_subtitle_at_time] *)
Fixpoint get_subtitle_at_time (timing_info : list Info.t) (current_time : Q)
  : string :=
  match timing_info with
  | [] => ""
  | info :: rest =>
      if Qle_bool (Info.start_time info) current_time
         && Qle_bool current_time (Info.end_time info)
      then Info.text info
      else get_subtitle_at_time rest current_time
  end.

(** *** Vocabulary of the timeline statements *)

(** The entry contains the timestamp, both ends included. *)
Definition covers (info : Info.t) (t : Q) : Prop :=
  (Info.start_time info <= t)%Q /\ (t <= Info.end_time info)%Q.

(** An entry read back from the RST file carries the text and the times of
    its segment. *)
Definition same_timing (seg : Seg.t) (info : Info.t) : Prop :=
  Info.text info = Seg.text seg
  /\ (Info.start_time info == Seg.start_time seg)%Q
  /\ (Info.end_time info == Seg.end_time seg)%Q.

(** Ordered by non-decreasing [start_time]. *)
Definition starts_nondecreasing (segs : list Seg.t) : Prop :=
  StronglySorted
    (fun a b => (Seg.start_time a <= Seg.start_time b)%Q) segs.

(** Ordered by non-decreasing [end_time]. *)
Definition ends_nondecreasing (segs : list Seg.t) : Prop :=
  StronglySorted
    (fun a b => (Seg.end_time a <= Seg.end_time b)%Q) segs.

(** Each segment ends where the next one starts. *)
Fixpoint tiles (segs : list Seg.t) : Prop :=
  match segs with
  | a :: (b :: _) as rest => Seg.end_time a = Seg.start_time b /\ tiles rest
  | _ => True
  end.

(** The window from the first start to the last end holds every segment
    of the list. *)
Definition spans (segs : list Seg.t) : Prop :=
  forall first final,
    head segs = Some first -> last segs = Some final ->
    Forall (fun s => (Seg.start_time first <= Seg.start_time s)%Q
                     /\ (Seg.end_time s <= Seg.end_time final)%Q) segs.

(** The segments of scene [n] are consecutive in the list and tile one
    interval. *)
Definition scene_is_contiguous (segs : list Seg.t) (n : Z) : Prop :=
  exists before mid after,
    segs = before ++ mid ++ after
    /\ Forall (fun s => Seg.scene s <> n) before
    /\ Forall (fun s => Seg.scene s = n) mid
    /\ Forall (fun s => Seg.scene s <> n) after
    /\ tiles mid /\ spans mid.

(** ** Frame rendering ([video_renderer.py]) *)

(** What the renderer prints, and the hand-over to the encoder. *)
Inductive event : Type :=
| WarnImageLoad (image_path : string)
| BatchFailed (batch_idx : Z)
| BatchProgress (completed_batches : Z)
| WriteVideofile (path : string) (duration : Q) (make_frame : Q -> image)
    (with_audio : bool).

(** The module-level [image_cache] together with the console. *)
Record render_state : Type := RenderState {
  image_cache : gmap string image;
  console : list event
}.

(** Python's [max] and [min] over floats keep the first extremal element;
    on an empty sequence they raise. *)
Fixpoint py_max_from (m : Q) (xs : list Q) : Q :=
  match xs with
  | [] => m
  | x :: rest => py_max_from (if Qltb m x then x else m) rest
  end.

Definition py_max (xs : list Q) : option Q :=
  match xs with
  | [] => None
  | x :: rest => Some (py_max_from x rest)
  end.

Fixpoint py_min_from (m : Q) (xs : list Q) : Q :=
  match xs with
  | [] => m
  | x :: rest => py_min_from (if Qltb x m then x else m) rest
  end.

Definition py_min (xs : list Q) : option Q :=
  match xs with
  | [] => None
  | x :: rest => Some (py_min_from x rest)
  end.

(** What the scan of [all_segments] in [render_frame_batch] leaves in
    [scene_number], [scene_start_time] and [scene_end_time]. *)
Record scene_info : Type := SceneInfo {
  scene_number : Z;
  scene_start_time : Q;
  scene_end_time : Q
}.

Fixpoint find_scene (all_segments rest : list Seg.t) (current_time : Q)
  : option scene_info :=
  match rest with
  | [] => Some (SceneInfo 1 0 0)
  | segment :: rest' =>
      if Qle_bool (Seg.start_time segment) current_time
         && Qltb current_time (Seg.end_time segment)
      then
        let scene_number := Seg.scene segment in
        let scene_segments :=
          filter (fun seg => Seg.scene seg = scene_number) all_segments in
        scene_start_time ← py_min (map Seg.start_time scene_segments);
        scene_end_time ← py_max (map Seg.end_time scene_segments);
        Some (SceneInfo scene_number scene_start_time scene_end_time)
      else find_scene all_segments rest' current_time
  end.

(** The progress inside the scene, from the scan result. *)
Definition scene_progress_of (info : scene_info) (current_time : Q) : Q :=
  let scene_start_time := scene_start_time info in
  let scene_end_time :=
    if Qeq_bool (scene_end_time info) 0
    then (scene_start_time + 3.0)%Q else scene_end_time info in
  let scene_duration := (scene_end_time - scene_start_time)%Q in
  let scene_duration :=
    if Qle_bool scene_duration 0 then 1.0%Q else scene_duration in
  let scene_progress :=
    ((current_time - scene_start_time) / scene_duration)%Q in
  Qmax 0 (Qmin 1 scene_progress).

(** [EFFECT_SEQUENCE[(scene_number - 1) % len(EFFECT_SEQUENCE)]] *)
Definition effect_for_scene (scene_number : Z) : option string :=
  EFFECT_SEQUENCE
    !! Z.to_nat ((scene_number - 1) mod Z.of_nat (length EFFECT_SEQUENCE)).

Definition image_path_of (shot : string) (scene_number : Z) : string :=
  "assets/" +:+ shot +:+ "/images/" +:+ shot +:+ "_"
    +:+ pretty scene_number +:+ ".png".

(** [cv2.cvtColor] between BGR and RGB: the outer channels change
    places. *)
Definition swap_channels (img : image) : image :=
  map (map (fun p : pixel => match p with (b, g, r) => (r, g, b) end)) img.

(** [not subtitle_text.strip()] *)
Definition is_blank (subtitle_text : string) : bool :=
  negb (py_nonempty (py_strip subtitle_text)).

(** The fields of [style_config] that the overlay reads. *)
Record style_config : Type := StyleConfig {
  font_family : string;
  font_size : Z;
  stroke_width : Z
}.

Section Render.

Variable cv2_imread : string -> option image.
Variable cv2_resize : image -> Z -> Z -> option image.
Variable affine : Type.
Variable cv2_getRotationMatrix2D : Z * Z -> Q -> Q -> affine.
Variable cv2_warpAffine : image -> affine -> Z -> Z -> option image.
Variables math_sin math_cos : Q -> Q.
Variable math_pi : Q.
(** Width of the box of [draw.textbbox((0, 0), text, font=font)] for a font
    family and size. *)
Variable text_width : string -> string -> Z -> Z.
(** [draw.text((x, y), text, font=font, fill=fill)] on an RGB picture. *)
Variable draw_text : image -> Z * Z -> string -> string -> Z -> pixel -> image.

Definition get_cached_image (shot : string) (scene_number : Z)
  (width height : Z) (st : render_state) : option (image * render_state) :=
  let image_path := image_path_of shot scene_number in
  match image_cache st !! image_path with
  | Some img => Some (img, st)
  | None =>
      '(img, console) ←
        match cv2_imread image_path with
        | None =>
            Some (np_zeros height width,
                  console st ++ [WarnImageLoad image_path])
        | Some img =>
            img ← cv2_resize img width height;
            Some (img, console st)
        end;
      Some (img, RenderState (<[image_path := img]> (image_cache st)) console)
  end.

(** The stroke of the overlay: the text at every offset but [(0, 0)]. *)
Definition draw_stroke (style : style_config) (pil_image : image)
  (x y : Z) (subtitle_text : string) : image :=
  let stroke_width := stroke_width style in
  let offsets :=
    dx ← seqZ (- stroke_width) (2 * stroke_width + 1);
    dy ← seqZ (- stroke_width) (2 * stroke_width + 1);
    if bool_decide (dx ≠ 0 ∨ dy ≠ 0) then [(dx, dy)] else [] in
  foldl (fun im '(dx, dy) =>
           draw_text im (x + dx, y + dy) subtitle_text
             (font_family style) (font_size style) (0, 0, 0))
        pil_image offsets.

Definition create_subtitle_overlay_from_rst (frame : image)
  (timing_info : list Info.t) (style : style_config) (current_time : Q)
  : image :=
  let height := Z.of_nat (length frame) in
  let width := Z.of_nat (length (default [] (head frame))) in
  let subtitle_text := get_subtitle_at_time timing_info current_time in
  if is_blank subtitle_text then frame
  else
    let pil_image := swap_channels frame in
    let text_width :=
      text_width subtitle_text (font_family style) (font_size style) in
    let subtitle_area_start := height * 2 / 3 in
    let x := (width - text_width) / 2 in
    let y := subtitle_area_start in
    let pil_image := draw_stroke style pil_image x y subtitle_text in
    let pil_image :=
      draw_text pil_image (x, y) subtitle_text
        (font_family style) (font_size style) (255, 255, 255) in
    swap_channels pil_image.

(** The body of the loop of [render_frame_batch] up to the subtitle
    overlay: the picture of the scene under its effect. *)
Definition render_scene_frame (all_segments : list Seg.t)
  (width height : Z) (shot : string) (current_time : Q) (st : render_state)
  : option (image * render_state) :=
  info ← find_scene all_segments all_segments current_time;
  '(img, st) ← get_cached_image shot (scene_number info) width height st;
  let scene_progress := scene_progress_of info current_time in
  effect_type ← effect_for_scene (scene_number info);
  frame ← apply_ken_burns_effect cv2_resize affine cv2_getRotationMatrix2D
             cv2_warpAffine math_sin math_cos math_pi
             img scene_progress effect_type width height;
  Some (frame, st).

Fixpoint render_frame_batch (frame_batch_info : list (Z * Q))
  (all_segments : list Seg.t) (timing_info : list Info.t)
  (style : style_config) (width height : Z) (shot : string)
  (st : render_state) : option (list (Z * image) * render_state) :=
  match frame_batch_info with
  | [] => Some ([], st)
  | (frame_idx, current_time) :: rest =>
      '(frame, st) ←
        render_scene_frame all_segments width height shot current_time st;
      let frame :=
        create_subtitle_overlay_from_rst frame timing_info style
          current_time in
      '(rendered_frames, st) ←
        render_frame_batch rest all_segments timing_info style width height
          shot st;
      Some ((frame_idx, frame) :: rendered_frames, st)
  end.

End Render.

(** The cache holds nothing for the path, or the black placeholder of the
    frame size (what [preload_images] and [get_cached_image] store for a
    picture that cannot be read). *)
Definition placeholder_or_absent (st : render_state) (image_path : string)
  (width height : Z) : Prop :=
  forall img,
    image_cache st !! image_path = Some img -> img = np_zeros height width.

(** ** The driver ([create_complete_video]) *)

(** [max(seg['end_time'] for seg in all_segments) if all_segments else 0] *)
Definition total_duration (all_segments : list Seg.t) : Q :=
  match all_segments with
  | [] => 0
  | seg :: rest => py_max_from (Seg.end_time seg) (map Seg.end_time rest)
  end.

Definition total_frames (total_duration : Q) (fps : Z) : Z :=
  py_int (total_duration * inject_Z fps).

Definition max_workers (cpu_count : Z) : Z := Z.min cpu_count 8.

Definition batch_size (total_frames max_workers : Z) : Z :=
  Z.max 30 (total_frames / (max_workers * 4)).

(** [range(start, stop, step)] for a positive [step]. *)
Definition py_range (start stop step : Z) : list Z :=
  map (fun k => start + k * step) (seqZ 0 ((stop - start + step - 1) / step)).

(** One batch: [[(j, j / fps) for j in range(i, batch_end)]]. *)
Definition batch_info_of (total_frames batch_size fps i : Z) : list (Z * Q) :=
  let batch_end := Z.min (i + batch_size) total_frames in
  map (fun j => (j, (inject_Z j / inject_Z fps)%Q)) (seqZ i (batch_end - i)).

Definition frame_batches (total_frames batch_size fps : Z)
  : list (list (Z * Q)) :=
  map (batch_info_of total_frames batch_size fps)
      (py_range 0 total_frames batch_size).

(** What [future.result()] of a batch does: it returns the frames of the
    batch, or raises. *)
Inductive batch_outcome : Type :=
| Returned (batch_frames : list (Z * image))
| Raised.

(** The loop over [as_completed(future_to_batch)]; [completed] lists the
    batches in the order in which they finish. *)
Fixpoint collect_batches (completed : list (Z * batch_outcome))
  (all_rendered_frames : gmap Z image) (completed_batches : Z)
  : gmap Z image * list event :=
  match completed with
  | [] => (all_rendered_frames, [])
  | (batch_idx, Returned batch_frames) :: rest =>
      let all_rendered_frames :=
        foldl (fun m '(frame_idx, frame) => <[frame_idx := frame]> m)
              all_rendered_frames batch_frames in
      let completed_batches := completed_batches + 1 in
      let '(m, printed) :=
        collect_batches rest all_rendered_frames completed_batches in
      (m, BatchProgress completed_batches :: printed)
  | (batch_idx, Raised) :: rest =>
      let '(m, printed) :=
        collect_batches rest all_rendered_frames completed_batches in
      (m, BatchFailed batch_idx :: printed)
  end.

(** The closure [make_frame(t)] given to [VideoClip]. *)
Definition make_frame (all_rendered_frames : gmap Z image)
  (fps width height : Z) (t : Q) : image :=
  let frame_idx := py_int (t * inject_Z fps) in
  match all_rendered_frames !! frame_idx with
  | Some frame => swap_channels frame
  | None => np_zeros height width
  end.

(** ** Audio *)

(** An audio clip: its duration and its sample at a time. *)
Module Clip.
Record t : Type := Make {
  duration : Q;
  get_frame : Q -> Q
}.
End Clip.

(** [concatenate_audioclips]: each clip starts where the one before it
    ends; the result plays the clips whose span [start <= t < end] holds
    [t] and lasts until the end of the last one. *)
Fixpoint concat_end (start : Q) (clips : list Clip.t) : Q :=
  match clips with
  | [] => start
  | c :: rest => concat_end (start + Clip.duration c) rest
  end.

Fixpoint concat_frame (start : Q) (clips : list Clip.t) (t : Q) : Q :=
  match clips with
  | [] => 0
  | c :: rest =>
      ((if Qle_bool start t && Qltb t (start + Clip.duration c)
        then Clip.get_frame c (t - start) else 0)
       + concat_frame (start + Clip.duration c) rest t)%Q
  end.

Definition concatenate_audioclips (clips : list Clip.t) : Clip.t :=
  Clip.Make (concat_end 0 clips) (concat_frame 0 clips).

(** [clip.subclipped(start_time, end_time)] for bounds that are not
    negative: MoviePy raises for a start at or after the end of the clip
    and for an end after it. *)
Definition subclipped (clip : Clip.t) (start_time end_time : Q)
  : option Clip.t :=
  if Qle_bool (Clip.duration clip) start_time then None
  else if Qltb (Clip.duration clip) end_time then None
  else Some (Clip.Make (end_time - start_time)
               (fun t => Clip.get_frame clip (t + start_time)%Q)).

Definition with_volume_scaled (clip : Clip.t) (factor : Q) : Clip.t :=
  Clip.Make (Clip.duration clip) (fun t => (factor * Clip.get_frame clip t)%Q).

(** [process_background_music] of [create_complete_video].  The argument
    is the clip of the music file, [None] when the file is missing or does
    not load; every exception of the body is caught there and gives
    [None], as does the division by a zero duration. *)
Definition process_background_music (bg_music_clip : option Clip.t)
  (total_duration : Q) : option Clip.t :=
  bg_music_clip ← bg_music_clip;
  bg_music ←
    (if Qltb (Clip.duration bg_music_clip) total_duration then
       if Qeq_bool (Clip.duration bg_music_clip) 0 then None
       else
         let loops_needed :=
           Qceiling (total_duration / Clip.duration bg_music_clip) in
         let bg_clips := replicate (Z.to_nat loops_needed) bg_music_clip in
         Some (concatenate_audioclips bg_clips)
     else Some bg_music_clip);
  bg_music ← subclipped bg_music 0 total_duration;
  Some (with_volume_scaled bg_music 0.3).

(** The background branch of [add_audio_and_music]
    ([add_audio_to_videos.py]) for a music file that loads. *)
Definition add_audio_and_music_bg (bg_music_clip : Clip.t) (bg_volume : Q)
  (video_duration : Q) : option Clip.t :=
  let bg_audio := with_volume_scaled bg_music_clip bg_volume in
  if Qltb video_duration (Clip.duration bg_audio) then
    subclipped bg_audio 0 video_duration
  else if Qltb (Clip.duration bg_audio) video_duration then
    if Qeq_bool (Clip.duration bg_audio) 0 then None
    else
      let loops_needed :=
        Qceiling (video_duration / Clip.duration bg_audio) in
      let bg_clips := replicate (Z.to_nat loops_needed) bg_audio in
      let bg_audio := concatenate_audioclips bg_clips in
      subclipped bg_audio 0 video_duration
  else Some bg_audio.

(** The part of [create_complete_video] after the batches were submitted:
    collect the frames, build the clip and hand it to the encoder, with
    the composed audio when there is any.  The encoder itself is not part
    of the model: the event records the call. *)
Definition render_and_write (shot : string) (all_segments : list Seg.t)
  (fps width height : Z) (completed : list (Z * batch_outcome))
  (voice_clips : list Clip.t) (bg_music : option Clip.t)
  : gmap Z image * list event :=
  let total_duration := total_duration all_segments in
  let '(all_rendered_frames, printed) := collect_batches completed ∅ 0 in
  let make_frame := make_frame all_rendered_frames fps width height in
  let written :=
    if negb (bool_decide (voice_clips = [])) || bool_decide (is_Some bg_music)
    then
      WriteVideofile ("videos/" +:+ shot +:+ "_complete_video_with_audio.mp4")
        total_duration make_frame true
    else
      WriteVideofile ("videos/" +:+ shot +:+ "_complete_video.mp4")
        total_duration make_frame false in
  (all_rendered_frames, printed ++ [written]).

(** ** What is used of OpenCV

    The documented behaviour of [cv2.resize] and [cv2.warpAffine] that the
    statements below rely on: on a raster that is not empty and for a
    positive size they return a raster of exactly that size, and they map
    an all-black raster to an all-black one. *)

Definition resize_contract (cv2_resize : image -> Z -> Z -> option image)
  : Prop :=
  forall img width height,
    is_image img -> 0 < width -> 0 < height ->
    exists out, cv2_resize img width height = Some out
                /\ has_shape out height width.

Definition resize_keeps_black
  (cv2_resize : image -> Z -> Z -> option image) : Prop :=
  forall img width height out,
    all_black img -> cv2_resize img width height = Some out ->
    all_black out.

Definition warp_contract {affine : Type}
  (cv2_warpAffine : image -> affine -> Z -> Z -> option image) : Prop :=
  forall src M width height,
    is_image src -> 0 < width -> 0 < height ->
    exists out, cv2_warpAffine src M width height = Some out
                /\ has_shape out height width.

Definition warp_keeps_black {affine : Type}
  (cv2_warpAffine : image -> affine -> Z -> Z -> option image) : Prop :=
  forall src M width height out,
    all_black src -> cv2_warpAffine src M width height = Some out ->
    all_black out.

(** ** Stand-ins for the libraries

    Executable instances of the Section variables, to run the model on
    concrete inputs.  The general statements below do not depend on
    them. *)

Module Reference.

Definition pixel_at (img : image) (y x : Z) : pixel :=
  default black (row ← img !! Z.to_nat y; row !! Z.to_nat x).

(** Nearest-neighbour resize; like OpenCV it fails on an empty source and
    on a size that is not positive. *)
Definition resize (img : image) (width height : Z) : option image :=
  let src_h := Z.of_nat (length img) in
  let src_w := Z.of_nat (length (default [] (head img))) in
  if (0 <? width) && (0 <? height) && (0 <? src_h) && (0 <? src_w) then
    Some (map (fun y =>
                 map (fun x => pixel_at img (y * src_h / height)
                                 (x * src_w / width))
                     (seqZ 0 width))
              (seqZ 0 height))
  else None.

Definition rotation_matrix (center : Z * Z) (angle scale : Q) : unit := tt.

(** A warp that ignores the rotation. *)
Definition warp (src : image) (M : unit) (width height : Z) : option image :=
  resize src width height.

Definition pi : Q := 3.14159%Q.
Definition sin (x : Q) : Q := (x - x * x * x / 6)%Q.
Definition cos (x : Q) : Q := (1 - x * x / 2)%Q.

(** No picture file can be read. *)
Definition imread_missing (image_path : string) : option image := None.

(** One pixel for each character. *)
Definition text_width (subtitle_text font_family : string) (font_size : Z)
  : Z :=
  py_len subtitle_text.

(** Marks the anchor of the text with the fill colour. *)
Definition draw_text (im : image) (xy : Z * Z) (subtitle_text : string)
  (font_family : string) (font_size : Z) (fill : pixel) : image :=
  let '(x, y) := xy in
  if (0 <=? x) && (0 <=? y)
  then alter (fun row => <[Z.to_nat x := fill]> row) (Z.to_nat y) im
  else im.

Definition punctuation : list ascii :=
  [ ","; "."; "!"; "?"; ":"; ";"; "034"; "'"; "("; ")"; "\"; "["; "]"; "{";
    "}"; "<"; ">"; "/"; "|"; "~"; "`"; "@"; "#"; "$"; "%"; "^"; "&"; "*";
    "+"; "="; "_"; "-" ]%char.

(** Every ASCII character of the class of [punctuation_pattern] becomes a
    space. *)
Fixpoint sub_punctuation (text : string) : string :=
  match text with
  | EmptyString => EmptyString
  | String a rest =>
      String (if bool_decide (a ∈ punctuation) then " "%char else a)
             (sub_punctuation rest)
  end.

(** No audio file exists: every scene lasts the default 3.0 seconds. *)
Definition no_audio (audio_path : string) : option Q := None.

(** A two-second tone whose sample at [t] is [t + 1]: never silent. *)
Definition two_second_clip : Clip.t := Clip.Make 2.0 (fun t => (t + 1)%Q).

(** A 4 by 4 grey picture. *)
Definition grey : image := replicate 4 (replicate 4 (128, 128, 128)).

Definition style : style_config := StyleConfig "msyh.ttc" 70 3.

End Reference.

(** ** Further parts of the program

    The functions below are used by the statements of the last part of the
    file; they follow the same conventions as the definitions above. *)

(** *** Preloading the pictures ([preload_images]) *)

Section Preload.

Variable cv2_imread : string -> option image.
Variable cv2_resize : image -> Z -> Z -> option image.

(** The task [load_single_image(scene_number)]; [None] when it raises. *)
Definition load_single_image (shot : string) (width height : Z)
  (scene_number : Z) (st : render_state) : option render_state :=
  let image_path := image_path_of shot scene_number in
  match image_cache st !! image_path with
  | Some _ => Some st
  | None =>
      '(img, console) ←
        match cv2_imread image_path with
        | None =>
            Some (np_zeros height width,
                  console st ++ [WarnImageLoad image_path])
        | Some img =>
            img ← cv2_resize img width height;
            Some (img, console st)
        end;
      Some (RenderState (<[image_path := img]> (image_cache st)) console)
  end.

(** [preload_images].  [ThreadPoolExecutor] raises [ValueError] for a
    [max_workers] that is not positive.  [schedule] is the order in which
    the pool runs the submitted tasks, a rearrangement of
    [range(1, scene_count + 1)]; the exception of a task is dropped by the
    loop over [as_completed].  The closing line with the size of the cache
    is not recorded. *)
Definition preload_images (shot : string) (scene_count width height : Z)
  (schedule : list Z) (st : render_state) : option render_state :=
  if Z.min 16 scene_count <=? 0 then None
  else
    Some (foldl (fun st scene_number =>
                   default st
                     (load_single_image shot width height scene_number st))
                st schedule).

End Preload.

(** What a preloading task stores for a path: the placeholder when the
    file cannot be read, the resized picture otherwise. *)
Definition loaded (cv2_imread : string -> option image)
  (cv2_resize : image -> Z -> Z -> option image) (width height : Z)
  (image_path : string) (img : image) : Prop :=
  (cv2_imread image_path = None /\ img = np_zeros height width)
  \/ exists src, cv2_imread image_path = Some src
                 /\ cv2_resize src width height = Some img.

(** Every picture in the cache is a raster that is not empty. *)
Definition cache_holds_images (st : render_state) : Prop :=
  forall image_path img,
    image_cache st !! image_path = Some img -> is_image img.

(** *** The stroke of the subtitles *)

(** The offsets at which the stroke loop of
    [create_subtitle_overlay_from_rst] draws, in its order. *)
Definition stroke_offsets (stroke_width : Z) : list (Z * Z) :=
  dx ← seqZ (- stroke_width) (2 * stroke_width + 1);
  dy ← seqZ (- stroke_width) (2 * stroke_width + 1);
  if bool_decide (dx ≠ 0 ∨ dy ≠ 0) then [(dx, dy)] else [].

(** *** Vocabulary of the text statements *)

(** No character of the string is white space. *)
Fixpoint no_space (s : string) : bool :=
  match s with
  | EmptyString => true
  | String a s' => negb (Ascii.is_space a) && no_space s'
  end.

(** What [str.split()] returns: strings that are not empty and hold no
    white space. *)
Definition is_word (s : string) : Prop := s <> "" /\ no_space s = true.

(** [" ".join(ws)] *)
Fixpoint join_words (ws : list string) : string :=
  match ws with
  | [] => ""
  | [w] => w
  | w :: rest => w +:+ " " +:+ join_words rest
  end.

(** *** Timing of one caption ([calculate_timing], [process_subtitle]) *)

(** One entry of the list that [calculate_timing] returns. *)
Module Timing.
Record t : Type := Make {
  text : string;
  start_time : Q;
  end_time : Q;
  duration : Q
}.
End Timing.

(** The loop [for i, chunk in enumerate(chunks)], from index [i] on. *)
Fixpoint timing_loop (i : Z) (chunk_duration : Q) (chunks : list string)
  : list Timing.t :=
  match chunks with
  | [] => []
  | chunk :: rest =>
      let start_time := (inject_Z i * chunk_duration)%Q in
      let end_time := (inject_Z (i + 1) * chunk_duration)%Q in
      Timing.Make chunk start_time end_time chunk_duration
        :: timing_loop (i + 1) chunk_duration rest
  end.

Definition calculate_timing (chunks : list string) (total_duration : Q)
  : list Timing.t :=
  if bool_decide (chunks = []) || Qle_bool total_duration 0 then []
  else
    let chunk_duration :=
      (total_duration / inject_Z (Z.of_nat (length chunks)))%Q in
    timing_loop 0 chunk_duration chunks.

Section Process.

Variable sub_punctuation : string -> string.
(** [AudioFileClip(audio_path).duration]; [None] when the constructor
    raises. *)
Variable audio_clip_duration : string -> option Q.

(** [SubtitleProcessor.get_audio_duration] *)
Definition get_audio_duration (audio_path : string) : Q :=
  match audio_clip_duration audio_path with
  | Some duration => duration
  | None => 0.0%Q
  end.

(** [process_subtitle], as far as its result goes: the RST text that it
    also writes is built from the returned list and not part of the model.
    [max_chars_per_line] is the entry of [subtitle_settings] in the
    configuration, when there is one. *)
Definition process_subtitle (max_chars_per_line : option Z)
  (text audio_path : string) : list Timing.t :=
  let clean_text := remove_punctuation sub_punctuation text in
  let max_chars := default 15 max_chars_per_line in
  let chunks := split_into_chunks clean_text max_chars in
  let audio_duration := get_audio_duration audio_path in
  calculate_timing chunks audio_duration.

End Process.

(** *** Voice tracks ([scene_durations], [load_audio_clips_concurrent]) *)

(** The dictionary [scene_durations] of [create_complete_video]: for each
    scene the largest [end_time] of its segments. *)
Definition scene_durations (all_segments : list Seg.t) : gmap Z Q :=
  foldl (fun scene_durations segment =>
           let scene := Seg.scene segment in
           match scene_durations !! scene with
           | None => <[scene := Seg.end_time segment]> scene_durations
           | Some d =>
               <[scene := if Qltb d (Seg.end_time segment)
                          then Seg.end_time segment else d]> scene_durations
           end)
        ∅ all_segments.

Definition audio_path_of (shot : string) (scene : Z) : string :=
  "assets/" +:+ shot +:+ "/audios/" +:+ shot +:+ "_"
    +:+ pretty scene +:+ ".wav".

(** The loop that fills [audio_tasks], over the sorted scene numbers that
    are left, with the value of [current_time]. *)
Fixpoint audio_tasks_loop (shot : string) (scene_durations : gmap Z Q)
  (scenes : list Z) (current_time : Q) : option (list (Z * string * Q)) :=
  match scenes with
  | [] => Some []
  | scene :: rest =>
      next_time ← scene_durations !! scene;
      tasks ← audio_tasks_loop shot scene_durations rest next_time;
      Some ((scene, audio_path_of shot scene, current_time) :: tasks)
  end.

(** [audio_tasks] of [load_audio_clips_concurrent]: scene, path of the
    voice file and the time at which the voice clip is made to start. *)
Definition audio_tasks (shot : string) (scene_durations : gmap Z Q)
  : option (list (Z * string * Q)) :=
  audio_tasks_loop shot scene_durations
    (merge_sort Z.le (elements (dom scene_durations))) 0.

(** [len(set(seg['scene'] for seg in all_segments))] of
    [create_complete_video], the number of pictures to preload. *)
Definition scene_count (all_segments : list Seg.t) : Z :=
  Z.of_nat (size (list_to_set (map Seg.scene all_segments) : gset Z)).

(** *** Audio for a finished video ([add_audio_and_music]) *)

(** A video clip as far as [add_audio_and_music] looks at it: how long it
    is and the audio track it carries. *)
Module Video.
Record t : Type := Make {
  duration : Q;
  audio : option Clip.t
}.
End Video.

(** [video_clip.subclipped(start_time, end_time)]: the audio track is cut
    by the same call. *)
Definition video_subclipped (clip : Video.t) (start_time end_time : Q)
  : option Video.t :=
  if Qle_bool (Video.duration clip) start_time then None
  else if Qltb (Video.duration clip) end_time then None
  else
    audio ←
      match Video.audio clip with
      | None => Some None
      | Some audio =>
          audio ← subclipped audio start_time end_time;
          Some (Some audio)
      end;
    Some (Video.Make (end_time - start_time) audio).

Definition with_audio (clip : Video.t) (audio : Clip.t) : Video.t :=
  Video.Make (Video.duration clip) (Some audio).

(** [CompositeAudioClip(clips)] for clips that start at 0: it lasts as
    long as the longest clip and plays the sum of the clips that are still
    running. *)
Definition CompositeAudioClip (clips : list Clip.t) : option Clip.t :=
  duration ← py_max (map Clip.duration clips);
  Some (Clip.Make duration
          (fun t =>
             foldr (fun c acc =>
                      ((if Qle_bool 0 t && Qltb t (Clip.duration c)
                        then Clip.get_frame c t else 0) + acc)%Q)
                   0%Q clips)).

(** The first two steps of the [try] block: the longer of video and voice
    is cut to the length of the other. *)
Definition match_lengths (video_clip : Video.t) (voice_audio : Clip.t)
  : option (Video.t * Clip.t) :=
  if Qltb (Clip.duration voice_audio) (Video.duration video_clip) then
    video_clip ← video_subclipped video_clip 0 (Clip.duration voice_audio);
    Some (video_clip, voice_audio)
  else if Qltb (Video.duration video_clip) (Clip.duration voice_audio) then
    voice_audio ← subclipped voice_audio 0 (Video.duration video_clip);
    Some (video_clip, voice_audio)
  else Some (video_clip, voice_audio).

(** [add_audio_and_music].  [voice_file] and [bg_file] say what is at the
    two paths: [None] when no file exists, [Some None] for a file on which
    [AudioFileClip] raises, [Some (Some clip)] for a file that loads.  The
    result is [None] when an exception leaves the function, which can
    happen only outside the [try] block; inside it the handler returns
    what [video_clip] is bound to at that point. *)
Definition add_audio_and_music (video_clip : Video.t)
  (voice_file bg_file : option (option Clip.t)) (bg_volume : Q)
  : option Video.t :=
  match voice_file with
  | None =>
      match bg_file with
      | Some bg_file =>
          bg_audio ← bg_file;
          let bg_audio := with_volume_scaled bg_audio bg_volume in
          bg_audio ←
            (if Qltb (Video.duration video_clip) (Clip.duration bg_audio)
             then subclipped bg_audio 0 (Video.duration video_clip)
             else Some bg_audio);
          Some (with_audio video_clip bg_audio)
      | None => Some video_clip
      end
  | Some voice_file =>
      match voice_file with
      | None => Some video_clip
      | Some voice_audio =>
          match match_lengths video_clip voice_audio with
          | None => Some video_clip
          | Some (video_clip, voice_audio) =>
              let final_video :=
                final_audio ←
                  match bg_file with
                  | Some bg_file =>
                      bg_audio ← bg_file;
                      bg_audio ←
                        add_audio_and_music_bg bg_audio bg_volume
                          (Video.duration video_clip);
                      CompositeAudioClip [voice_audio; bg_audio]
                  | None => Some voice_audio
                  end;
                Some (with_audio video_clip final_audio) in
              Some (default video_clip final_video)
          end
      end
  end.

(** *** More stand-ins *)

Module Sample.

(** Only the picture of scene 1 of [shot_01] can be read. *)
Definition imread (image_path : string) : option image :=
  if String.eqb image_path "assets/shot_01/images/shot_01_1.png"
  then Some Reference.grey else None.

(** A three-second voice and a five-second silent video. *)
Definition voice : Clip.t := Clip.Make 3.0 (fun t => (2 * t)%Q).
Definition video : Video.t := Video.Make 5.0 None.

(** Audio lengths by file name. *)
Definition audio_clip_duration (audio_path : string) : option Q :=
  if String.eqb audio_path "a.wav" then Some 4.0%Q else None.

End Sample.

(** * Properties *)

(** ** Numerics, slices and effects *)

(** *** Truncation *)

Lemma py_int_ge n x : (inject_Z n <= x)%Q -> n <= py_int x.
Proof.
  intros H. unfold py_int. destruct (Qle_bool 0 x).
  - rewrite <- (Qfloor_Z n). by apply Qfloor_resp_le.
  - rewrite <- (Qceiling_Z n). by apply Qceiling_resp_le.
Qed.

Lemma inject_Z_nonneg n : 0 <= n -> (0 <= inject_Z n)%Q.
Proof. intros H. change 0%Q with (inject_Z 0). by rewrite <- Zle_Qle. Qed.

(** A zoom factor of at least 1 does not shrink a dimension. *)
Lemma zoomed_dim_ge n zoom :
  0 <= n -> (1 <= zoom)%Q -> n <= py_int (inject_Z n * zoom).
Proof.
  intros Hn Hz. apply py_int_ge. pose proof (inject_Z_nonneg n Hn). nra.
Qed.

Lemma easing_range t :
  (0 <= t)%Q -> (t <= 1)%Q ->
  (0 <= easing_function t)%Q /\ (easing_function t <= 1)%Q.
Proof.
  intros H0 H1. unfold easing_function, Qltb.
  destruct (Qle_bool 0.5 t) eqn:E; cbn [negb].
  - apply Qle_bool_iff in E. 
    assert (0 <= -2 * t + 2)%Q by lra. assert (-2 * t + 2 <= 1)%Q by lra.
    set (u := (-2 * t + 2)%Q) in *.
    assert (0 <= u * u * u)%Q by nra. assert (u * u * u <= 1)%Q by nra.
    unfold Qdiv. change (/ 2)%Q with (1 # 2)%Q. split; lra.
  - assert (t < 0.5)%Q.
    { apply Qnot_le_lt. intros C. apply Qle_bool_iff in C. congruence. }
    split; nra.
Qed.

Lemma clamp_range p :
  (0 <= Qmax 0.0 (Qmin 1.0 p))%Q /\ (Qmax 0.0 (Qmin 1.0 p) <= 1)%Q.
Proof.
  split.
  - pose proof (Q.le_max_l 0.0 (Qmin 1.0 p)). lra.
  - apply Q.max_lub; [lra|]. pose proof (Q.le_min_l 1.0 p). lra.
Qed.

Lemma py_int_mono x y : (x <= y)%Q -> py_int x <= py_int y.
Proof.
  intros H. unfold py_int.
  destruct (Qle_bool 0 x) eqn:Ex, (Qle_bool 0 y) eqn:Ey.
  - by apply Qfloor_resp_le.
  - apply Qle_bool_iff in Ex. assert (0 <= y)%Q by lra.
    apply Qle_bool_iff in H0. congruence.
  - assert (x <= 0)%Q.
    { apply Qlt_le_weak, Qnot_le_lt. intros C. apply Qle_bool_iff in C.
      congruence. }
    apply Qle_bool_iff in Ey.
    pose proof (Qceiling_resp_le x 0 H0) as H1. 
    pose proof (Qfloor_resp_le 0 y Ey) as H2.
    change (Qceiling 0) with 0 in H1. change (Qfloor 0) with 0 in H2. lia.
  - by apply Qceiling_resp_le.
Qed.

(** *** Slices *)

Lemma slice_length {A} (l : list A) s e :
  0 <= s -> s <= e -> e <= Z.of_nat (length l) ->
  Z.of_nat (length (py_slice l s e)) = e - s.
Proof.
  intros Hs He Hl. unfold py_slice, slice_bound.
  destruct (Z.ltb_spec s 0), (Z.ltb_spec e 0); try lia.
  rewrite length_take, length_drop. lia.
Qed.

Lemma Forall_py_slice {A} (P : A -> Prop) (l : list A) s e :
  Forall P l -> Forall P (py_slice l s e).
Proof. intros H. unfold py_slice. by apply Forall_take, Forall_drop. Qed.

Lemma crop_shape img H W sy sx h w :
  has_shape img H W -> 0 <= sy -> sy + h <= H -> 0 <= sx -> sx + w <= W ->
  0 <= h -> 0 <= w -> has_shape (crop img sy sx h w) h w.
Proof.
  intros [HH HW] ? ? ? ? ? ?. unfold crop. split.
  - rewrite length_map, slice_length; lia.
  - apply Forall_map, Forall_py_slice.
    eapply Forall_impl; [exact HW|]. intros row Hrow. unfold compose.
    cbn beta in Hrow.
    rewrite slice_length; lia.
Qed.

Lemma has_shapeb_spec img h w :
  has_shapeb img h w = true <-> has_shape img h w.
Proof.
  unfold has_shapeb, has_shape. rewrite andb_true_iff, Z.eqb_eq, forallb_forall.
  rewrite Forall_forall. setoid_rewrite list_elem_of_In.
  setoid_rewrite Z.eqb_eq. reflexivity.
Qed.

Lemma np_zeros_shape h w : 0 <= h -> 0 <= w -> has_shape (np_zeros h w) h w.
Proof.
  intros Hh Hw. unfold np_zeros. split.
  - rewrite length_replicate. lia.
  - apply Forall_replicate. rewrite length_replicate. lia.
Qed.

Lemma np_zeros_black h w : all_black (np_zeros h w).
Proof.
  unfold all_black, np_zeros. apply Forall_replicate, Forall_replicate.
  reflexivity.
Qed.

Lemma paste_rows_shape rows sx src W w :
  0 <= sx -> sx + w <= W ->
  Forall (fun row => Z.of_nat (length row) = W) rows ->
  Forall (fun row => Z.of_nat (length row) = w) src ->
  length (paste_rows rows sx src) = length rows /\
  Forall (fun row => Z.of_nat (length row) = W) (paste_rows rows sx src).
Proof.
  intros Hsx Hw Hrows. revert src.
  induction Hrows as [|row rows Hrow Hrows IH]; intros src Hsrc.
  - split; [reflexivity|constructor].
  - destruct Hsrc as [|s src Hs Hsrc]; cbn [paste_rows].
    + split; [reflexivity|]. by constructor.
    + destruct (IH src Hsrc) as [IH1 IH2]. split.
      * cbn [length]. by rewrite IH1.
      * constructor; [|exact IH2]. unfold paste_row.
        rewrite !length_app, length_take, length_drop. lia.
Qed.

Lemma paste_shape canvas H W sy sx h w src :
  has_shape canvas H W -> has_shape src h w ->
  0 <= sy -> sy + h <= H -> 0 <= sx -> sx + w <= W -> 0 <= h -> 0 <= w ->
  exists out, paste canvas sy sx h w src = Some out /\ has_shape out H W.
Proof.
  intros Hc Hs ? ? ? ? ? ?. unfold paste.
  assert (Hreg : has_shape (crop canvas sy sx h w) h w)
    by (eapply crop_shape; eauto).
  apply has_shapeb_spec in Hreg. rewrite Hreg.
  pose proof Hs as Hs'. apply has_shapeb_spec in Hs'. rewrite Hs'.
  destruct (Z.leb_spec 0 sy); [|lia]. destruct (Z.leb_spec 0 sx); [|lia].
  cbn [andb]. eexists. split; [reflexivity|].
  destruct Hc as [Hc1 Hc2]. destruct Hs as [Hs1 Hs2].
  destruct (paste_rows_shape (drop (Z.to_nat sy) canvas) sx src W w) as [P1 P2];
    auto using Forall_drop.
  split.
  - rewrite length_app, P1, length_take, length_drop. lia.
  - apply Forall_app. split; [by apply Forall_take | exact P2].
Qed.

(** A centred start and a clamped start both keep the slice inside. *)
Lemma centered_window z n :
  n <= z -> 0 <= (z - n) / 2 /\ (z - n) / 2 + n <= z.
Proof. intros. Z.to_euclidean_division_equations. lia. Qed.

Lemma clamped_window z n s :
  n <= z ->
  0 <= Z.max 0 (Z.min s (z - n)) /\ Z.max 0 (Z.min s (z - n)) + n <= z.
Proof. lia. Qed.

(** Solves the bounds of a window whose starts are centred or clamped. *)
Ltac window_bounds :=
  unfold window_in_bounds; cbn [start_x start_y buf_width buf_height];
  repeat match goal with
  | |- _ /\ _ => split
  end;
  first [ eapply centered_window | eapply clamped_window ];
  apply zoomed_dim_ge; try lia; try lra.

Lemma zoom_in_window_in_bounds p w h :
  0 < w -> 0 < h -> (0 <= p)%Q -> window_in_bounds (zoom_in_window p w h) w h.
Proof. intros. unfold zoom_in_window. window_bounds. Qed.

Lemma zoom_out_window_in_bounds p w h :
  0 < w -> 0 < h -> (p <= 1)%Q -> window_in_bounds (zoom_out_window p w h) w h.
Proof. intros. unfold zoom_out_window. window_bounds. Qed.

Lemma pan_left_window_in_bounds p w h :
  0 < w -> 0 < h -> window_in_bounds (pan_left_window p w h) w h.
Proof. intros. unfold pan_left_window. window_bounds. Qed.

Lemma pan_right_window_in_bounds p w h :
  0 < w -> 0 < h -> window_in_bounds (pan_right_window p w h) w h.
Proof. intros. unfold pan_right_window. window_bounds. Qed.

Lemma pan_up_window_in_bounds p w h :
  0 < w -> 0 < h -> window_in_bounds (pan_up_window p w h) w h.
Proof. intros. unfold pan_up_window. window_bounds. Qed.

Lemma pan_down_window_in_bounds p w h :
  0 < w -> 0 < h -> window_in_bounds (pan_down_window p w h) w h.
Proof. intros. unfold pan_down_window. window_bounds. Qed.

Lemma zoom_pan_left_window_in_bounds p w h :
  0 < w -> 0 < h -> (0 <= p)%Q ->
  window_in_bounds (zoom_pan_left_window p w h) w h.
Proof. intros. unfold zoom_pan_left_window. window_bounds. Qed.

Lemma zoom_pan_right_window_in_bounds p w h :
  0 < w -> 0 < h -> (0 <= p)%Q ->
  window_in_bounds (zoom_pan_right_window p w h) w h.
Proof. intros. unfold zoom_pan_right_window. window_bounds. Qed.

Lemma zoom_pan_up_window_in_bounds p w h :
  0 < w -> 0 < h -> (0 <= p)%Q ->
  window_in_bounds (zoom_pan_up_window p w h) w h.
Proof. intros. unfold zoom_pan_up_window. window_bounds. Qed.

Lemma zoom_pan_down_window_in_bounds p w h :
  0 < w -> 0 < h -> (0 <= p)%Q ->
  window_in_bounds (zoom_pan_down_window p w h) w h.
Proof. intros. unfold zoom_pan_down_window. window_bounds. Qed.

Lemma spiral_window_in_bounds msin mcos mpi p w h :
  0 < w -> 0 < h -> (0 <= p)%Q ->
  window_in_bounds (spiral_window msin mcos mpi p w h) w h.
Proof. intros. unfold spiral_window. window_bounds. Qed.

Lemma rotate_zoom_canvas_ge p w h :
  0 < w -> 0 < h -> (0 <= p)%Q ->
  Z.max w h <= rotate_zoom_canvas_size p w h.
Proof.
  intros. unfold rotate_zoom_canvas_size, rotate_zoom_current_zoom.
  apply py_int_ge.
  pose proof (inject_Z_nonneg (Z.max w h) ltac:(lia)). nra.
Qed.

Lemma rotate_zoom_window_in_bounds p w h :
  0 < w -> 0 < h -> (0 <= p)%Q ->
  window_in_bounds (rotate_zoom_window p w h) w h.
Proof.
  intros Hw Hh Hp. pose proof (rotate_zoom_canvas_ge p w h Hw Hh Hp).
  unfold rotate_zoom_window.
  unfold window_in_bounds; cbn [start_x start_y buf_width buf_height].
  repeat split; apply centered_window; lia.
Qed.

(** The cases of the dispatch on the effect kind, in its order. *)
Ltac kind_cases e :=
  destruct (String.eqb e KenBurnsEffect.ZOOM_IN);
  [| destruct (String.eqb e KenBurnsEffect.ZOOM_OUT);
  [| destruct (String.eqb e KenBurnsEffect.PAN_LEFT);
  [| destruct (String.eqb e KenBurnsEffect.PAN_RIGHT);
  [| destruct (String.eqb e KenBurnsEffect.PAN_UP);
  [| destruct (String.eqb e KenBurnsEffect.PAN_DOWN);
  [| destruct (String.eqb e KenBurnsEffect.ZOOM_PAN_LEFT);
  [| destruct (String.eqb e KenBurnsEffect.ZOOM_PAN_RIGHT);
  [| destruct (String.eqb e KenBurnsEffect.ZOOM_PAN_UP);
  [| destruct (String.eqb e KenBurnsEffect.ZOOM_PAN_DOWN);
  [| destruct (String.eqb e KenBurnsEffect.ROTATE_ZOOM);
  [| destruct (String.eqb e KenBurnsEffect.SPIRAL)]]]]]]]]]]].

Section EffectProperties.

Variable cv2_resize : image -> Z -> Z -> option image.
Variable affine : Type.
Variable cv2_getRotationMatrix2D : Z * Z -> Q -> Q -> affine.
Variable cv2_warpAffine : image -> affine -> Z -> Z -> option image.
Variables math_sin math_cos : Q -> Q.
Variable math_pi : Q.

Hypothesis cv2_resize_shape : resize_contract cv2_resize.
Hypothesis cv2_warpAffine_shape : warp_contract cv2_warpAffine.

Lemma resize_and_crop_reads img win w h :
  is_image img -> 0 < w -> 0 < h -> window_in_bounds win w h ->
  exists buf, has_shape buf (buf_height win) (buf_width win)
    /\ resize_and_crop cv2_resize img win w h
        = Some (crop buf (start_y win) (start_x win) h w).
Proof.
  intros Himg Hw Hh (Hx0 & Hx1 & Hy0 & Hy1). unfold resize_and_crop.
  destruct (cv2_resize_shape img (buf_width win) (buf_height win) Himg)
    as (zoomed & -> & Hz); [lia | lia |].
  exists zoomed. split; [exact Hz | reflexivity].
Qed.

Lemma apply_rotate_zoom_reads img p w h :
  is_image img -> 0 < w -> 0 < h -> (0 <= p)%Q ->
  let win := rotate_zoom_window p w h in
  exists buf, has_shape buf (buf_height win) (buf_width win)
    /\ apply_rotate_zoom cv2_resize affine cv2_getRotationMatrix2D
         cv2_warpAffine math_sin math_pi img p w h
        = Some (crop buf (start_y win) (start_x win) h w).
Proof.
  intros Himg Hw Hh Hp. unfold apply_rotate_zoom.
  pose proof (rotate_zoom_canvas_ge p w h Hw Hh Hp) as Hcs.
  unfold rotate_zoom_window. cbn [start_x start_y buf_width buf_height].
  set (cs := rotate_zoom_canvas_size p w h) in *.
  set (zw := py_int (inject_Z w * rotate_zoom_current_zoom p)).
  set (zh := py_int (inject_Z h * rotate_zoom_current_zoom p)).
  assert (Hzoom : (1 <= rotate_zoom_current_zoom p)%Q)
    by (unfold rotate_zoom_current_zoom; lra).
  assert (Hzw : w <= zw) by (apply zoomed_dim_ge; [lia | exact Hzoom]).
  assert (Hzh : h <= zh) by (apply zoomed_dim_ge; [lia | exact Hzoom]).
  assert (Hzw' : zw <= cs).
  { apply py_int_mono.
    pose proof (inject_Z_nonneg w ltac:(lia)).
    assert (inject_Z w <= inject_Z (Z.max w h))%Q by (rewrite <- Zle_Qle; lia).
    nra. }
  assert (Hzh' : zh <= cs).
  { apply py_int_mono.
    pose proof (inject_Z_nonneg h ltac:(lia)).
    assert (inject_Z h <= inject_Z (Z.max w h))%Q by (rewrite <- Zle_Qle; lia).
    nra. }
  destruct (cv2_resize_shape img zw zh Himg) as (zoomed & -> & Hz); [lia..|].
  cbn [mbind option_bind].
  destruct (paste_shape (np_zeros cs cs) cs cs ((cs - zh) / 2) ((cs - zw) / 2)
              zh zw zoomed) as (canvas & -> & Hcanvas);
    try (apply centered_window; lia); try lia; auto.
  { apply np_zeros_shape; lia. }
  cbn [mbind option_bind].
  edestruct (cv2_warpAffine_shape canvas) as (rotated & -> & Hrot).
  { exists cs, cs. split; [lia|]. split; [lia|]. exact Hcanvas. }
  1,2: lia.
  cbn [mbind option_bind]. exists rotated. split; [exact Hrot | reflexivity].
Qed.

#[local] Abbreviation kb_window := (ken_burns_window math_sin math_cos math_pi).
#[local] Abbreviation kb_effect :=
  (apply_ken_burns_effect cv2_resize affine cv2_getRotationMatrix2D
     cv2_warpAffine math_sin math_cos math_pi).

Lemma ken_burns_window_bounds progress effect_type w h :
  0 < w -> 0 < h -> window_in_bounds (kb_window progress effect_type w h) w h.
Proof.
  intros Hw Hh. unfold ken_burns_window.
  destruct (clamp_range progress) as [Hc0 Hc1].
  destruct (easing_range _ Hc0 Hc1) as [He0 He1].
  kind_cases effect_type;
  [ apply zoom_in_window_in_bounds | apply zoom_out_window_in_bounds
  | apply pan_left_window_in_bounds | apply pan_right_window_in_bounds
  | apply pan_up_window_in_bounds | apply pan_down_window_in_bounds
  | apply zoom_pan_left_window_in_bounds
  | apply zoom_pan_right_window_in_bounds
  | apply zoom_pan_up_window_in_bounds
  | apply zoom_pan_down_window_in_bounds
  | apply rotate_zoom_window_in_bounds | apply spiral_window_in_bounds
  | apply zoom_in_window_in_bounds ]; assumption.
Qed.

Lemma ken_burns_reads_window img progress effect_type w h :
  is_image img -> 0 < w -> 0 < h ->
  let win := kb_window progress effect_type w h in
  exists buf, has_shape buf (buf_height win) (buf_width win)
    /\ kb_effect img progress effect_type w h
        = Some (crop buf (start_y win) (start_x win) h w).
Proof.
  intros Himg Hw Hh.
  pose proof (ken_burns_window_bounds progress effect_type w h Hw Hh) as Hb.
  revert Hb. unfold ken_burns_window, apply_ken_burns_effect.
  destruct (clamp_range progress) as [Hc0 Hc1].
  destruct (easing_range _ Hc0 Hc1) as [He0 He1].
  kind_cases effect_type; intros Hb;
  [ | | | | | | | | | | apply apply_rotate_zoom_reads; assumption | | ];
  apply resize_and_crop_reads; assumption.
Qed.

(** C1.  For every picture, every effect kind (also an unknown one), every
    target width and height above zero and every progress value, in or
    out of [0, 1], [apply_ken_burns_effect] returns, and what it returns
    has exactly [height] rows of [width] pixels. *)
Theorem apply_ken_burns_effect_shape img progress effect_type width height :
  is_image img -> 0 < width -> 0 < height ->
  exists frame,
    kb_effect img progress effect_type width height = Some frame
    /\ has_shape frame height width.
Proof.
  intros Himg Hw Hh.
  destruct (ken_burns_reads_window img progress effect_type width height
              Himg Hw Hh) as (buf & Hbuf & ->).
  destruct (ken_burns_window_bounds progress effect_type width height Hw Hh)
    as (Hx0 & Hx1 & Hy0 & Hy1).
  eexists. split; [reflexivity|].
  eapply crop_shape; eauto; lia.
Qed.

(** C2.  For a progress in [0, 1] the window of every effect lies inside
    the buffer it is sliced from: each start index is at least 0 and start
    plus the target dimension is at most the dimension of the buffer.
    This holds of the twelve effects taken one by one and of the window
    that [apply_ken_burns_effect] uses after clamping and easing; the
    frame it returns is the slice of a buffer of the stated size at that
    window. *)
Theorem crop_windows_in_bounds img progress effect_type width height :
  is_image img -> 0 < width -> 0 < height ->
  (0 <= progress)%Q -> (progress <= 1)%Q ->
  Forall (fun window_of =>
            window_in_bounds (window_of progress width height) width height)
    [ zoom_in_window; zoom_out_window; pan_left_window; pan_right_window;
      pan_up_window; pan_down_window; zoom_pan_left_window;
      zoom_pan_right_window; zoom_pan_up_window; zoom_pan_down_window;
      rotate_zoom_window; spiral_window math_sin math_cos math_pi ]
  /\ let win := kb_window progress effect_type width height in
     window_in_bounds win width height
     /\ exists buf,
          has_shape buf (buf_height win) (buf_width win)
          /\ kb_effect img progress effect_type width height
             = Some (crop buf (start_y win) (start_x win) height width).
Proof.
  intros Himg Hw Hh Hp0 Hp1. split.
  - repeat (apply Forall_cons; split); try apply Forall_nil;
      auto using zoom_in_window_in_bounds, zoom_out_window_in_bounds,
        pan_left_window_in_bounds, pan_right_window_in_bounds,
        pan_up_window_in_bounds, pan_down_window_in_bounds,
        zoom_pan_left_window_in_bounds, zoom_pan_right_window_in_bounds,
        zoom_pan_up_window_in_bounds, zoom_pan_down_window_in_bounds,
        rotate_zoom_window_in_bounds, spiral_window_in_bounds.
  - split.
    + by apply ken_burns_window_bounds.
    + by apply ken_burns_reads_window.
Qed.

End EffectProperties.

(** The stand-ins meet the size contracts. *)
Lemma Reference_resize_contract : resize_contract Reference.resize.
Proof.
  intros img w h (h0 & w0 & Hh0 & Hw0 & Hlen & Hrows) Hw Hh.
  unfold Reference.resize.
  destruct img as [|row img]; [cbn in Hlen; lia|].
  apply Forall_cons in Hrows as [Hrow _].
  change (default [] (head (row :: img))) with row.
  destruct (Z.ltb_spec 0 w); [|lia]. destruct (Z.ltb_spec 0 h); [|lia].
  destruct (Z.ltb_spec 0 (Z.of_nat (length (row :: img)))); [|cbn in *; lia].
  destruct (Z.ltb_spec 0 (Z.of_nat (length row))); [|lia].
  cbn [andb]. eexists. split; [reflexivity|]. split.
  - rewrite length_map, length_seqZ. lia.
  - apply Forall_map, Forall_forall. intros y _. unfold compose.
    rewrite length_map, length_seqZ. lia.
Qed.

Lemma Reference_warp_contract : warp_contract Reference.warp.
Proof. intros src M w h. apply Reference_resize_contract. Qed.

Lemma Reference_grey_is_image : is_image Reference.grey.
Proof.
  exists 4, 4. split; [lia|]. split; [lia|]. split; [reflexivity|].
  repeat constructor.
Qed.

(** C1 at a grey picture, progress 1.5 and [rotate_zoom]. *)
Lemma apply_ken_burns_effect_shape_witness :
  exists frame,
    apply_ken_burns_effect Reference.resize unit Reference.rotation_matrix
      Reference.warp Reference.sin Reference.cos Reference.pi
      Reference.grey 1.5 KenBurnsEffect.ROTATE_ZOOM 4 3 = Some frame
    /\ has_shape frame 3 4.
Proof.
  apply (apply_ken_burns_effect_shape Reference.resize unit
           Reference.rotation_matrix Reference.warp Reference.sin
           Reference.cos Reference.pi Reference_resize_contract
           Reference_warp_contract Reference.grey 1.5
           KenBurnsEffect.ROTATE_ZOOM 4 3 Reference_grey_is_image);
    reflexivity.
Defined.

Example rotate_zoom_runs :
  apply_ken_burns_effect Reference.resize unit Reference.rotation_matrix
    Reference.warp Reference.sin Reference.cos Reference.pi
    Reference.grey (-0.2) KenBurnsEffect.ROTATE_ZOOM 2 2
  = Some [[(128, 128, 128); (128, 128, 128)];
          [(128, 128, 128); (128, 128, 128)]].
Proof. vm_compute. reflexivity. Qed.

(** *** The pans *)

Lemma py_int_comp x y : (x == y)%Q -> py_int x = py_int y.
Proof.
  intros H. unfold py_int. rewrite (Qleb_comp 0%Q 0%Q (Qeq_refl 0%Q) x y H).
  destruct (Qle_bool 0 y); [by apply Qfloor_comp | by apply Qceiling_comp].
Qed.

Lemma py_int_inject n : py_int (inject_Z n) = n.
Proof.
  unfold py_int.
  destruct (Qle_bool 0 (inject_Z n)); [apply Qfloor_Z | apply Qceiling_Z].
Qed.

Lemma py_int_le_self x : (0 <= x)%Q -> (inject_Z (py_int x) <= x)%Q.
Proof.
  intros H. unfold py_int. apply Qle_bool_iff in H. rewrite H. apply Qfloor_le.
Qed.

Lemma py_int_nonneg x : (0 <= x)%Q -> 0 <= py_int x.
Proof. intros H. apply py_int_ge. exact H. Qed.

Lemma pan_margin_le_distance w :
  0 < w -> py_int (inject_Z w * 1.2) - w <= py_int (inject_Z w * 0.3).
Proof.
  intros Hw. pose proof (inject_Z_nonneg w ltac:(lia)) as Hq.
  apply py_int_ge.
  pose proof (py_int_le_self (inject_Z w * 1.2) ltac:(nra)) as Hle.
  unfold Zminus. rewrite inject_Z_plus, inject_Z_opp. lra.
Qed.

Lemma pan_left_raw_x_antitone p q w :
  0 < w -> (p <= q)%Q -> pan_left_raw_x q w <= pan_left_raw_x p w.
Proof.
  intros Hw Hpq. unfold pan_left_raw_x. apply py_int_mono.
  pose proof (py_int_nonneg (inject_Z w * 0.3)
                ltac:(pose proof (inject_Z_nonneg w ltac:(lia)); nra)) as Hpd.
  apply inject_Z_nonneg in Hpd. nra.
Qed.

Lemma pan_right_raw_x_monotone p q w :
  0 < w -> (p <= q)%Q -> pan_right_raw_x p w <= pan_right_raw_x q w.
Proof.
  intros Hw Hpq. unfold pan_right_raw_x. apply py_int_mono.
  pose proof (py_int_nonneg (inject_Z w * 0.3)
                ltac:(pose proof (inject_Z_nonneg w ltac:(lia)); nra)) as Hpd.
  apply inject_Z_nonneg in Hpd. nra.
Qed.

Lemma pan_left_raw_x_0 w :
  pan_left_raw_x 0 w = py_int (inject_Z w * 1.2) - w.
Proof.
  unfold pan_left_raw_x.
  transitivity (py_int (inject_Z (py_int (inject_Z w * 1.2) - w))).
  - apply py_int_comp. ring.
  - apply py_int_inject.
Qed.

Lemma pan_left_raw_x_1 w :
  pan_left_raw_x 1 w
  = py_int (inject_Z w * 1.2) - w - py_int (inject_Z w * 0.3).
Proof.
  unfold pan_left_raw_x.
  transitivity (py_int (inject_Z (py_int (inject_Z w * 1.2) - w
                                  - py_int (inject_Z w * 0.3)))).
  - apply py_int_comp.
    unfold Zminus. rewrite !inject_Z_plus, !inject_Z_opp. ring.
  - apply py_int_inject.
Qed.

Lemma pan_right_raw_x_0 w : pan_right_raw_x 0 w = 0.
Proof.
  unfold pan_right_raw_x. transitivity (py_int (inject_Z 0)).
  - apply py_int_comp. ring.
  - apply py_int_inject.
Qed.

Lemma pan_right_raw_x_1 w : pan_right_raw_x 1 w = py_int (inject_Z w * 0.3).
Proof.
  unfold pan_right_raw_x.
  transitivity (py_int (inject_Z (py_int (inject_Z w * 0.3)))).
  - apply py_int_comp. ring.
  - apply py_int_inject.
Qed.

(** C5, amended.  For [pan_left] and [pan_right] the zoomed buffer is
    [int(1.2 * width)] by [int(1.2 * height)] whatever the progress.  The
    offset before the clamp sweeps [int(0.3 * width)], but the offset used
    for the slice is that value clamped into [0, int(1.2 * width) - width]:
    it sweeps the margin [int(1.2 * width) - width], about 20% of the
    width.  [pan_left] starts at the margin (the right edge) and never
    moves right, [pan_right] starts at 0 (the left edge) and never moves
    left. *)
Theorem pan_offsets_sweep_the_margin w h p q :
  0 < w -> 0 < h -> (p <= q)%Q ->
  let margin := py_int (inject_Z w * 1.2) - w in
  let pan_distance := py_int (inject_Z w * 0.3) in
  (buf_width (pan_left_window p w h) = py_int (inject_Z w * 1.2)
   /\ buf_height (pan_left_window p w h) = py_int (inject_Z h * 1.2)
   /\ buf_width (pan_right_window p w h) = py_int (inject_Z w * 1.2)
   /\ buf_height (pan_right_window p w h) = py_int (inject_Z h * 1.2))
  /\ (pan_left_raw_x 0 w - pan_left_raw_x 1 w = pan_distance
      /\ pan_right_raw_x 1 w - pan_right_raw_x 0 w = pan_distance)
  /\ (start_x (pan_left_window p w h)
        = Z.max 0 (Z.min (pan_left_raw_x p w) margin)
      /\ start_x (pan_right_window p w h)
        = Z.max 0 (Z.min (pan_right_raw_x p w) margin))
  /\ (start_x (pan_left_window 0 w h) = margin
      /\ start_x (pan_left_window 1 w h) = 0
      /\ start_x (pan_right_window 0 w h) = 0
      /\ start_x (pan_right_window 1 w h) = margin)
  /\ (start_x (pan_left_window q w h) <= start_x (pan_left_window p w h)
      /\ start_x (pan_right_window p w h) <= start_x (pan_right_window q w h)).
Proof.
  intros Hw Hh Hpq margin pan_distance.
  pose proof (pan_margin_le_distance w Hw) as Hmd.
  assert (Hm : 0 <= margin).
  { subst margin. pose proof (zoomed_dim_ge w 1.2 ltac:(lia) ltac:(lra)). lia. }
  pose proof (pan_left_raw_x_antitone p q w Hw Hpq) as HL.
  pose proof (pan_right_raw_x_monotone p q w Hw Hpq) as HR.
  unfold pan_left_window, pan_right_window.
  cbn [start_x start_y buf_width buf_height].
  rewrite pan_left_raw_x_0, pan_left_raw_x_1, pan_right_raw_x_0,
    pan_right_raw_x_1.
  fold margin pan_distance in Hmd |- *.
  repeat split; try reflexivity; lia.
Qed.

(** C5 as stated fails: for a width of 100 the offset of either pan covers
    20 pixels between progress 0 and 1, not the 30 of [int(0.3 * 100)]. *)
Lemma pan_sweep_is_not_30_percent :
  start_x (pan_left_window 0 100 100) - start_x (pan_left_window 1 100 100)
    <> py_int (inject_Z 100 * 0.3)
  /\ start_x (pan_right_window 1 100 100) - start_x (pan_right_window 0 100 100)
    <> py_int (inject_Z 100 * 0.3).
Proof. vm_compute. split; discriminate. Qed.

(** ** Subtitle lookup *)

Lemma Qltb_true a b : Qltb a b = true <-> (a < b)%Q.
Proof.
  unfold Qltb. rewrite negb_true_iff. split.
  - intros H. apply Qnot_le_lt. intros C. apply Qle_bool_iff in C. congruence.
  - intros H. destruct (Qle_bool b a) eqn:E; [|reflexivity].
    apply Qle_bool_iff in E. lra.
Qed.

Lemma Qltb_false a b : Qltb a b = false <-> (b <= a)%Q.
Proof.
  unfold Qltb. rewrite negb_false_iff. apply Qle_bool_iff.
Qed.

Lemma covers_test info t :
  Qle_bool (Info.start_time info) t && Qle_bool t (Info.end_time info) = true
  <-> covers info t.
Proof. unfold covers. by rewrite andb_true_iff, !Qle_bool_iff. Qed.

Lemma get_subtitle_skip before rest t :
  Forall (fun i => ~ covers i t) before ->
  get_subtitle_at_time (before ++ rest) t = get_subtitle_at_time rest t.
Proof.
  induction 1 as [|info before Hinfo _ IH]; [reflexivity|].
  cbn [app get_subtitle_at_time].
  destruct (_ && _) eqn:E; [|exact IH].
  apply covers_test in E. contradiction.
Qed.

Lemma get_subtitle_hit info rest t :
  covers info t -> get_subtitle_at_time (info :: rest) t = Info.text info.
Proof.
  intros H. apply covers_test in H. cbn [get_subtitle_at_time].
  by rewrite H.
Qed.

(** C6.  [get_subtitle_at_time] returns the text of the first entry, in
    list order, with [start_time <= t <= end_time]; when no entry contains
    [t] it returns the empty string.  One of the two cases always
    applies. *)
Theorem get_subtitle_at_time_first_match timing_info t :
  (exists before info after,
      timing_info = before ++ info :: after
      /\ Forall (fun i => ~ covers i t) before
      /\ covers info t
      /\ get_subtitle_at_time timing_info t = Info.text info)
  \/ (Forall (fun i => ~ covers i t) timing_info
      /\ get_subtitle_at_time timing_info t = "").
Proof.
  induction timing_info as [|info rest IH].
  - right. split; [constructor | reflexivity].
  - destruct (Qle_bool (Info.start_time info) t
              && Qle_bool t (Info.end_time info)) eqn:E.
    + apply covers_test in E. left. exists [], info, rest.
      split; [reflexivity|]. split; [constructor|]. split; [exact E|].
      by apply get_subtitle_hit.
    + assert (Hno : ~ covers info t).
      { intros C. apply covers_test in C. congruence. }
      destruct IH as [(before & hit & after & -> & Hb & Hc & Ht) | [Hall Ht]].
      * left. exists (info :: before), hit, after.
        split; [reflexivity|]. split; [by constructor|]. split; [exact Hc|].
        cbn [get_subtitle_at_time]. by rewrite E.
      * right. split; [by constructor|].
        cbn [get_subtitle_at_time]. by rewrite E.
Qed.

Example subtitle_in_gap :
  get_subtitle_at_time
    [ Info.Make "first" 0 1 1 "s1"; Info.Make "second" 2 3 1 "s2" ] 1.5 = "".
Proof. reflexivity. Qed.

Example subtitle_first_of_two :
  get_subtitle_at_time
    [ Info.Make "first" 0 2 2 "s1"; Info.Make "second" 1 3 2 "s2" ] 1.5
  = "first".
Proof. reflexivity. Qed.

(** ** The boundary between two segments *)

Lemma find_scene_skip all before rest t :
  Forall (fun s => (Seg.end_time s <= t)%Q) before ->
  find_scene all (before ++ rest) t = find_scene all rest t.
Proof.
  induction 1 as [|s before Hs _ IH]; [reflexivity|].
  cbn [app find_scene]. apply Qltb_false in Hs. rewrite Hs, andb_false_r.
  exact IH.
Qed.

Lemma find_scene_hit all s rest t :
  s ∈ all -> (Seg.start_time s <= t)%Q -> (t < Seg.end_time s)%Q ->
  exists scene_start scene_end,
    find_scene all (s :: rest) t
    = Some (SceneInfo (Seg.scene s) scene_start scene_end).
Proof.
  intros Hin H1 H2. cbn [find_scene].
  apply Qle_bool_iff in H1. apply Qltb_true in H2. rewrite H1, H2. cbn [andb].
  assert (Hf : s ∈ filter (fun seg => Seg.scene seg = Seg.scene s) all).
  { apply list_elem_of_filter. by split. }
  destruct (filter _ all) as [|x xs]; [by apply not_elem_of_nil in Hf|].
  cbn. eauto.
Qed.


(** ** The generated timeline *)

Lemma chunk_segments_scene i cur cd j chunks :
  Forall (fun s => Seg.scene s = i) (chunk_segments i cur cd j chunks).
Proof.
  revert j. induction chunks as [|c chunks IH]; intros j; cbn; constructor.
  - reflexivity.
  - apply IH.
Qed.

Lemma chunk_segments_head i cur cd j chunks s :
  head (chunk_segments i cur cd j chunks) = Some s ->
  Seg.start_time s = (cur + inject_Z j * cd)%Q.
Proof. destruct chunks; cbn; [discriminate|]. by intros [= <-]. Qed.

Lemma chunk_segments_tiles i cur cd j chunks :
  tiles (chunk_segments i cur cd j chunks).
Proof.
  revert j. induction chunks as [|c chunks IH]; intros j; [exact I|].
  cbn [chunk_segments]. specialize (IH (j + 1)).
  destruct chunks as [|c' chunks]; [exact I|].
  cbn [chunk_segments] in *. split; [reflexivity | exact IH].
Qed.

Lemma chunk_segments_bounds i cur cd j chunks :
  (0 <= cd)%Q ->
  Forall (fun s =>
            (cur + inject_Z j * cd <= Seg.start_time s)%Q
            /\ (Seg.start_time s <= Seg.end_time s)%Q
            /\ (Seg.end_time s
                <= cur + inject_Z (j + Z.of_nat (length chunks)) * cd)%Q)
    (chunk_segments i cur cd j chunks).
Proof.
  intros Hcd. revert j.
  induction chunks as [|c chunks IH]; intros j; [constructor|].
  cbn [chunk_segments length]. constructor.
  - cbn [Seg.start_time Seg.end_time].
    rewrite !inject_Z_plus.
    pose proof (inject_Z_nonneg (Z.of_nat (length chunks)) ltac:(lia)).
    replace (Z.of_nat (S (length chunks)))
      with (1 + Z.of_nat (length chunks)) by lia.
    rewrite !inject_Z_plus. change (inject_Z 1) with 1%Q.
    repeat split; nra.
  - eapply Forall_impl; [apply (IH (j + 1))|].
    intros s (H1 & H2 & H3).
    replace (j + Z.of_nat (S (length chunks)))
      with (j + 1 + Z.of_nat (length chunks)) by lia.
    rewrite inject_Z_plus in H1. change (inject_Z 1) with 1%Q in H1.
    repeat split; [nra | exact H2 | exact H3].
Qed.

Lemma chunk_segments_last i cur cd j chunks s :
  last (chunk_segments i cur cd j chunks) = Some s ->
  (Seg.end_time s == cur + inject_Z (j + Z.of_nat (length chunks)) * cd)%Q.
Proof.
  revert j. induction chunks as [|c chunks IH]; intros j; [discriminate|].
  cbn [chunk_segments]. destruct chunks as [|c' chunks].
  - cbn [last chunk_segments length]. intros [= <-].
    cbn [Seg.end_time]. change (Z.of_nat 1) with 1. reflexivity.
  - cbn [chunk_segments] in *. rewrite last_cons_cons. intros H.
    rewrite (IH (j + 1) H). cbn [length].
    replace (j + 1 + Z.of_nat (S (length chunks)))
      with (j + Z.of_nat (S (S (length chunks)))) by lia.
    reflexivity.
Qed.

Lemma chunk_segments_sorted i cur cd j chunks :
  (0 <= cd)%Q -> starts_nondecreasing (chunk_segments i cur cd j chunks).
Proof.
  intros Hcd. revert j.
  induction chunks as [|c chunks IH]; intros j; [constructor|].
  cbn [chunk_segments]. apply StronglySorted_cons. split; [|apply IH].
  eapply Forall_impl;
    [apply (chunk_segments_bounds i cur cd (j + 1)); exact Hcd|].
  intros s (H1 & _). cbn [Seg.start_time].
  rewrite inject_Z_plus in H1. change (inject_Z 1) with 1%Q in H1. nra.
Qed.

Lemma chunk_segments_ends_sorted i cur cd j chunks :
  (0 <= cd)%Q -> ends_nondecreasing (chunk_segments i cur cd j chunks).
Proof.
  intros Hcd. revert j.
  induction chunks as [|c chunks IH]; intros j; [constructor|].
  cbn [chunk_segments]. apply StronglySorted_cons. split; [|apply IH].
  eapply Forall_impl;
    [apply (chunk_segments_bounds i cur cd (j + 1)); exact Hcd|].
  intros s (H1 & H2 & _). cbn [Seg.end_time]. lra.
Qed.

Lemma chunk_segments_spans i cur cd j chunks :
  (0 <= cd)%Q -> spans (chunk_segments i cur cd j chunks).
Proof.
  intros Hcd first final Hfirst Hfinal.
  apply chunk_segments_head in Hfirst. apply chunk_segments_last in Hfinal.
  eapply Forall_impl;
    [apply (chunk_segments_bounds i cur cd j); exact Hcd|].
  intros s (H1 & H2 & H3). rewrite Hfirst, Hfinal. split; [exact H1 | exact H3].
Qed.

Lemma chunk_duration_nonneg d chunks :
  (0 <= d)%Q -> (0 <= chunk_duration_for d chunks)%Q.
Proof.
  intros Hd. destruct chunks as [|c chunks]; [exact Hd|].
  unfold chunk_duration_for. apply Qle_shift_div_l.
  - change 0%Q with (inject_Z 0). rewrite <- Zlt_Qlt. cbn [length]. lia.
  - lra.
Qed.

Lemma chunk_duration_total d chunks :
  chunks <> [] ->
  (inject_Z (Z.of_nat (length chunks)) * chunk_duration_for d chunks == d)%Q.
Proof.
  intros Hne. destruct chunks as [|c chunks]; [done|].
  unfold chunk_duration_for. field.
  intros C. unfold Qeq in C. cbn [Qnum Qden inject_Z length] in C. lia.
Qed.

Lemma chunk_duration_below d chunks :
  (0 <= d)%Q ->
  (inject_Z (Z.of_nat (length chunks)) * chunk_duration_for d chunks <= d)%Q.
Proof.
  intros Hd. destruct chunks as [|c chunks].
  - change (inject_Z (Z.of_nat (@length string []))) with 0%Q.
    unfold chunk_duration_for. lra.
  - rewrite chunk_duration_total; [lra | done].
Qed.

Section GenerateProperties.

Variable sub_punctuation : string -> string.
Variable audio_duration : string -> option Q.
Hypothesis durations_nonneg :
  forall path d, audio_duration path = Some d -> (0 <= d)%Q.

#[local] Abbreviation loop := (scene_loop sub_punctuation audio_duration).
#[local] Abbreviation chunks_of caption :=
  (split_into_chunks (remove_punctuation sub_punctuation caption) 15).
#[local] Abbreviation duration_of := (scene_duration_of audio_duration).

Lemma scene_duration_nonneg path : (0 <= duration_of path)%Q.
Proof.
  unfold scene_duration_of. destruct (audio_duration path) eqn:E.
  - by eapply durations_nonneg.
  - lra.
Qed.

Lemma scene_loop_cons i cur caption audio_path rest :
  loop i cur ((caption, audio_path) :: rest)
  = (chunk_segments i cur
       (chunk_duration_for (duration_of audio_path) (chunks_of caption))
       0 (chunks_of caption)
       ++ (loop (i + 1) (cur + duration_of audio_path)%Q rest).1,
     (loop (i + 1) (cur + duration_of audio_path)%Q rest).2).
Proof.
  cbn [scene_loop].
  destruct (scene_loop _ _ (i + 1) _ rest) as [more total]. reflexivity.
Qed.

(** What holds of [scene_loop i cur scenes], for every scene number and
    start time. *)
Lemma scene_loop_invariant scenes : forall i cur,
  let segs := (loop i cur scenes).1 in
  let total := (loop i cur scenes).2 in
  (cur <= total)%Q
  /\ Forall (fun s => i <= Seg.scene s
                      /\ (cur <= Seg.start_time s)%Q
                      /\ (Seg.start_time s <= Seg.end_time s)%Q
                      /\ (Seg.end_time s <= total)%Q) segs
  /\ starts_nondecreasing segs
  /\ ends_nondecreasing segs
  /\ (forall n, scene_is_contiguous segs n)
  /\ (forall caption audio_path,
        last scenes = Some (caption, audio_path) ->
        chunks_of caption <> [] ->
        exists s, last segs = Some s /\ (Seg.end_time s == total)%Q).
Proof.
  induction scenes as [|[caption audio_path] rest IH]; intros i cur.
  - cbn. split; [lra|]. split; [constructor|].
    split; [constructor|]. split; [constructor|]. split.
    + intros n. exists [], [], []. repeat split; try constructor;
        try (intros ? ? [=]).
    + intros ? ? [=].
  - rewrite scene_loop_cons. cbn [fst snd].
    pose proof (scene_duration_nonneg audio_path) as Hd.
    set (d := duration_of audio_path) in *.
    set (chunks := chunks_of caption).
    pose proof (chunk_duration_nonneg d chunks Hd) as Hcd.
    pose proof (chunk_duration_below d chunks Hd) as Hbelow.
    set (cd := chunk_duration_for d chunks) in *.
    destruct (IH (i + 1) (cur + d)%Q)
      as (Ht & Hall & Hsorted & Hends & Hcontig & Hlast).
    set (more := (loop (i + 1) (cur + d)%Q rest).1) in *.
    set (total := (loop (i + 1) (cur + d)%Q rest).2) in *.
    pose proof (chunk_segments_bounds i cur cd 0 chunks Hcd) as Hb.
    pose proof (chunk_segments_scene i cur cd 0 chunks) as Hsc.
    set (segs := chunk_segments i cur cd 0 chunks) in *.
    assert (Hb' : Forall (fun s => (cur <= Seg.start_time s)%Q
                            /\ (Seg.start_time s <= Seg.end_time s)%Q
                            /\ (Seg.end_time s <= cur + d)%Q) segs).
    { eapply Forall_impl; [exact Hb|]. intros s (H1 & H2 & H3).
      change (0 + Z.of_nat (length chunks))
        with (Z.of_nat (length chunks)) in H3.
      change (inject_Z 0) with 0%Q in H1.
      repeat split; [lra | exact H2 | lra]. }
    split; [lra|]. split; [|split; [|split; [|split]]].
    + apply Forall_app. split.
      * rewrite Forall_forall in Hb', Hsc |- *. intros s Hs.
        destruct (Hb' s Hs) as (H1 & H2 & H3). rewrite (Hsc s Hs).
        repeat split; [lia | exact H1 | exact H2 | lra].
      * eapply Forall_impl; [exact Hall|]. intros s (H1 & H2 & H3 & H4).
        repeat split; [lia | lra | exact H3 | exact H4].
    + apply StronglySorted_app. split; [|split].
      * intros a b Ha Hb2.
        rewrite Forall_forall in Hb', Hall.
        destruct (Hb' a Ha) as (_ & A2 & A3).
        destruct (Hall b Hb2) as (_ & B2 & _). lra.
      * by apply chunk_segments_sorted.
      * exact Hsorted.
    + apply StronglySorted_app. split; [|split].
      * intros a b Ha Hb2.
        rewrite Forall_forall in Hb', Hall.
        destruct (Hb' a Ha) as (_ & A2 & A3).
        destruct (Hall b Hb2) as (_ & B2 & B3 & _). lra.
      * by apply chunk_segments_ends_sorted.
      * exact Hends.
    + intros n. destruct (decide (n = i)) as [->|Hne].
      * exists [], segs, more. repeat split.
        -- constructor.
        -- exact Hsc.
        -- eapply Forall_impl; [exact Hall|]. intros s (H1 & _). lia.
        -- apply chunk_segments_tiles.
        -- by apply chunk_segments_spans.
      * destruct (Hcontig n)
          as (before & mid & after & Heq & B & M & A & T & S).
        exists (segs ++ before), mid, after. rewrite Heq, <- app_assoc.
        repeat split; auto.
        apply Forall_app. split; [|exact B].
        eapply Forall_impl; [exact Hsc|]. intros s Hs. cbn in Hs. lia.
    + intros c a Hl Hne. destruct rest as [|next rest'].
      * cbn in Hl. injection Hl as -> ->.
        subst more total. cbn [scene_loop fst snd]. rewrite app_nil_r.
        fold chunks in Hne.
        destruct (last segs) as [s|] eqn:Es.
        -- exists s. split; [reflexivity|].
           rewrite (chunk_segments_last _ _ _ _ _ _ Es).
           change (0 + Z.of_nat (length chunks))
             with (Z.of_nat (length chunks)).
           subst cd. rewrite chunk_duration_total; [reflexivity | exact Hne].
        -- apply last_None in Es. subst segs. destruct chunks; [done|].
           discriminate Es.
      * rewrite last_cons_cons in Hl.
        destruct (Hlast c a Hl Hne) as (s & Hs & He).
        exists s. split; [|exact He].
        rewrite last_app, Hs. reflexivity.
Qed.

Lemma scene_loop_total scenes : forall i cur,
  ((loop i cur scenes).2
   == cur + foldr Qplus 0 (map (fun ca => duration_of ca.2) scenes))%Q.
Proof.
  induction scenes as [|[caption audio_path] rest IH]; intros i cur.
  - cbn. ring.
  - rewrite scene_loop_cons. cbn [fst snd map foldr]. rewrite IH. ring.
Qed.


(** The timelines of the generator meet the side condition of the frame
    count: their end times do not decrease. *)
Lemma generated_ends_nondecreasing captions_list audio_files_list :
  ends_nondecreasing
    (generate_complete_rst_file sub_punctuation audio_duration
       captions_list audio_files_list).1.
Proof.
  unfold generate_complete_rst_file.
  by destruct (scene_loop_invariant (zip captions_list audio_files_list) 1
                 0.0%Q) as (_ & _ & _ & He & _).
Qed.

End GenerateProperties.


Example generated_two_scenes :
  (generate_complete_rst_file Reference.sub_punctuation Reference.no_audio
     ["one, two; three four five six"; "hello"] ["a.wav"; "b.wav"]).1
  = [ Seg.Make 1 1 "one two three" (0.0 + inject_Z 0 * (3.0 / inject_Z 2))
        (0.0 + inject_Z (0 + 1) * (3.0 / inject_Z 2)) (3.0 / inject_Z 2);
      Seg.Make 1 2 "four five six"
        (0.0 + inject_Z (0 + 1) * (3.0 / inject_Z 2))
        (0.0 + inject_Z (0 + 1 + 1) * (3.0 / inject_Z 2)) (3.0 / inject_Z 2);
      Seg.Make 2 1 "hello" (0.0 + 3.0 + inject_Z 0 * (3.0 / inject_Z 1))
        (0.0 + 3.0 + inject_Z (0 + 1) * (3.0 / inject_Z 1))
        (3.0 / inject_Z 1) ].
Proof. vm_compute. reflexivity. Qed.

(** ** Frame batches *)

Lemma batch_info_indices total bs fps i :
  map fst (batch_info_of total bs fps i)
  = seqZ i (Z.min (i + bs) total - i).
Proof.
  unfold batch_info_of. rewrite map_map. cbn [fst]. apply map_id.
Qed.

Lemma batches_prefix total bs (m : nat) :
  0 < bs ->
  concat (map (fun k => seqZ (0 + k * bs)
                          (Z.min (0 + k * bs + bs) total - (0 + k * bs)))
              (seqZ 0 (Z.of_nat m)))
  = seqZ 0 (Z.min (Z.of_nat m * bs) (Z.max 0 total)).
Proof.
  intros Hbs. induction m as [|m IH].
  - rewrite !seqZ_nil by lia. reflexivity.
  - rewrite seqZ_S, map_app, concat_app, IH. cbn [map concat].
    rewrite app_nil_r.
    destruct (Z.le_gt_cases total (Z.of_nat m * bs)) as [Hdone | Hmore].
    + rewrite (seqZ_nil (0 + _)) by lia. rewrite app_nil_r. f_equal. nia.
    + replace (Z.min (Z.of_nat (S m) * bs) (Z.max 0 total))
        with (Z.min (Z.of_nat m * bs) (Z.max 0 total)
              + (Z.min (0 + (0 + Z.of_nat m) * bs + bs) total
                 - (0 + (0 + Z.of_nat m) * bs))) by nia.
      rewrite seqZ_app by nia. f_equal. f_equal. nia.
Qed.

Lemma frame_batches_cover total bs fps :
  0 < bs ->
  concat (map (map fst) (frame_batches total bs fps)) = seqZ 0 total.
Proof.
  intros Hbs. unfold frame_batches, py_range.
  rewrite !map_map.
  erewrite map_ext; [|intros k; apply batch_info_indices].
  set (n := (total - 0 + bs - 1) / bs).
  destruct (Z.le_gt_cases n 0) as [Hn | Hn].
  - rewrite (seqZ_nil 0 n) by exact Hn. cbn.
    rewrite seqZ_nil; [reflexivity|].
    subst n. apply Z.nlt_ge. intros C.
    assert (0 < (total - 0 + bs - 1) / bs); [|lia].
    apply Z.div_str_pos. lia.
  - rewrite <- (Z2Nat.id n) by lia. rewrite batches_prefix by exact Hbs.
    rewrite Z2Nat.id by lia. f_equal.
    assert (total <= n * bs).
    { subst n.
      pose proof (Z.mul_succ_div_gt (total - 0 + bs - 1) bs Hbs). lia. }
    assert (0 < total).
    { apply Z.nle_gt. intros C.
      assert ((total - 0 + bs - 1) / bs < 1); [|subst n; lia].
      apply Z.div_lt_upper_bound; lia. }
    lia.
Qed.

Lemma batch_size_positive total_frames max_workers :
  0 < batch_size total_frames max_workers.
Proof. unfold batch_size. lia. Qed.

Lemma py_max_from_spec xs : forall m,
  (m <= py_max_from m xs)%Q
  /\ Forall (fun x => (x <= py_max_from m xs)%Q) xs
  /\ (py_max_from m xs = m \/ py_max_from m xs ∈ xs).
Proof.
  induction xs as [|x xs IH]; intros m; cbn [py_max_from].
  - split; [lra|]. split; [constructor | by left].
  - destruct (Qltb m x) eqn:E.
    + apply Qltb_true in E. destruct (IH x) as (H1 & H2 & H3).
      split; [lra|]. split; [by constructor|].
      right. destruct H3 as [-> | H3]; [left | by right].
    + apply Qltb_false in E. destruct (IH m) as (H1 & H2 & H3).
      split; [exact H1|]. split; [constructor; [lra | exact H2]|].
      destruct H3 as [-> | H3]; [by left | right; by right].
Qed.

Lemma total_duration_is_last_end segs s :
  ends_nondecreasing segs -> last segs = Some s ->
  (total_duration segs == Seg.end_time s)%Q.
Proof.
  intros Hsorted Hlast.
  assert (Hle : Forall (fun x => (Seg.end_time x <= Seg.end_time s)%Q) segs).
  { apply last_Some in Hlast as [l' ->].
    apply StronglySorted_app in Hsorted as (Hcross & _ & _).
    apply Forall_app. split.
    - apply Forall_forall. intros x Hx. apply (Hcross x s Hx).
      apply elem_of_cons. by left.
    - repeat constructor. lra. }
  assert (Hin : s ∈ segs) by (by apply last_Some_elem_of).
  destruct segs as [|a segs]; [by apply not_elem_of_nil in Hin|].
  unfold total_duration.
  destruct (py_max_from_spec (map Seg.end_time segs) (Seg.end_time a))
    as (H1 & H2 & H3).
  set (r := py_max_from _ _) in *.
  apply Qle_antisym.
  - destruct H3 as [-> | H3].
    + by apply Forall_cons in Hle as [Ha _].
    + apply list_elem_of_fmap in H3 as (x & -> & Hx).
      apply Forall_cons in Hle as [_ Hle].
      rewrite Forall_forall in Hle. by apply Hle.
  - apply elem_of_cons in Hin as [-> | Hin]; [exact H1|].
    rewrite Forall_forall in H2. apply H2.
    apply list_elem_of_fmap. by exists s.
Qed.

Lemma py_int_floor x :
  (0 <= x)%Q -> (inject_Z (py_int x) <= x)%Q /\ (x < inject_Z (py_int x + 1))%Q.
Proof.
  intros H. unfold py_int. apply Qle_bool_iff in H. rewrite H.
  split; [apply Qfloor_le | apply Qlt_floor].
Qed.



Example batches_of_75_frames :
  map (map fst) (frame_batches 75 (batch_size 75 (max_workers 4)) 25)
  = [seqZ 0 30; seqZ 30 30; seqZ 60 15].
Proof. reflexivity. Qed.

(** ** Collecting the batches *)

Lemma insert_frames_lookup (fs : list (Z * image)) :
  forall (m : gmap Z image) i,
  is_Some (foldl (fun m '(frame_idx, frame) => <[frame_idx := frame]> m) m fs
             !! i)
  <-> is_Some (m !! i) \/ i ∈ map fst fs.
Proof.
  induction fs as [|[j f] fs IH]; intros m i; cbn [foldl map fst].
  - rewrite elem_of_nil. tauto.
  - rewrite IH, elem_of_cons, lookup_insert_is_Some. 
    destruct (decide (j = i)) as [->|Hne]; intuition congruence.
Qed.

Lemma collect_batches_frames completed :
  forall (frames : gmap Z image) n i,
  is_Some ((collect_batches completed frames n).1 !! i)
  <-> is_Some (frames !! i)
      \/ exists batch_idx fs,
           (batch_idx, Returned fs) ∈ completed /\ i ∈ map fst fs.
Proof.
  induction completed as [|[idx [fs|]] rest IH]; intros frames n i;
    cbn [collect_batches].
  - cbn [fst]. split; [by left|]. intros [H | (? & ? & H & _)]; [exact H|].
    by apply not_elem_of_nil in H.
  - specialize
      (IH (foldl (fun m '(frame_idx, frame) => <[frame_idx := frame]> m)
             frames fs) (n + 1) i).
    destruct (collect_batches rest _ (n + 1)) as [m printed]. cbn [fst] in *.
    rewrite IH, insert_frames_lookup. split.
    + intros [[H | H] | (b & fs' & H & Hi)].
      * by left.
      * right. exists idx, fs. split; [left | exact H].
      * right. exists b, fs'. split; [by right | exact Hi].
    + intros [H | (b & fs' & H & Hi)]; [by left; left|].
      apply elem_of_cons in H as [[= -> ->] | H].
      * left. by right.
      * right. by exists b, fs'.
  - specialize (IH frames n i).
    destruct (collect_batches rest frames n) as [m printed]. cbn [fst] in *.
    rewrite IH. split.
    + intros [H | (b & fs' & H & Hi)]; [by left|].
      right. exists b, fs'. split; [by right | exact Hi].
    + intros [H | (b & fs' & H & Hi)]; [by left|].
      apply elem_of_cons in H as [[=] | H].
      right. by exists b, fs'.
Qed.

Lemma collect_batches_failed completed :
  forall (frames : gmap Z image) n batch_idx,
  (batch_idx, Raised) ∈ completed ->
  BatchFailed batch_idx ∈ (collect_batches completed frames n).2.
Proof.
  induction completed as [|[idx [fs|]] rest IH]; intros frames n b Hin;
    cbn [collect_batches].
  - by apply not_elem_of_nil in Hin.
  - apply elem_of_cons in Hin as [[=] | Hin].
    specialize
      (IH (foldl (fun m '(frame_idx, frame) => <[frame_idx := frame]> m)
             frames fs) (n + 1) b Hin).
    destruct (collect_batches rest _ (n + 1)) as [m printed]. cbn [snd] in *.
    by right.
  - apply elem_of_cons in Hin as [[= ->] | Hin].
    + destruct (collect_batches rest frames n) as [m printed]. cbn [snd]. left.
    + specialize (IH frames n b Hin).
      destruct (collect_batches rest frames n) as [m printed]. cbn [snd] in *.
      by right.
Qed.

(** C4, amended.  Whatever the batches do, the run ends by handing the
    clip to the encoder.  A batch that raises is reported on the console
    by its index; the frame buffer then holds exactly the indices of the
    batches that returned, and [make_frame] answers a timestamp whose
    index is missing with an all-black frame of the output size. *)
Theorem failed_batch_gives_black_frames
  shot all_segments fps width height completed voice_clips bg_music :
  let run :=
    render_and_write shot all_segments fps width height completed
      voice_clips bg_music in
  let frames := run.1 in
  (exists path with_audio,
      last run.2
      = Some (WriteVideofile path (total_duration all_segments)
                (make_frame frames fps width height) with_audio))
  /\ (forall batch_idx,
        (batch_idx, Raised) ∈ completed -> BatchFailed batch_idx ∈ run.2)
  /\ (forall i,
        is_Some (frames !! i)
        <-> exists batch_idx fs,
              (batch_idx, Returned fs) ∈ completed /\ i ∈ map fst fs)
  /\ (forall t,
        frames !! py_int (t * inject_Z fps) = None ->
        make_frame frames fps width height t = np_zeros height width).
Proof.
  intros run frames. subst frames run. unfold render_and_write.
  pose proof (collect_batches_frames completed ∅ 0) as Hframes.
  pose proof (collect_batches_failed completed ∅ 0) as Hfailed.
  destruct (collect_batches completed ∅ 0) as [frames printed].
  cbn [fst snd] in *. split; [|split; [|split]].
  - destruct (negb _ || _); eexists _, _; apply last_snoc.
  - intros b Hb. apply elem_of_app. left. by apply Hfailed.
  - intros i. rewrite Hframes, lookup_empty. split.
    + intros [[? [=]] | H]; exact H.
    + intros H. by right.
  - intros t Ht. unfold make_frame. by rewrite Ht.
Qed.

(** C4 as stated fails: when the only batch of a 30-frame run raises, no
    index has a frame, and the video file is written all the same. *)
Lemma failed_batch_still_writes_video :
  let all_segments := [Seg.Make 1 1 "hello" 0 3 3] in
  let F := total_frames (total_duration all_segments) 10 in
  let run :=
    render_and_write "shot_02" all_segments 10 4 4 [(0, Raised)] [] None in
  frame_batches F (batch_size F (max_workers 4)) 10 <> []
  /\ (forall i, 0 <= i < F -> run.1 !! i = None)
  /\ exists duration make_frame,
       run.2 = [ BatchFailed 0;
                 WriteVideofile "videos/shot_02_complete_video.mp4"
                   duration make_frame false ].
Proof.
  split; [discriminate|]. split.
  - intros i _. apply lookup_empty.
  - eexists _, _. reflexivity.
Qed.

Lemma Qle_bool_false a b : Qle_bool a b = false <-> (b < a)%Q.
Proof.
  split.
  - intros H. apply Qnot_le_lt. intros C. apply Qle_bool_iff in C. congruence.
  - intros H. destruct (Qle_bool a b) eqn:E; [|reflexivity].
    apply Qle_bool_iff in E. lra.
Qed.

(** ** Looping the background music *)

Lemma concat_end_replicate c (n : nat) : forall start,
  (concat_end start (replicate n c)
   == start + inject_Z (Z.of_nat n) * Clip.duration c)%Q.
Proof.
  induction n as [|n IH]; intros start.
  - cbn [replicate concat_end]. change (inject_Z (Z.of_nat 0)) with 0%Q. ring.
  - cbn [replicate concat_end]. rewrite IH.
    rewrite Nat2Z.inj_succ. unfold Z.succ. rewrite inject_Z_plus.
    change (inject_Z 1) with 1%Q. ring.
Qed.

Lemma concat_frame_early c (n : nat) : forall start t,
  (0 <= Clip.duration c)%Q -> (t < start)%Q ->
  (concat_frame start (replicate n c) t == 0)%Q.
Proof.
  induction n as [|n IH]; intros start t Hd Ht; cbn [replicate concat_frame].
  - reflexivity.
  - apply Qle_bool_false in Ht. rewrite Ht. cbn [andb].
    rewrite IH; [ring | exact Hd |]. apply Qle_bool_false in Ht. lra.
Qed.

Lemma concat_frame_replicate c (n : nat) : forall start t,
  (0 < Clip.duration c)%Q -> (start <= t)%Q ->
  (t < start + inject_Z (Z.of_nat n) * Clip.duration c)%Q ->
  exists k s,
    0 <= k < Z.of_nat n
    /\ (s == start + inject_Z k * Clip.duration c)%Q
    /\ (s <= t)%Q /\ (t < s + Clip.duration c)%Q
    /\ (concat_frame start (replicate n c) t == Clip.get_frame c (t - s))%Q.
Proof.
  induction n as [|n IH]; intros start t Hd Hs Ht.
  - change (inject_Z (Z.of_nat 0)) with 0%Q in Ht. lra.
  - cbn [replicate concat_frame].
    destruct (Qltb t (start + Clip.duration c)) eqn:E.
    + apply Qltb_true in E. exists 0, start.
      split; [lia|]. split; [change (inject_Z 0) with 0%Q; ring|].
      split; [exact Hs|]. split; [exact E|].
      apply Qle_bool_iff in Hs. rewrite Hs. cbn [andb].
      rewrite concat_frame_early; [ring | lra | exact E].
    + apply Qltb_false in E. rewrite andb_false_r.
      destruct (IH (start + Clip.duration c)%Q t Hd E)
        as (k & s & Hk & Hsk & H1 & H2 & Hf).
      { rewrite Nat2Z.inj_succ in Ht. unfold Z.succ in Ht.
        rewrite inject_Z_plus in Ht. change (inject_Z 1) with 1%Q in Ht. lra. }
      exists (k + 1), s. split; [lia|]. split.
      { rewrite Hsk, inject_Z_plus. change (inject_Z 1) with 1%Q. ring. }
      split; [exact H1|]. split; [exact H2|]. rewrite Hf. ring.
Qed.

Lemma loops_needed_bounds d total :
  (0 < d)%Q -> (d < total)%Q ->
  let loops_needed := Qceiling (total / d) in
  2 <= loops_needed
  /\ (total <= inject_Z loops_needed * d)%Q
  /\ (inject_Z (loops_needed - 1) * d < total)%Q.
Proof.
  intros Hd Ht loops_needed.
  pose proof (Qle_ceiling (total / d)) as Hup.
  pose proof (Qceiling_lt (total / d)) as Hlow.
  fold loops_needed in Hup, Hlow.
  assert (Heq : (total / d * d == total)%Q) by (field; lra).
  assert (H1 : (total <= inject_Z loops_needed * d)%Q).
  { rewrite <- Heq at 1. apply Qmult_le_compat_r; [exact Hup | lra]. }
  assert (H2 : (inject_Z (loops_needed - 1) * d < total)%Q).
  { rewrite <- Heq at 1. apply Qmult_lt_compat_r; [exact Hd | exact Hlow]. }
  split; [|split; [exact H1 | exact H2]].
  assert (1 < total / d)%Q.
  { apply Qlt_shift_div_l; [exact Hd | lra]. }
  assert (inject_Z 1 < inject_Z loops_needed)%Q
    by (change (inject_Z 1) with 1%Q; lra).
  rewrite <- Zlt_Qlt in H0. lia.
Qed.

Lemma looped_and_cut c total :
  (0 < Clip.duration c)%Q -> (Clip.duration c < total)%Q ->
  let loops_needed := Qceiling (total / Clip.duration c) in
  exists out,
    subclipped (concatenate_audioclips (replicate (Z.to_nat loops_needed) c))
      0 total = Some out
    /\ (Clip.duration out == total)%Q
    /\ forall t, (0 <= t)%Q -> (t < total)%Q ->
         exists k t',
           0 <= k < loops_needed
           /\ (t' == t - inject_Z k * Clip.duration c)%Q
           /\ (0 <= t')%Q /\ (t' < Clip.duration c)%Q
           /\ (Clip.get_frame out t == Clip.get_frame c t')%Q.
Proof.
  intros Hd Ht loops_needed.
  destruct (loops_needed_bounds _ _ Hd Ht) as (Hn & Hup & Hlow).
  fold loops_needed in Hn, Hup, Hlow.
  pose proof (concat_end_replicate c (Z.to_nat loops_needed) 0) as Hend.
  rewrite Z2Nat.id in Hend by lia.
  unfold subclipped, concatenate_audioclips. cbn [Clip.duration].
  assert (E1 : Qle_bool (concat_end 0 (replicate (Z.to_nat loops_needed) c)) 0
               = false).
  { apply Qle_bool_false. rewrite Hend. lra. }
  assert (E2 : Qltb (concat_end 0 (replicate (Z.to_nat loops_needed) c)) total
               = false).
  { apply Qltb_false. rewrite Hend. lra. }
  rewrite E1, E2. eexists. split; [reflexivity|].
  cbn [Clip.duration Clip.get_frame].
  split; [ring|]. intros t Ht0 Ht1.
  destruct (concat_frame_replicate c (Z.to_nat loops_needed) 0 (t + 0) Hd)
    as (k & s & Hk & Hs & H1 & H2 & Hf).
  { lra. }
  { rewrite Z2Nat.id by lia. lra. }
  rewrite Z2Nat.id in Hk by lia.
  exists k, (t + 0 - s)%Q. split; [exact Hk|]. split; [rewrite Hs; ring|].
  split; [lra|]. split; [lra | exact Hf].
Qed.

Lemma Qeq_bool_false_pos d : (0 < d)%Q -> Qeq_bool d 0 = false.
Proof.
  intros Hd. destruct (Qeq_bool d 0) eqn:E; [|reflexivity].
  apply Qeq_bool_iff in E. lra.
Qed.


Example two_seconds_looped_to_seven :
  Qceiling (7.0 / Clip.duration Reference.two_second_clip) = 4
  /\ exists bg_music,
       process_background_music (Some Reference.two_second_clip) 7.0
       = Some bg_music
       /\ (Clip.duration bg_music == 7.0)%Q
       /\ (Clip.get_frame bg_music 1.5 == 0.3 * 2.5)%Q
       /\ (Clip.get_frame bg_music 2.0 == 0.3 * 1.0)%Q
       /\ (Clip.get_frame bg_music 6.5 == 0.3 * 1.5)%Q.
Proof.
  split; [reflexivity|]. eexists. split; [reflexivity|].
  repeat split; vm_compute; reflexivity.
Qed.

(** ** Missing pictures *)

Lemma np_zeros_is_image h w : 0 < h -> 0 < w -> is_image (np_zeros h w).
Proof.
  intros Hh Hw. exists h, w. split; [exact Hh|]. split; [exact Hw|].
  apply np_zeros_shape; lia.
Qed.

Lemma py_slice_black (l : list pixel) s e :
  Forall (fun p => p = black) l -> Forall (fun p => p = black) (py_slice l s e).
Proof. apply Forall_py_slice. Qed.

Lemma crop_black img sy sx h w :
  all_black img -> all_black (crop img sy sx h w).
Proof.
  intros H. unfold crop, all_black. apply Forall_map, Forall_py_slice.
  eapply Forall_impl; [exact H|]. intros row Hrow. by apply py_slice_black.
Qed.

Lemma paste_rows_black rows sx src :
  all_black rows -> all_black src -> all_black (paste_rows rows sx src).
Proof.
  unfold all_black. intros Hrows. revert src.
  induction Hrows as [|row rows Hrow Hrows IH]; intros src Hsrc;
    [cbn; constructor|].
  destruct Hsrc as [|s src Hs Hsrc]; cbn [paste_rows].
  - by constructor.
  - constructor; [|by apply IH]. unfold paste_row.
    apply Forall_app. split; [by apply Forall_take|].
    apply Forall_app. split; [exact Hs | by apply Forall_drop].
Qed.

Lemma paste_black canvas sy sx h w src out :
  all_black canvas -> all_black src ->
  paste canvas sy sx h w src = Some out -> all_black out.
Proof.
  intros Hc Hs. unfold paste. destruct (_ && _); [|discriminate].
  intros [= <-]. apply Forall_app. split; [by apply Forall_take|].
  apply paste_rows_black; [by apply Forall_drop | exact Hs].
Qed.

Section MissingImage.

Variable cv2_imread : string -> option image.
Variable cv2_resize : image -> Z -> Z -> option image.
Variable affine : Type.
Variable cv2_getRotationMatrix2D : Z * Z -> Q -> Q -> affine.
Variable cv2_warpAffine : image -> affine -> Z -> Z -> option image.
Variables math_sin math_cos : Q -> Q.
Variable math_pi : Q.
Variable text_width : string -> string -> Z -> Z.
Variable draw_text : image -> Z * Z -> string -> string -> Z -> pixel -> image.

Hypothesis cv2_resize_shape : resize_contract cv2_resize.
Hypothesis cv2_resize_black : resize_keeps_black cv2_resize.
Hypothesis cv2_warpAffine_shape : warp_contract cv2_warpAffine.
Hypothesis cv2_warpAffine_black : warp_keeps_black cv2_warpAffine.

#[local] Abbreviation kb_effect :=
  (apply_ken_burns_effect cv2_resize affine cv2_getRotationMatrix2D
     cv2_warpAffine math_sin math_cos math_pi).

Lemma resize_and_crop_black img win w h out :
  all_black img -> resize_and_crop cv2_resize img win w h = Some out ->
  all_black out.
Proof.
  intros Hb. unfold resize_and_crop.
  destruct (cv2_resize img _ _) as [zoomed|] eqn:E; [|discriminate].
  cbn. intros [= <-]. apply crop_black. by eapply cv2_resize_black.
Qed.

Lemma apply_rotate_zoom_black img p w h out :
  all_black img ->
  apply_rotate_zoom cv2_resize affine cv2_getRotationMatrix2D cv2_warpAffine
    math_sin math_pi img p w h = Some out ->
  all_black out.
Proof.
  intros Hb. unfold apply_rotate_zoom.
  destruct (cv2_resize img _ _) as [zoomed|] eqn:E; [|discriminate].
  cbn [mbind option_bind].
  destruct (paste _ _ _ _ _ zoomed) as [canvas|] eqn:Ep; [|discriminate].
  cbn [mbind option_bind].
  destruct (cv2_warpAffine canvas _ _ _) as [rotated|] eqn:Ew; [|discriminate].
  cbn [mbind option_bind]. intros [= <-]. apply crop_black.
  eapply cv2_warpAffine_black; [|exact Ew].
  eapply paste_black; [apply np_zeros_black | | exact Ep].
  by eapply cv2_resize_black.
Qed.

Lemma apply_ken_burns_effect_black img progress effect_type w h out :
  all_black img -> kb_effect img progress effect_type w h = Some out ->
  all_black out.
Proof.
  intros Hb. unfold apply_ken_burns_effect.
  kind_cases effect_type;
  [ | | | | | | | | | | by apply apply_rotate_zoom_black | | ];
  by apply resize_and_crop_black.
Qed.

Lemma placeholder_frame progress effect_type w h :
  0 < w -> 0 < h ->
  exists frame,
    kb_effect (np_zeros h w) progress effect_type w h = Some frame
    /\ has_shape frame h w /\ all_black frame.
Proof.
  intros Hw Hh.
  destruct (ken_burns_reads_window cv2_resize affine cv2_getRotationMatrix2D
              cv2_warpAffine math_sin math_cos math_pi cv2_resize_shape
              cv2_warpAffine_shape (np_zeros h w) progress effect_type w h)
    as (buf & Hbuf & Heq); [by apply np_zeros_is_image | lia | lia |].
  destruct (ken_burns_window_bounds math_sin math_cos math_pi progress
              effect_type w h Hw Hh) as (Hx0 & Hx1 & Hy0 & Hy1).
  eexists. split; [exact Heq|]. split.
  - eapply crop_shape; eauto; lia.
  - eapply apply_ken_burns_effect_black; [|exact Heq]. apply np_zeros_black.
Qed.

Lemma find_scene_single_scene all t : forall rest,
  Forall (fun s => Seg.scene s = 1) all ->
  (forall s, s ∈ rest -> s ∈ all) ->
  exists info, find_scene all rest t = Some info /\ scene_number info = 1.
Proof.
  intros rest Hall. induction rest as [|s rest IH]; intros Hsub.
  - by eexists.
  - cbn [find_scene]. destruct (_ && _).
    + assert (Hs : s ∈ all) by (apply Hsub; left).
      assert (Hf : s ∈ filter (fun seg => Seg.scene seg = Seg.scene s) all).
      { apply list_elem_of_filter. by split. }
      destruct (filter _ all) as [|x xs]; [by apply not_elem_of_nil in Hf|].
      cbn. eexists. split; [reflexivity|]. cbn.
      rewrite Forall_forall in Hall. by apply Hall.
    + apply IH. intros x Hx. apply Hsub. by right.
Qed.

Lemma get_cached_image_placeholder shot n w h st :
  cv2_imread (image_path_of shot n) = None ->
  placeholder_or_absent st (image_path_of shot n) w h ->
  exists st',
    get_cached_image cv2_imread cv2_resize shot n w h st
    = Some (np_zeros h w, st')
    /\ placeholder_or_absent st' (image_path_of shot n) w h
    /\ (image_cache st !! image_path_of shot n = None ->
        st' = RenderState
                (<[image_path_of shot n := np_zeros h w]> (image_cache st))
                (console st ++ [WarnImageLoad (image_path_of shot n)]))
    /\ (is_Some (image_cache st !! image_path_of shot n) -> st' = st).
Proof.
  intros Hread Hinv. unfold get_cached_image.
  destruct (image_cache st !! image_path_of shot n) as [img|] eqn:E.
  - rewrite (Hinv img E). exists st. split; [reflexivity|].
    split; [exact Hinv|]. split; [discriminate | reflexivity].
  - rewrite Hread. cbn [mbind option_bind]. eexists. split; [reflexivity|].
    split; [|split; [reflexivity | by intros [? [=]]]].
    intros img. cbn [image_cache]. rewrite lookup_insert_eq. by intros [= <-].
Qed.

#[local] Abbreviation scene_frame :=
  (render_scene_frame cv2_imread cv2_resize affine cv2_getRotationMatrix2D
     cv2_warpAffine math_sin math_cos math_pi).
#[local] Abbreviation frame_batch :=
  (render_frame_batch cv2_imread cv2_resize affine cv2_getRotationMatrix2D
     cv2_warpAffine math_sin math_cos math_pi text_width draw_text).
#[local] Abbreviation overlay :=
  (create_subtitle_overlay_from_rst text_width draw_text).

Lemma render_scene_frame_placeholder all_segments w h shot t st :
  0 < w -> 0 < h ->
  Forall (fun s => Seg.scene s = 1) all_segments ->
  cv2_imread (image_path_of shot 1) = None ->
  placeholder_or_absent st (image_path_of shot 1) w h ->
  exists frame st',
    scene_frame all_segments w h shot t st = Some (frame, st')
    /\ has_shape frame h w /\ all_black frame
    /\ placeholder_or_absent st' (image_path_of shot 1) w h.
Proof.
  intros Hw Hh Hall Hread Hinv. unfold render_scene_frame.
  destruct (find_scene_single_scene all_segments t all_segments Hall)
    as (info & -> & Hn); [auto|].
  cbn [mbind option_bind]. rewrite Hn.
  destruct (get_cached_image_placeholder shot 1 w h st Hread Hinv)
    as (st' & -> & Hinv' & _).
  cbn [mbind option_bind].
  change (effect_for_scene 1) with (Some KenBurnsEffect.ZOOM_IN).
  cbn [mbind option_bind].
  destruct (placeholder_frame (scene_progress_of info t)
              KenBurnsEffect.ZOOM_IN w h Hw Hh) as (frame & -> & Hs & Hb).
  cbn [mbind option_bind]. by exists frame, st'.
Qed.


End MissingImage.

(** ** The stand-ins meet the contracts *)

Lemma Reference_pixel_at_black img y x :
  all_black img -> Reference.pixel_at img y x = black.
Proof.
  intros Hb. unfold Reference.pixel_at.
  destruct (img !! Z.to_nat y) as [row|] eqn:Ey; [|reflexivity].
  cbn [mbind option_bind].
  destruct (row !! Z.to_nat x) as [p|] eqn:Ex; [|reflexivity].
  cbn [default from_option].
  unfold all_black in Hb. rewrite Forall_forall in Hb.
  specialize (Hb row (list_elem_of_lookup_2 _ _ _ Ey)).
  rewrite Forall_forall in Hb.
  exact (Hb p (list_elem_of_lookup_2 _ _ _ Ex)).
Qed.

Lemma Reference_resize_keeps_black : resize_keeps_black Reference.resize.
Proof.
  intros img w h out Hb. unfold Reference.resize.
  destruct (_ && _); [|discriminate]. intros [= <-].
  unfold all_black. apply Forall_map, Forall_forall. intros y _.
  apply Forall_map, Forall_forall. intros x _.
  by apply Reference_pixel_at_black.
Qed.

Lemma Reference_warp_keeps_black : warp_keeps_black Reference.warp.
Proof. intros src M w h out. apply Reference_resize_keeps_black. Qed.


(** ** Instances of the statements *)

Lemma crop_windows_in_bounds_witness :
  window_in_bounds
    (ken_burns_window Reference.sin Reference.cos Reference.pi 0.5
       KenBurnsEffect.SPIRAL 4 3) 4 3.
Proof.
  destruct (crop_windows_in_bounds Reference.resize unit
              Reference.rotation_matrix Reference.warp Reference.sin
              Reference.cos Reference.pi Reference_resize_contract
              Reference_warp_contract Reference.grey 0.5
              KenBurnsEffect.SPIRAL 4 3 Reference_grey_is_image)
    as (_ & Hwin & _); [lia | lia | discriminate | discriminate |].
  exact Hwin.
Defined.

Lemma pan_offsets_sweep_the_margin_witness :
  start_x (pan_left_window 0 100 100) = 20
  /\ start_x (pan_left_window 1 100 100) = 0
  /\ start_x (pan_right_window 0 100 100) = 0
  /\ start_x (pan_right_window 1 100 100) = 20.
Proof.
  destruct (pan_offsets_sweep_the_margin 100 100 0 1)
    as (_ & _ & _ & Hends & _); [lia | lia | discriminate |].
  exact Hends.
Defined.






Example boundary_frame_example :
  find_scene
    [Seg.Make 1 1 "first" 0 3 3; Seg.Make 2 1 "second" 3 6 3]
    [Seg.Make 1 1 "first" 0 3 3; Seg.Make 2 1 "second" 3 6 3] 3
  = Some (SceneInfo 2 3 6)
  /\ effect_for_scene 2 = Some KenBurnsEffect.PAN_LEFT
  /\ get_subtitle_at_time
       [Info.Make "first" 0 3 3 "s1"; Info.Make "second" 3 6 3 "s2"] 3
     = "first".
Proof. repeat split. Qed.

(** * Further properties *)

(** ** More on the effects *)

Lemma cube_monotone a b :
  (0 <= a)%Q -> (a <= b)%Q -> (a * a * a <= b * b * b)%Q.
Proof.
  intros Ha Hab.
  assert (a * a <= b * b)%Q by nra.
  assert (0 <= a * a)%Q by nra.
  nra.
Qed.


Lemma clamp_below p : (p <= 0)%Q -> Qmax 0.0 (Qmin 1.0 p) = 0.0%Q.
Proof.
  intros Hp. unfold Qmax, Qmin, GenericMinMax.gmax, GenericMinMax.gmin.
  destruct (Qcompare_spec 1.0 p) as [H|H|H]; try lra.
  destruct (Qcompare_spec 0.0 p) as [H'|H'|H']; try reflexivity. lra.
Qed.

Lemma clamp_above p : (1 <= p)%Q -> Qmax 0.0 (Qmin 1.0 p) = 1.0%Q.
Proof.
  intros Hp. unfold Qmax, Qmin, GenericMinMax.gmax, GenericMinMax.gmin.
  destruct (Qcompare_spec 1.0 p) as [H|H|H]; try reflexivity. lra.
Qed.

Lemma clamp_inside p :
  (0 < p)%Q -> (p < 1)%Q -> Qmax 0.0 (Qmin 1.0 p) = p.
Proof.
  intros H0 H1. unfold Qmax, Qmin, GenericMinMax.gmax, GenericMinMax.gmin.
  destruct (Qcompare_spec 1.0 p) as [H|H|H]; try lra.
  destruct (Qcompare_spec 0.0 p) as [H'|H'|H']; try reflexivity; lra.
Qed.

Section Dispatch.

Variable cv2_resize : image -> Z -> Z -> option image.
Variable affine : Type.
Variable cv2_getRotationMatrix2D : Z * Z -> Q -> Q -> affine.
Variable cv2_warpAffine : image -> affine -> Z -> Z -> option image.
Variables math_sin math_cos : Q -> Q.
Variable math_pi : Q.

(** X2.  A progress at or below 0 gives the frame of progress 0 and a
    progress at or above 1 gives the frame of progress 1, for every effect
    kind: [apply_ken_burns_effect] sees nothing of the progress outside
    [0, 1]. *)
Theorem progress_out_of_range_is_clamped
  img progress effect_type width height :
  let effect :=
    apply_ken_burns_effect cv2_resize affine cv2_getRotationMatrix2D
      cv2_warpAffine math_sin math_cos math_pi in
  ((progress <= 0)%Q ->
   effect img progress effect_type width height
   = effect img 0%Q effect_type width height)
  /\ ((1 <= progress)%Q ->
      effect img progress effect_type width height
      = effect img 1%Q effect_type width height).
Proof.
  cbv zeta. split.
  - intros Hp. unfold apply_ken_burns_effect.
    rewrite (clamp_below progress Hp), (clamp_below 0) by lra. reflexivity.
  - intros Hp. unfold apply_ken_burns_effect.
    rewrite (clamp_above progress Hp), (clamp_above 1) by lra. reflexivity.
Qed.

Lemma eqb_outside effect_type k :
  effect_type ∉ EFFECT_SEQUENCE -> k ∈ EFFECT_SEQUENCE ->
  String.eqb effect_type k = false.
Proof.
  intros Hnot Hin. apply String.eqb_neq. intros ->. by apply Hnot.
Qed.

(** X3.  An effect kind that is not one of the twelve names of
    [KenBurnsEffect] is rendered as [zoom_in], at every progress. *)
Theorem unknown_effect_is_zoom_in img progress effect_type width height :
  effect_type ∉ EFFECT_SEQUENCE ->
  let effect :=
    apply_ken_burns_effect cv2_resize affine cv2_getRotationMatrix2D
      cv2_warpAffine math_sin math_cos math_pi in
  effect img progress effect_type width height
  = effect img progress KenBurnsEffect.ZOOM_IN width height.
Proof.
  intros Hnot. cbv zeta. unfold apply_ken_burns_effect.
  rewrite !(eqb_outside effect_type _ Hnot)
    by (unfold EFFECT_SEQUENCE; repeat constructor).
  reflexivity.
Qed.

End Dispatch.


Lemma py_int_below_one x : (x < 1)%Q -> py_int x <= 0.
Proof.
  intros Hx. unfold py_int. destruct (Qle_bool 0 x) eqn:E.
  - pose proof (Qfloor_le x) as Hf.
    assert (inject_Z (Qfloor x) < inject_Z 1)%Q
      by (change (inject_Z 1) with 1%Q; lra).
    rewrite <- Zlt_Qlt in H. lia.
  - assert (Hneg : (x <= 0)%Q).
    { apply Qlt_le_weak, Qnot_le_lt. intros C. apply Qle_bool_iff in C.
      congruence. }
    pose proof (Qceiling_resp_le x 0 Hneg) as Hc.
    change (Qceiling 0) with 0 in Hc. exact Hc.
Qed.

Lemma py_int_gt_pred x : (0 <= x)%Q -> (x < inject_Z (py_int x) + 1)%Q.
Proof.
  intros Hx. unfold py_int. apply Qle_bool_iff in Hx. rewrite Hx.
  pose proof (Qlt_floor x) as H. rewrite inject_Z_plus in H.
  exact H.
Qed.

(** The pan of [zoom_pan_left] and [zoom_pan_up] before the clamp is
    below 1. *)
Lemma zoom_pan_back_offset_small n p :
  0 < n -> (0 <= p)%Q -> (p <= 1)%Q ->
  (inject_Z (py_int (inject_Z n * (1.0 + (1.25 - 1.0) * p)) - n) / 2
   - p * inject_Z (py_int (inject_Z n * 0.2)) < 1)%Q.
Proof.
  intros Hn Hp0 Hp1.
  pose proof (inject_Z_nonneg n ltac:(lia)) as Hqn.
  assert (Hone : (1 <= inject_Z n)%Q).
  { change 1%Q with (inject_Z 1). rewrite <- Zle_Qle. lia. }
  pose proof (py_int_le_self (inject_Z n * (1.0 + (1.25 - 1.0) * p))
                ltac:(nra)) as Hz.
  pose proof (py_int_gt_pred (inject_Z n * 0.2) ltac:(nra)) as Hpd.
  unfold Zminus. rewrite inject_Z_plus, inject_Z_opp.
  unfold Qdiv. change (/ 2)%Q with (1 # 2)%Q.
  set (z := inject_Z (py_int (inject_Z n * (1.0 + (1.25 - 1.0) * p)))) in *.
  set (d := inject_Z (py_int (inject_Z n * 0.2))) in *.
  nra.
Qed.

(** X5.  For a progress in [0, 1] the crop of [zoom_pan_left] starts at
    column 0 and the crop of [zoom_pan_up] at row 0: the pan of 20% of the
    dimension outruns half of the zoom margin (at most 12.5%), so the
    clamp of the last line pins the window to the left, respectively the
    upper, edge of the zoomed picture. *)
Theorem zoom_pan_left_and_up_stay_at_the_edge p width height :
  0 < width -> 0 < height -> (0 <= p)%Q -> (p <= 1)%Q ->
  start_x (zoom_pan_left_window p width height) = 0
  /\ start_y (zoom_pan_up_window p width height) = 0.
Proof.
  intros Hw Hh Hp0 Hp1.
  unfold zoom_pan_left_window, zoom_pan_up_window.
  cbn [start_x start_y].
  pose proof (zoom_pan_back_offset_small width p Hw Hp0 Hp1) as Hx.
  pose proof (zoom_pan_back_offset_small height p Hh Hp0 Hp1) as Hy.
  apply py_int_below_one in Hx. apply py_int_below_one in Hy.
  pose proof (zoomed_dim_ge width (1.0 + (1.25 - 1.0) * p)
                ltac:(lia) ltac:(lra)).
  pose proof (zoomed_dim_ge height (1.0 + (1.25 - 1.0) * p)
                ltac:(lia) ltac:(lra)).
  split; lia.
Qed.

(** The pan of [zoom_pan_right] and [zoom_pan_down] before the clamp is
    beyond the margin for a dimension of 14 or more. *)
Lemma zoom_pan_forth_offset_large n p :
  14 <= n -> (0 <= p)%Q -> (p <= 1)%Q ->
  (inject_Z (py_int (inject_Z n * (1.0 + (1.25 - 1.0) * p)) - n)
   <= inject_Z (py_int (inject_Z n * (1.0 + (1.25 - 1.0) * p)) - n) / 2
      + p * inject_Z (py_int (inject_Z n * 0.2)))%Q.
Proof.
  intros Hn Hp0 Hp1.
  pose proof (inject_Z_nonneg n ltac:(lia)) as Hqn.
  assert (Hbig : (14 <= inject_Z n)%Q).
  { change 14%Q with (inject_Z 14). rewrite <- Zle_Qle. lia. }
  pose proof (py_int_le_self (inject_Z n * (1.0 + (1.25 - 1.0) * p))
                ltac:(nra)) as Hz.
  pose proof (py_int_gt_pred (inject_Z n * 0.2) ltac:(nra)) as Hpd.
  unfold Zminus. rewrite inject_Z_plus, inject_Z_opp.
  unfold Qdiv. change (/ 2)%Q with (1 # 2)%Q.
  set (z := inject_Z (py_int (inject_Z n * (1.0 + (1.25 - 1.0) * p)))) in *.
  set (d := inject_Z (py_int (inject_Z n * 0.2))) in *.
  nra.
Qed.

(** X6.  For a dimension of at least 14 pixels and a progress in [0, 1]
    the crop of [zoom_pan_right] ends at the right edge of the zoomed
    picture and the crop of [zoom_pan_down] at its lower edge: the start
    index is the whole margin, whatever the progress. *)
Theorem zoom_pan_right_and_down_stay_at_the_far_edge p width height :
  14 <= width -> 14 <= height -> (0 <= p)%Q -> (p <= 1)%Q ->
  start_x (zoom_pan_right_window p width height)
  = buf_width (zoom_pan_right_window p width height) - width
  /\ start_y (zoom_pan_down_window p width height)
     = buf_height (zoom_pan_down_window p width height) - height.
Proof.
  intros Hw Hh Hp0 Hp1.
  unfold zoom_pan_right_window, zoom_pan_down_window.
  cbn [start_x start_y buf_width buf_height].
  pose proof (zoom_pan_forth_offset_large width p Hw Hp0 Hp1) as Hx.
  pose proof (zoom_pan_forth_offset_large height p Hh Hp0 Hp1) as Hy.
  apply py_int_ge in Hx. apply py_int_ge in Hy.
  pose proof (zoomed_dim_ge width (1.0 + (1.25 - 1.0) * p)
                ltac:(lia) ltac:(lra)).
  pose proof (zoomed_dim_ge height (1.0 + (1.25 - 1.0) * p)
                ltac:(lia) ltac:(lra)).
  split; lia.
Qed.

Lemma pan_back_0 n :
  py_int (inject_Z (py_int (inject_Z n * 1.2) - n)
          - 0 * inject_Z (py_int (inject_Z n * 0.3)))
  = py_int (inject_Z n * 1.2) - n.
Proof.
  rewrite <- (py_int_inject (py_int (inject_Z n * 1.2) - n)) at 2.
  apply py_int_comp. ring.
Qed.

Lemma pan_back_1 n :
  py_int (inject_Z (py_int (inject_Z n * 1.2) - n)
          - 1 * inject_Z (py_int (inject_Z n * 0.3)))
  = py_int (inject_Z n * 1.2) - n - py_int (inject_Z n * 0.3).
Proof.
  rewrite <- (py_int_inject
                (py_int (inject_Z n * 1.2) - n - py_int (inject_Z n * 0.3))).
  apply py_int_comp.
  unfold Zminus. rewrite !inject_Z_plus, !inject_Z_opp. ring.
Qed.

Lemma pan_forth_0 n : py_int (0 * inject_Z (py_int (inject_Z n * 0.3))) = 0.
Proof.
  rewrite <- (py_int_inject 0) at 2. apply py_int_comp. ring.
Qed.

Lemma pan_forth_1 n :
  py_int (1 * inject_Z (py_int (inject_Z n * 0.3)))
  = py_int (inject_Z n * 0.3).
Proof.
  rewrite <- (py_int_inject (py_int (inject_Z n * 0.3))) at 2.
  apply py_int_comp. ring.
Qed.

Lemma pan_distance_nonneg n :
  0 < n -> (0 <= inject_Z (py_int (inject_Z n * 0.3)))%Q.
Proof.
  intros Hn. apply inject_Z_nonneg, py_int_nonneg.
  pose proof (inject_Z_nonneg n ltac:(lia)). nra.
Qed.

(** X7.  [pan_up] and [pan_down] move over the vertical margin
    [int(1.2 * height) - height] in opposite directions: [pan_up] starts
    at the margin and ends at row 0 and never moves down, [pan_down]
    starts at row 0 and ends at the margin and never moves up; both keep
    the horizontal start at the centre. *)
Theorem vertical_pans_sweep_the_margin width height p q :
  0 < width -> 0 < height -> (p <= q)%Q ->
  let margin := py_int (inject_Z height * 1.2) - height in
  (start_y (pan_up_window 0 width height) = margin
   /\ start_y (pan_up_window 1 width height) = 0
   /\ start_y (pan_down_window 0 width height) = 0
   /\ start_y (pan_down_window 1 width height) = margin)
  /\ (start_y (pan_up_window q width height)
        <= start_y (pan_up_window p width height)
      /\ start_y (pan_down_window p width height)
        <= start_y (pan_down_window q width height))
  /\ (start_x (pan_up_window p width height)
        = (py_int (inject_Z width * 1.2) - width) / 2
      /\ start_x (pan_down_window p width height)
        = (py_int (inject_Z width * 1.2) - width) / 2).
Proof.
  intros Hw Hh Hpq margin.
  pose proof (pan_margin_le_distance height Hh) as Hmd.
  pose proof (pan_distance_nonneg height Hh) as Hpd.
  assert (Hm : 0 <= margin).
  { subst margin.
    pose proof (zoomed_dim_ge height 1.2 ltac:(lia) ltac:(lra)). lia. }
  assert (HU :
    py_int (inject_Z (py_int (inject_Z height * 1.2) - height)
            - q * inject_Z (py_int (inject_Z height * 0.3)))
    <= py_int (inject_Z (py_int (inject_Z height * 1.2) - height)
               - p * inject_Z (py_int (inject_Z height * 0.3))))
    by (apply py_int_mono;
        set (d := inject_Z (py_int (inject_Z height * 0.3))) in *; nra).
  assert (HD :
    py_int (p * inject_Z (py_int (inject_Z height * 0.3)))
    <= py_int (q * inject_Z (py_int (inject_Z height * 0.3))))
    by (apply py_int_mono;
        set (d := inject_Z (py_int (inject_Z height * 0.3))) in *; nra).
  unfold pan_up_window, pan_down_window. cbn [start_x start_y].
  rewrite pan_back_0, pan_back_1, pan_forth_0, pan_forth_1.
  fold margin in Hmd, HU |- *.
  repeat split; try reflexivity; lia.
Qed.

(** Past 0.7 the pan before the clamp is beyond the margin. *)
Lemma pan_forth_saturates n p :
  70 <= n -> (0.7 <= p)%Q ->
  py_int (inject_Z n * 1.2) - n
  <= py_int (p * inject_Z (py_int (inject_Z n * 0.3))).
Proof.
  intros Hn Hp.
  pose proof (inject_Z_nonneg n ltac:(lia)) as Hqn.
  assert (Hbig : (70 <= inject_Z n)%Q).
  { change 70%Q with (inject_Z 70). rewrite <- Zle_Qle. lia. }
  apply py_int_ge.
  pose proof (py_int_le_self (inject_Z n * 1.2) ltac:(nra)) as Hz.
  pose proof (py_int_gt_pred (inject_Z n * 0.3) ltac:(nra)) as Hpd.
  unfold Zminus. rewrite inject_Z_plus, inject_Z_opp.
  set (z := inject_Z (py_int (inject_Z n * 1.2))) in *.
  set (d := inject_Z (py_int (inject_Z n * 0.3))) in *.
  nra.
Qed.

Lemma pan_back_saturates n p :
  70 <= n -> (0.7 <= p)%Q ->
  py_int (inject_Z (py_int (inject_Z n * 1.2) - n)
          - p * inject_Z (py_int (inject_Z n * 0.3))) <= 0.
Proof.
  intros Hn Hp.
  pose proof (inject_Z_nonneg n ltac:(lia)) as Hqn.
  assert (Hbig : (70 <= inject_Z n)%Q).
  { change 70%Q with (inject_Z 70). rewrite <- Zle_Qle. lia. }
  apply py_int_below_one.
  pose proof (py_int_le_self (inject_Z n * 1.2) ltac:(nra)) as Hz.
  pose proof (py_int_gt_pred (inject_Z n * 0.3) ltac:(nra)) as Hpd.
  unfold Zminus. rewrite inject_Z_plus, inject_Z_opp.
  set (z := inject_Z (py_int (inject_Z n * 1.2))) in *.
  set (d := inject_Z (py_int (inject_Z n * 0.3))) in *.
  nra.
Qed.

(** X8.  For dimensions of at least 70 pixels the four pans have
    reached their final position when the eased progress is 0.7: from
    there on [pan_left] and [pan_up] stay at 0 and [pan_right] and
    [pan_down] at the margin, because the pan distance is 30% of the
    dimension and the margin only 20%. *)
Theorem pans_stand_still_from_0_7 width height p :
  70 <= width -> 70 <= height -> (0.7 <= p)%Q ->
  start_x (pan_left_window p width height) = 0
  /\ start_x (pan_right_window p width height)
     = py_int (inject_Z width * 1.2) - width
  /\ start_y (pan_up_window p width height) = 0
  /\ start_y (pan_down_window p width height)
     = py_int (inject_Z height * 1.2) - height.
Proof.
  intros Hw Hh Hp.
  pose proof (pan_forth_saturates width p Hw Hp) as Hfx.
  pose proof (pan_forth_saturates height p Hh Hp) as Hfy.
  pose proof (pan_back_saturates width p Hw Hp) as Hbx.
  pose proof (pan_back_saturates height p Hh Hp) as Hby.
  pose proof (zoomed_dim_ge width 1.2 ltac:(lia) ltac:(lra)).
  pose proof (zoomed_dim_ge height 1.2 ltac:(lia) ltac:(lra)).
  unfold pan_left_window, pan_right_window, pan_up_window, pan_down_window,
    pan_left_raw_x, pan_right_raw_x.
  cbn [start_x start_y].
  repeat split; lia.
Qed.

(** X9.  In [apply_rotate_zoom] the zoomed picture fits on the square
    canvas, so the assignment into the canvas does not fail, and the final
    crop of the target size lies inside the rectangle where the picture
    was put: its columns and rows are columns and rows of that
    rectangle. *)
Theorem rotate_zoom_crops_inside_the_picture p width height :
  0 < width -> 0 < height -> (0 <= p)%Q -> (p <= 1)%Q ->
  let current_zoom := rotate_zoom_current_zoom p in
  let canvas_size := rotate_zoom_canvas_size p width height in
  let zoom_width := py_int (inject_Z width * current_zoom) in
  let zoom_height := py_int (inject_Z height * current_zoom) in
  let paste_y := (canvas_size - zoom_height) / 2 in
  let paste_x := (canvas_size - zoom_width) / 2 in
  let win := rotate_zoom_window p width height in
  (0 <= paste_x /\ paste_x + zoom_width <= canvas_size
   /\ 0 <= paste_y /\ paste_y + zoom_height <= canvas_size)
  /\ (paste_x <= start_x win
      /\ start_x win + width <= paste_x + zoom_width
      /\ paste_y <= start_y win
      /\ start_y win + height <= paste_y + zoom_height).
Proof.
  intros Hw Hh Hp0 Hp1 current_zoom canvas_size zoom_width zoom_height
    paste_y paste_x win.
  pose proof (inject_Z_nonneg width ltac:(lia)) as Hqw.
  pose proof (inject_Z_nonneg height ltac:(lia)) as Hqh.
  assert (Hzoom : (1 <= current_zoom)%Q)
    by (subst current_zoom; unfold rotate_zoom_current_zoom; lra).
  assert (Hzw : width <= zoom_width)
    by (apply zoomed_dim_ge; [lia | exact Hzoom]).
  assert (Hzh : height <= zoom_height)
    by (apply zoomed_dim_ge; [lia | exact Hzoom]).
  assert (Hmw : (inject_Z width <= inject_Z (Z.max width height))%Q)
    by (rewrite <- Zle_Qle; lia).
  assert (Hmh : (inject_Z height <= inject_Z (Z.max width height))%Q)
    by (rewrite <- Zle_Qle; lia).
  assert (Hcw : zoom_width <= canvas_size).
  { subst zoom_width canvas_size. unfold rotate_zoom_canvas_size.
    fold current_zoom. apply py_int_mono. nra. }
  assert (Hch : zoom_height <= canvas_size).
  { subst zoom_height canvas_size. unfold rotate_zoom_canvas_size.
    fold current_zoom. apply py_int_mono. nra. }
  subst win. unfold rotate_zoom_window.
  cbn [start_x start_y]. fold canvas_size.
  subst paste_x paste_y.
  repeat split; Z.to_euclidean_division_equations; lia.
Qed.

Lemma effect_for_scene_residue n :
  effect_for_scene n = EFFECT_SEQUENCE !! Z.to_nat ((n - 1) mod 15).
Proof. reflexivity. Qed.

(** X10.  Every scene number, also 0 or a negative one, gets an effect
    of [EFFECT_SEQUENCE]; the choice repeats with period 15, and two
    consecutive scene numbers never get the same effect. *)
Theorem effect_for_scene_cycles n :
  exists effect_type,
    effect_for_scene n = Some effect_type
    /\ effect_type ∈ EFFECT_SEQUENCE
    /\ effect_for_scene (n + 15) = Some effect_type
    /\ effect_for_scene (n + 1) <> Some effect_type.
Proof.
  rewrite !effect_for_scene_residue.
  replace ((n + 15 - 1) mod 15) with ((n - 1) mod 15)
    by (Z.to_euclidean_division_equations; lia).
  replace ((n + 1 - 1) mod 15) with (((n - 1) mod 15 + 1) mod 15)
    by (Z.to_euclidean_division_equations; lia).
  pose proof (Z.mod_pos_bound (n - 1) 15 ltac:(lia)) as Hr.
  set (r := (n - 1) mod 15) in *.
  assert (Hcase : exists k : nat, r = Z.of_nat k /\ (k < 15)%nat)
    by (exists (Z.to_nat r); lia).
  destruct Hcase as (k & -> & Hk).
  do 15 (destruct k as [|k];
         [eexists; split; [reflexivity|];
          split; [unfold EFFECT_SEQUENCE; repeat constructor|];
          split; [reflexivity|]; vm_compute; discriminate |]).
  lia.
Qed.

(** ** The scene of a frame *)

Lemma py_min_from_spec xs : forall m,
  (py_min_from m xs <= m)%Q
  /\ Forall (fun x => (py_min_from m xs <= x)%Q) xs
  /\ (py_min_from m xs = m \/ py_min_from m xs ∈ xs).
Proof.
  induction xs as [|x xs IH]; intros m; cbn [py_min_from].
  - split; [lra|]. split; [constructor | by left].
  - destruct (Qltb x m) eqn:E.
    + apply Qltb_true in E. destruct (IH x) as (H1 & H2 & H3).
      split; [lra|]. split; [by constructor|].
      right. destruct H3 as [-> | H3]; [left | by right].
    + apply Qltb_false in E. destruct (IH m) as (H1 & H2 & H3).
      split; [exact H1|]. split; [constructor; [lra | exact H2]|].
      destruct H3 as [-> | H3]; [by left | right; by right].
Qed.

Lemma py_min_spec xs x :
  x ∈ xs -> exists m, py_min xs = Some m /\ Forall (fun y => (m <= y)%Q) xs.
Proof.
  intros Hx. destruct xs as [|a xs]; [by apply not_elem_of_nil in Hx|].
  cbn [py_min]. eexists. split; [reflexivity|].
  destruct (py_min_from_spec xs a) as (H1 & H2 & _). by constructor.
Qed.

Lemma py_max_spec xs x :
  x ∈ xs -> exists m, py_max xs = Some m /\ Forall (fun y => (y <= m)%Q) xs.
Proof.
  intros Hx. destruct xs as [|a xs]; [by apply not_elem_of_nil in Hx|].
  cbn [py_max]. eexists. split; [reflexivity|].
  destruct (py_max_from_spec xs a) as (H1 & H2 & _). by constructor.
Qed.

(** The segment contains the timestamp, its end excluded: the test of the
    scan in [render_frame_batch]. *)
Lemma find_scene_scan all_segments t : forall rest,
  rest ⊆ all_segments ->
  exists info,
    find_scene all_segments rest t = Some info
    /\ ((info = SceneInfo 1 0 0
         /\ Forall (fun s => ~ ((Seg.start_time s <= t)%Q
                                /\ (t < Seg.end_time s)%Q)) rest)
        \/ exists s,
             s ∈ rest
             /\ scene_number info = Seg.scene s
             /\ (Seg.start_time s <= t)%Q /\ (t < Seg.end_time s)%Q
             /\ (scene_start_time info <= t)%Q
             /\ (t < scene_end_time info)%Q
             /\ Forall (fun s' =>
                          Seg.scene s' = scene_number info ->
                          (scene_start_time info <= Seg.start_time s')%Q
                          /\ (Seg.end_time s' <= scene_end_time info)%Q)
                  all_segments).
Proof.
  induction rest as [|s rest IH]; intros Hsub.
  - eexists. split; [reflexivity|]. left. split; [reflexivity | constructor].
  - cbn [find_scene].
    destruct (Qle_bool (Seg.start_time s) t) eqn:E1;
      [destruct (Qltb t (Seg.end_time s)) eqn:E2|]; cbn [andb].
    + apply Qle_bool_iff in E1. apply Qltb_true in E2.
      assert (Hin : s ∈ all_segments) by (apply Hsub; left).
      set (scene_segments :=
             filter (fun seg => Seg.scene seg = Seg.scene s) all_segments).
      assert (Hf : s ∈ scene_segments)
        by (apply list_elem_of_filter; by split).
      destruct (py_min_spec (map Seg.start_time scene_segments)
                  (Seg.start_time s)) as (lo & -> & Hlo).
      { apply list_elem_of_fmap. by exists s. }
      destruct (py_max_spec (map Seg.end_time scene_segments)
                  (Seg.end_time s)) as (hi & -> & Hhi).
      { apply list_elem_of_fmap. by exists s. }
      cbn [mbind option_bind]. eexists. split; [reflexivity|]. right.
      exists s. cbn [scene_number scene_start_time scene_end_time].
      rewrite Forall_forall in Hlo, Hhi.
      assert (Hlo' : forall s', s' ∈ scene_segments ->
                                (lo <= Seg.start_time s')%Q).
      { intros s' Hs'. apply Hlo, list_elem_of_fmap. by exists s'. }
      assert (Hhi' : forall s', s' ∈ scene_segments ->
                                (Seg.end_time s' <= hi)%Q).
      { intros s' Hs'. apply Hhi, list_elem_of_fmap. by exists s'. }
      pose proof (Hlo' s Hf). pose proof (Hhi' s Hf).
      split; [left|]. split; [reflexivity|].
      split; [exact E1|]. split; [exact E2|].
      split; [lra|]. split; [lra|].
      apply Forall_forall. intros s' Hs' Hscene.
      assert (s' ∈ scene_segments) by (apply list_elem_of_filter; by split).
      split; auto.
    + apply Qltb_false in E2.
      destruct IH as (info & -> & Hinfo).
      { intros x Hx. apply Hsub. by right. }
      exists info. split; [reflexivity|].
      destruct Hinfo as [(-> & Hnone) | (s' & Hs' & Hrest)].
      * left. split; [reflexivity|]. constructor; [lra | exact Hnone].
      * right. exists s'. split; [by right | exact Hrest].
    + apply Qle_bool_false in E1.
      destruct IH as (info & -> & Hinfo).
      { intros x Hx. apply Hsub. by right. }
      exists info. split; [reflexivity|].
      destruct Hinfo as [(-> & Hnone) | (s' & Hs' & Hrest)].
      * left. split; [reflexivity|]. constructor; [lra | exact Hnone].
      * right. exists s'. split; [by right | exact Hrest].
Qed.

(** X11.  The scan of [render_frame_batch] for the scene of a timestamp
    never fails.  Either no segment holds the timestamp ([start_time <= t <
    end_time]) and the scene is the default, number 1 with start and end
    0; or the scene is that of a segment that holds the timestamp, its
    window from the smallest start to the largest end of the segments of
    that scene holds the timestamp too, and every segment of the scene
    lies inside the window. *)
Theorem find_scene_window all_segments t :
  exists info,
    find_scene all_segments all_segments t = Some info
    /\ ((info = SceneInfo 1 0 0
         /\ Forall (fun s => ~ ((Seg.start_time s <= t)%Q
                                /\ (t < Seg.end_time s)%Q)) all_segments)
        \/ exists s,
             s ∈ all_segments
             /\ scene_number info = Seg.scene s
             /\ (Seg.start_time s <= t)%Q /\ (t < Seg.end_time s)%Q
             /\ (scene_start_time info <= t)%Q
             /\ (t < scene_end_time info)%Q
             /\ Forall (fun s' =>
                          Seg.scene s' = scene_number info ->
                          (scene_start_time info <= Seg.start_time s')%Q
                          /\ (Seg.end_time s' <= scene_end_time info)%Q)
                  all_segments).
Proof. apply find_scene_scan. done. Qed.

Lemma Qclamp_cases x :
  ((x <= 0)%Q /\ Qmax 0 (Qmin 1 x) == 0)%Q
  \/ ((0 <= x)%Q /\ (x <= 1)%Q /\ Qmax 0 (Qmin 1 x) == x)%Q
  \/ ((1 <= x)%Q /\ Qmax 0 (Qmin 1 x) == 1)%Q.
Proof.
  destruct (Q.max_spec 0 (Qmin 1 x)) as [[H1 H2] | [H1 H2]];
  destruct (Q.min_spec 1 x) as [[H3 H4] | [H3 H4]];
    rewrite H4 in *.
  - right. right. split; [lra | exact H2].
  - right. left. split; [lra|]. split; [lra | exact H2].
  - lra.
  - left. split; [lra | exact H2].
Qed.

Lemma Qclamp_range x : (0 <= Qmax 0 (Qmin 1 x))%Q /\ (Qmax 0 (Qmin 1 x) <= 1)%Q.
Proof.
  destruct (Qclamp_cases x) as [[? ?] | [(? & ? & ?) | [? ?]]]; lra.
Qed.

Lemma Qclamp_mono x y :
  (x <= y)%Q -> (Qmax 0 (Qmin 1 x) <= Qmax 0 (Qmin 1 y))%Q.
Proof.
  intros Hxy.
  destruct (Qclamp_cases x) as [[? ?] | [(? & ? & ?) | [? ?]]];
  destruct (Qclamp_cases y) as [[? ?] | [(? & ? & ?) | [? ?]]]; lra.
Qed.

Lemma Qclamp_id x :
  (0 <= x)%Q -> (x <= 1)%Q -> (Qmax 0 (Qmin 1 x) == x)%Q.
Proof.
  intros H0 H1.
  destruct (Qclamp_cases x) as [[? ?] | [(? & ? & ?) | [? ?]]]; lra.
Qed.

(** The duration that [render_frame_batch] divides by is positive. *)
Lemma scene_duration_positive info :
  let scene_start_time := scene_start_time info in
  let scene_end_time :=
    if Qeq_bool (scene_end_time info) 0
    then (scene_start_time + 3.0)%Q else scene_end_time info in
  let scene_duration := (scene_end_time - scene_start_time)%Q in
  (0 < (if Qle_bool scene_duration 0 then 1.0%Q else scene_duration))%Q.
Proof.
  cbv zeta.
  destruct (Qle_bool _ 0) eqn:E; [lra|].
  apply Qle_bool_false in E. exact E.
Qed.

(** X12.  The progress that [render_frame_batch] hands to the effect
    lies in [0, 1] and does not decrease with the timestamp.  Inside a
    scene whose end is not 0 it is the elapsed share of the scene,
    [(t - start) / (end - start)]; when the end is 0 (no segment found)
    the scene is taken to last 3 seconds. *)
Theorem scene_progress_of_range info t t' :
  (t <= t')%Q ->
  (0 <= scene_progress_of info t)%Q
  /\ (scene_progress_of info t <= 1)%Q
  /\ (scene_progress_of info t <= scene_progress_of info t')%Q
  /\ (~ (scene_end_time info == 0)%Q ->
      (scene_start_time info <= t)%Q -> (t < scene_end_time info)%Q ->
      (scene_progress_of info t
       == (t - scene_start_time info)
          / (scene_end_time info - scene_start_time info))%Q)
  /\ ((scene_end_time info == 0)%Q ->
      (scene_start_time info <= t)%Q ->
      (t <= scene_start_time info + 3)%Q ->
      (scene_progress_of info t == (t - scene_start_time info) / 3)%Q).
Proof.
  intros Htt.
  pose proof (scene_duration_positive info) as Hd. cbv zeta in Hd.
  unfold scene_progress_of. cbv zeta.
  set (d := if Qle_bool _ 0 then 1.0%Q else _) in *.
  assert (Hi : (0 < / d)%Q) by (by apply Qinv_lt_0_compat).
  split; [apply Qclamp_range|]. split; [apply Qclamp_range|].
  split; [apply Qclamp_mono; unfold Qdiv; nra|].
  split.
  - intros Hne Hs He.
    assert (Hdd : (d == scene_end_time info - scene_start_time info)%Q).
    { subst d.
      destruct (Qeq_bool (scene_end_time info) 0) eqn:E0.
      - apply Qeq_bool_iff in E0. contradiction.
      - destruct (Qle_bool _ 0) eqn:E1; [|reflexivity].
        apply Qle_bool_iff in E1. lra. }
    rewrite <- Hdd. apply Qclamp_id.
    + unfold Qdiv. nra.
    + apply Qle_shift_div_r; [exact Hd | lra].
  - intros H0 Hs He.
    assert (Hdd : (d == 3)%Q).
    { subst d. destruct (Qeq_bool (scene_end_time info) 0) eqn:E0.
      - destruct (Qle_bool _ 0) eqn:E1; [|lra].
        apply Qle_bool_iff in E1. lra.
      - apply Qeq_bool_iff in H0. congruence. }
    rewrite <- Hdd. apply Qclamp_id.
    + unfold Qdiv. nra.
    + apply Qle_shift_div_r; [exact Hd | lra].
Qed.

(** ** The picture cache *)

Lemma has_shape_is_image img h w :
  0 < h -> 0 < w -> has_shape img h w -> is_image img.
Proof. intros Hh Hw Hs. exists h, w. auto. Qed.

Section CacheProperties.

Variable cv2_imread : string -> option image.
Variable cv2_resize : image -> Z -> Z -> option image.

#[local] Abbreviation cached_image := (get_cached_image cv2_imread cv2_resize).

Lemma get_cached_image_hit shot n w h st img :
  image_cache st !! image_path_of shot n = Some img ->
  cached_image shot n w h st = Some (img, st).
Proof. intros H. unfold get_cached_image. by rewrite H. Qed.

Lemma get_cached_image_stores shot n w h st img st' :
  cached_image shot n w h st = Some (img, st') ->
  image_cache st' !! image_path_of shot n = Some img
  /\ image_cache st ⊆ image_cache st'
  /\ (forall image_path,
        image_path <> image_path_of shot n ->
        image_cache st' !! image_path = image_cache st !! image_path)
  /\ (st' = st
      \/ (cv2_imread (image_path_of shot n) = None
          /\ img = np_zeros h w
          /\ console st' = console st ++ [WarnImageLoad (image_path_of shot n)])
      \/ (exists src, cv2_imread (image_path_of shot n) = Some src
                      /\ cv2_resize src w h = Some img
                      /\ console st' = console st)).
Proof.
  unfold get_cached_image.
  destruct (image_cache st !! image_path_of shot n) as [hit|] eqn:Hc.
  - intros [= <- <-]. split; [exact Hc|]. split; [done|].
    split; [done | by left].
  - destruct (cv2_imread (image_path_of shot n)) as [src|] eqn:Hr.
    + destruct (cv2_resize src w h) as [out|] eqn:Hz; [|discriminate].
      cbn. intros [= <- <-]. cbn [image_cache console].
      split; [apply lookup_insert_eq|].
      split; [by apply insert_subseteq|].
      split; [intros p Hp; by apply lookup_insert_ne|].
      right. right. by exists src.
    + cbn. intros [= <- <-]. cbn [image_cache console].
      split; [apply lookup_insert_eq|].
      split; [by apply insert_subseteq|].
      split; [intros p Hp; by apply lookup_insert_ne|].
      right. left. done.
Qed.

(** X13.  After [get_cached_image] has returned a picture for a scene,
    every further call for that scene returns the same picture and leaves
    the state alone, whatever width and height it asks for: the cache key
    is the path only.  The call keeps every entry that was in the cache,
    touches no other path, and prints at most one warning, only when the
    file cannot be read. *)
Theorem get_cached_image_caches shot n w h st img st' :
  cached_image shot n w h st = Some (img, st') ->
  (forall w' h', cached_image shot n w' h' st' = Some (img, st'))
  /\ (forall image_path cached,
        image_cache st !! image_path = Some cached ->
        image_cache st' !! image_path = Some cached)
  /\ (forall image_path,
        image_path <> image_path_of shot n ->
        image_cache st' !! image_path = image_cache st !! image_path)
  /\ (console st' = console st
      \/ (cv2_imread (image_path_of shot n) = None
          /\ console st'
             = console st ++ [WarnImageLoad (image_path_of shot n)])).
Proof.
  intros H.
  destruct (get_cached_image_stores _ _ _ _ _ _ _ H)
    as (Hin & Hsub & Hother & Hcase).
  split; [intros w' h'; by apply get_cached_image_hit|].
  split.
  { intros p c Hp. eapply lookup_weaken; eauto. }
  split; [exact Hother|].
  destruct Hcase as [-> | [(Hr & _ & Hc) | (src & _ & _ & Hc)]]; auto.
Qed.

Hypothesis cv2_resize_shape : resize_contract cv2_resize.
Hypothesis cv2_imread_image :
  forall image_path img, cv2_imread image_path = Some img -> is_image img.

Lemma get_cached_image_returns shot n w h st :
  0 < w -> 0 < h -> cache_holds_images st ->
  exists img st',
    cached_image shot n w h st = Some (img, st')
    /\ is_image img /\ cache_holds_images st'
    /\ image_cache st ⊆ image_cache st'.
Proof.
  intros Hw Hh Hok. unfold get_cached_image.
  destruct (image_cache st !! image_path_of shot n) as [hit|] eqn:Hc.
  - exists hit, st. split; [reflexivity|].
    split; [by eapply Hok|]. split; done.
  - assert (Hins : forall img,
              is_image img ->
              forall console,
                cache_holds_images
                  (RenderState (<[image_path_of shot n := img]>
                                  (image_cache st)) console)).
    { intros img Himg console p c. cbn [image_cache].
      destruct (decide (p = image_path_of shot n)) as [-> | Hne].
      - rewrite lookup_insert_eq. by intros [= <-].
      - rewrite lookup_insert_ne by done. apply Hok. }
    destruct (cv2_imread (image_path_of shot n)) as [src|] eqn:Hr.
    + destruct (cv2_resize_shape src w h) as (out & -> & Hout);
        [by eapply cv2_imread_image | lia | lia |].
      cbn. eexists _, _. split; [reflexivity|].
      assert (is_image out) by (by apply (has_shape_is_image out h w)).
      split; [done|]. split; [by apply Hins|].
      cbn [image_cache]. by apply insert_subseteq.
    + cbn. eexists _, _. split; [reflexivity|].
      assert (is_image (np_zeros h w)) by (by apply np_zeros_is_image).
      split; [done|]. split; [by apply Hins|].
      cbn [image_cache]. by apply insert_subseteq.
Qed.

End CacheProperties.

(** ** A batch of frames *)

Lemma effect_for_scene_is_Some n : is_Some (effect_for_scene n).
Proof.
  unfold effect_for_scene. apply lookup_lt_is_Some.
  change (length EFFECT_SEQUENCE) with 15%nat.
  pose proof (Z.mod_pos_bound (n - 1) 15 ltac:(lia)). cbn. lia.
Qed.

Section BatchProperties.

Variable cv2_imread : string -> option image.
Variable cv2_resize : image -> Z -> Z -> option image.
Variable affine : Type.
Variable cv2_getRotationMatrix2D : Z * Z -> Q -> Q -> affine.
Variable cv2_warpAffine : image -> affine -> Z -> Z -> option image.
Variables math_sin math_cos : Q -> Q.
Variable math_pi : Q.
Variable text_width : string -> string -> Z -> Z.
Variable draw_text : image -> Z * Z -> string -> string -> Z -> pixel -> image.

Hypothesis cv2_resize_shape : resize_contract cv2_resize.
Hypothesis cv2_warpAffine_shape : warp_contract cv2_warpAffine.
Hypothesis cv2_imread_image :
  forall image_path img, cv2_imread image_path = Some img -> is_image img.

#[local] Abbreviation scene_frame :=
  (render_scene_frame cv2_imread cv2_resize affine cv2_getRotationMatrix2D
     cv2_warpAffine math_sin math_cos math_pi).
#[local] Abbreviation frame_batch :=
  (render_frame_batch cv2_imread cv2_resize affine cv2_getRotationMatrix2D
     cv2_warpAffine math_sin math_cos math_pi text_width draw_text).

Lemma render_scene_frame_returns all_segments w h shot t st :
  0 < w -> 0 < h -> cache_holds_images st ->
  exists frame st',
    scene_frame all_segments w h shot t st = Some (frame, st')
    /\ has_shape frame h w /\ cache_holds_images st'
    /\ image_cache st ⊆ image_cache st'.
Proof.
  intros Hw Hh Hok. unfold render_scene_frame.
  destruct (find_scene_scan all_segments t all_segments ltac:(done))
    as (info & -> & _).
  cbn [mbind option_bind].
  destruct (get_cached_image_returns cv2_imread cv2_resize cv2_resize_shape
              cv2_imread_image shot (scene_number info) w h st Hw Hh Hok)
    as (img & st' & -> & Himg & Hok' & Hsub).
  cbn [mbind option_bind].
  destruct (effect_for_scene_is_Some (scene_number info)) as [e ->].
  cbn [mbind option_bind].
  destruct (ken_burns_reads_window cv2_resize affine cv2_getRotationMatrix2D
              cv2_warpAffine math_sin math_cos math_pi cv2_resize_shape
              cv2_warpAffine_shape img (scene_progress_of info t) e w h
              Himg Hw Hh) as (buf & Hbuf & ->).
  destruct (ken_burns_window_bounds math_sin math_cos math_pi
              (scene_progress_of info t) e w h Hw Hh)
    as (Hx0 & Hx1 & Hy0 & Hy1).
  cbn [mbind option_bind]. eexists _, _. split; [reflexivity|].
  split; [eapply crop_shape; eauto; lia|]. split; done.
Qed.

(** X14.  With a cache of proper pictures, and [cv2.imread] returning
    proper pictures when it returns one, [render_frame_batch] never raises:
    it returns one frame for each entry of the batch, under the same frame
    indices in the same order; the cache only grows and still holds proper
    pictures, so the next batch can start from it. *)
Theorem render_frame_batch_returns frame_batch_info all_segments timing_info
  style w h shot st :
  0 < w -> 0 < h -> cache_holds_images st ->
  exists rendered_frames st',
    frame_batch frame_batch_info all_segments timing_info style w h shot st
    = Some (rendered_frames, st')
    /\ map fst rendered_frames = map fst frame_batch_info
    /\ cache_holds_images st'
    /\ image_cache st ⊆ image_cache st'.
Proof.
  intros Hw Hh. revert st.
  induction frame_batch_info as [|[frame_idx t] rest IH]; intros st Hok.
  - exists [], st. repeat split; done.
  - cbn [render_frame_batch].
    destruct (render_scene_frame_returns all_segments w h shot t st Hw Hh Hok)
      as (frame & st1 & -> & _ & Hok1 & Hsub1).
    cbn [mbind option_bind].
    destruct (IH st1 Hok1) as (frames & st2 & -> & Hidx & Hok2 & Hsub2).
    cbn [mbind option_bind]. eexists _, _. split; [reflexivity|].
    split; [cbn [map fst]; by rewrite Hidx|].
    split; [done|]. by transitivity (image_cache st1).
Qed.

End BatchProperties.

(** ** Preloading *)

Section PreloadProperties.

Variable cv2_imread : string -> option image.
Variable cv2_resize : image -> Z -> Z -> option image.

Hypothesis cv2_resize_shape : resize_contract cv2_resize.
Hypothesis cv2_imread_image :
  forall image_path img, cv2_imread image_path = Some img -> is_image img.

#[local] Abbreviation stored := (loaded cv2_imread cv2_resize).

Lemma load_single_image_stores shot w h n st :
  0 < w -> 0 < h ->
  exists st',
    load_single_image cv2_imread cv2_resize shot w h n st = Some st'
    /\ image_cache st ⊆ image_cache st'
    /\ is_Some (image_cache st' !! image_path_of shot n)
    /\ forall image_path img,
         image_cache st' !! image_path = Some img ->
         image_cache st !! image_path = Some img
         \/ stored w h image_path img.
Proof.
  intros Hw Hh. unfold load_single_image.
  destruct (image_cache st !! image_path_of shot n) as [hit|] eqn:Hc.
  - exists st. split; [reflexivity|]. split; [done|].
    split; [by rewrite Hc | auto].
  - assert (Hins : forall img console,
              stored w h (image_path_of shot n) img ->
              let st' := RenderState (<[image_path_of shot n := img]>
                                        (image_cache st)) console in
              image_cache st ⊆ image_cache st'
              /\ is_Some (image_cache st' !! image_path_of shot n)
              /\ forall image_path c,
                   image_cache st' !! image_path = Some c ->
                   image_cache st !! image_path = Some c
                   \/ stored w h image_path c).
    { intros img console Hl. cbn [image_cache].
      split; [by apply insert_subseteq|].
      split; [by rewrite lookup_insert_eq|].
      intros p c. destruct (decide (p = image_path_of shot n)) as [-> | Hne].
      - rewrite lookup_insert_eq. intros [= <-]. by right.
      - rewrite lookup_insert_ne by done. by left. }
    destruct (cv2_imread (image_path_of shot n)) as [src|] eqn:Hr.
    + destruct (cv2_resize_shape src w h) as (out & Hout & _);
        [by eapply cv2_imread_image | lia | lia |].
      rewrite Hout. cbn. eexists. split; [reflexivity|].
      apply Hins. right. by exists src.
    + cbn. eexists. split; [reflexivity|]. apply Hins. by left.
Qed.

Lemma preload_fold shot w h schedule :
  0 < w -> 0 < h ->
  forall st,
    let st' :=
      foldl (fun st scene_number =>
               default st
                 (load_single_image cv2_imread cv2_resize shot w h
                    scene_number st))
            st schedule in
    image_cache st ⊆ image_cache st'
    /\ (forall n, n ∈ schedule ->
                  is_Some (image_cache st' !! image_path_of shot n))
    /\ forall image_path img,
         image_cache st' !! image_path = Some img ->
         image_cache st !! image_path = Some img
         \/ stored w h image_path img.
Proof.
  intros Hw Hh. induction schedule as [|n schedule IH]; intros st; cbn zeta.
  - cbn [foldl]. split; [done|]. split; [|auto].
    intros n Hn. by apply not_elem_of_nil in Hn.
  - cbn [foldl].
    destruct (load_single_image_stores shot w h n st Hw Hh)
      as (st1 & -> & Hsub1 & Hn1 & Hfrom1).
    cbn [default from_option].
    destruct (IH st1) as (Hsub & Hall & Hfrom).
    split; [by transitivity (image_cache st1)|]. split.
    + intros m Hm. apply elem_of_cons in Hm as [-> | Hm]; [|by apply Hall].
      destruct Hn1 as [img Himg]. exists img.
      eapply lookup_weaken; eauto.
    + intros p img Hp. destruct (Hfrom p img Hp) as [H1 | Hl]; [|by right].
      by apply Hfrom1.
Qed.

(** X15.  [preload_images] raises for a scene count that is not
    positive (the thread pool refuses [max_workers <= 0]).  For a positive
    count, in whatever order the tasks run, it returns, keeps the entries
    of the cache, and leaves an entry for every scene from 1 to the count:
    [get_cached_image] then answers from the cache without reading a file,
    and the entry of a file that cannot be read is the black
    placeholder. *)
Theorem preload_images_fills_the_cache shot scene_count w h schedule st :
  0 < w -> 0 < h -> schedule ≡ₚ seqZ 1 scene_count ->
  if scene_count <=? 0 then
    preload_images cv2_imread cv2_resize shot scene_count w h schedule st
    = None
  else
    exists st',
      preload_images cv2_imread cv2_resize shot scene_count w h schedule st
      = Some st'
      /\ image_cache st ⊆ image_cache st'
      /\ forall n,
           1 <= n <= scene_count ->
           exists img,
             image_cache st' !! image_path_of shot n = Some img
             /\ (forall imread' resize' w' h',
                   get_cached_image imread' resize' shot n w' h' st'
                   = Some (img, st'))
             /\ (image_cache st !! image_path_of shot n = None ->
                 cv2_imread (image_path_of shot n) = None ->
                 img = np_zeros h w).
Proof.
  intros Hw Hh Hperm. unfold preload_images.
  destruct (Z.leb_spec scene_count 0) as [Hle | Hgt].
  - destruct (Z.leb_spec (Z.min 16 scene_count) 0); [reflexivity | lia].
  - destruct (Z.leb_spec (Z.min 16 scene_count) 0); [lia|].
    eexists. split; [reflexivity|].
    destruct (preload_fold shot w h schedule Hw Hh st)
      as (Hsub & Hall & Hfrom).
    split; [exact Hsub|]. intros n Hn.
    destruct (Hall n) as [img Himg].
    { rewrite Hperm. apply elem_of_seqZ. lia. }
    exists img. split; [exact Himg|]. split.
    + intros imread' resize' w' h'. by apply get_cached_image_hit.
    + intros Hnew Hmiss.
      destruct (Hfrom _ _ Himg) as [Hold | [[_ ->] | (src & Hsrc & _)]];
        congruence.
Qed.

End PreloadProperties.

(** ** The stroke *)

Lemma stroke_cell_elem dx dy (p : Z * Z) :
  p ∈ (if bool_decide (dx ≠ 0 ∨ dy ≠ 0) then [(dx, dy)] else [])
  <-> p = (dx, dy) /\ (dx ≠ 0 ∨ dy ≠ 0).
Proof.
  destruct (decide (dx ≠ 0 ∨ dy ≠ 0)) as [H | H].
  - rewrite bool_decide_eq_true_2 by done. rewrite list_elem_of_singleton.
    tauto.
  - rewrite bool_decide_eq_false_2 by done. rewrite elem_of_nil. tauto.
Qed.

Lemma stroke_offsets_elem sw dx dy :
  (dx, dy) ∈ stroke_offsets sw
  <-> - sw <= dx <= sw /\ - sw <= dy <= sw /\ (dx ≠ 0 ∨ dy ≠ 0).
Proof.
  unfold stroke_offsets. rewrite list_elem_of_bind. split.
  - intros (x & Hin & Hx). apply list_elem_of_bind in Hin as (y & Hin & Hy).
    apply stroke_cell_elem in Hin as [[= -> ->] Hne].
    apply elem_of_seqZ in Hx, Hy. split; [lia|]. split; [lia | exact Hne].
  - intros (Hx & Hy & Hne). exists dx. split; [|apply elem_of_seqZ; lia].
    apply list_elem_of_bind. exists dy. split; [|apply elem_of_seqZ; lia].
    by apply stroke_cell_elem.
Qed.

Lemma bind_length_const {A B} (f : A -> list B) (c : nat) l :
  Forall (fun x => length (f x) = c) l ->
  length (l ≫= f) = (c * length l)%nat.
Proof.
  induction 1 as [|x l Hx _ IH]; [cbn; lia|].
  rewrite bind_cons, length_app, Hx, IH. cbn [length]. lia.
Qed.

Lemma stroke_row_length sw dx :
  0 <= sw ->
  Z.of_nat
    (length (seqZ (- sw) (2 * sw + 1) ≫= fun dy =>
               if bool_decide (dx ≠ 0 ∨ dy ≠ 0) then [(dx, dy)] else []))
  = if decide (dx = 0) then 2 * sw else 2 * sw + 1.
Proof.
  intros Hsw. destruct (decide (dx = 0)) as [-> | Hne].
  - replace (2 * sw + 1) with (sw + (1 + sw)) by lia.
    rewrite seqZ_app, (seqZ_app (- sw + sw)) by lia.
    rewrite !bind_app, !length_app.
    rewrite (bind_length_const _ 1 (seqZ (- sw) sw)).
    2:{ apply Forall_forall. intros dy Hdy. apply elem_of_seqZ in Hdy.
        rewrite bool_decide_eq_true_2 by (right; lia). reflexivity. }
    rewrite (bind_length_const _ 0 (seqZ (- sw + sw) 1)).
    2:{ apply Forall_forall. intros dy Hdy. apply elem_of_seqZ in Hdy.
        rewrite bool_decide_eq_false_2 by lia. reflexivity. }
    rewrite (bind_length_const _ 1 (seqZ (- sw + sw + 1) sw)).
    2:{ apply Forall_forall. intros dy Hdy. apply elem_of_seqZ in Hdy.
        rewrite bool_decide_eq_true_2 by (right; lia). reflexivity. }
    rewrite !length_seqZ. lia.
  - rewrite (bind_length_const _ 1).
    2:{ apply Forall_forall. intros dy Hdy.
        rewrite bool_decide_eq_true_2 by (by left). reflexivity. }
    rewrite length_seqZ. lia.
Qed.

Lemma bind_length_rows {A B} (f : A -> list B) (c : Z) l :
  Forall (fun x => Z.of_nat (length (f x)) = c) l ->
  Z.of_nat (length (l ≫= f)) = c * Z.of_nat (length l).
Proof.
  induction 1 as [|x l Hx _ IH]; [cbn; lia|].
  rewrite bind_cons, length_app. cbn [length]. lia.
Qed.

Lemma stroke_offsets_length sw :
  0 <= sw ->
  Z.of_nat (length (stroke_offsets sw)) = (2 * sw + 1) * (2 * sw + 1) - 1.
Proof.
  intros Hsw. unfold stroke_offsets.
  assert (Hsplit : seqZ (- sw) (2 * sw + 1)
                   = seqZ (- sw) sw ++ seqZ (- sw + sw) 1
                     ++ seqZ (- sw + sw + 1) sw).
  { replace (2 * sw + 1) with (sw + (1 + sw)) by lia.
    by rewrite seqZ_app, (seqZ_app (- sw + sw)) by lia. }
  rewrite Hsplit at 1.
  rewrite !bind_app, !length_app, !Nat2Z.inj_add.
  rewrite (bind_length_rows _ (2 * sw + 1) (seqZ (- sw) sw)).
  2:{ apply Forall_forall. intros dx Hdx. apply elem_of_seqZ in Hdx.
      rewrite stroke_row_length by done. destruct (decide (dx = 0)); lia. }
  rewrite (bind_length_rows _ (2 * sw) (seqZ (- sw + sw) 1)).
  2:{ apply Forall_forall. intros dx Hdx. apply elem_of_seqZ in Hdx.
      rewrite stroke_row_length by done. destruct (decide (dx = 0)); lia. }
  rewrite (bind_length_rows _ (2 * sw + 1) (seqZ (- sw + sw + 1) sw)).
  2:{ apply Forall_forall. intros dx Hdx. apply elem_of_seqZ in Hdx.
      rewrite stroke_row_length by done. destruct (decide (dx = 0)); lia. }
  rewrite !length_seqZ. nia.
Qed.

Lemma stroke_offsets_NoDup sw : NoDup (stroke_offsets sw).
Proof.
  unfold stroke_offsets. apply NoDup_bind.
  - intros x1 x2 p _ _ H1 H2.
    apply list_elem_of_bind in H1 as (y1 & H1 & _).
    apply list_elem_of_bind in H2 as (y2 & H2 & _).
    apply stroke_cell_elem in H1 as [-> _].
    apply stroke_cell_elem in H2 as [[= -> _] _]. reflexivity.
  - intros dx _. apply NoDup_bind.
    + intros y1 y2 p _ _ H1 H2.
      apply stroke_cell_elem in H1 as [-> _].
      apply stroke_cell_elem in H2 as [[= ->] _]. reflexivity.
    + intros dy _. destruct (bool_decide _); [apply NoDup_singleton|].
      apply NoDup_nil_2.
    + apply NoDup_seqZ.
  - apply NoDup_seqZ.
Qed.

(** X16.  The stroke of a subtitle is the text drawn in black at the
    offsets [stroke_offsets]: every pair [(dx, dy)] within the stroke
    width in both directions except [(0, 0)], each once, which makes
    [(2 * stroke_width + 1)^2 - 1] calls of [draw.text] (48 for the width 3
    of the style).  A negative stroke width draws nothing. *)
Theorem stroke_surrounds_the_anchor
  (draw_text : image -> Z * Z -> string -> string -> Z -> pixel -> image)
  style pil_image x y subtitle_text :
  let offsets := stroke_offsets (stroke_width style) in
  draw_stroke draw_text style pil_image x y subtitle_text
  = foldl (fun im '(dx, dy) =>
             draw_text im (x + dx, y + dy) subtitle_text
               (font_family style) (font_size style) (0, 0, 0))
          pil_image offsets
  /\ (forall dx dy,
        (dx, dy) ∈ offsets
        <-> - stroke_width style <= dx <= stroke_width style
            /\ - stroke_width style <= dy <= stroke_width style
            /\ (dx ≠ 0 ∨ dy ≠ 0))
  /\ NoDup offsets
  /\ (0 <= stroke_width style ->
      Z.of_nat (length offsets)
      = (2 * stroke_width style + 1) * (2 * stroke_width style + 1) - 1)
  /\ (stroke_width style < 0 ->
      draw_stroke draw_text style pil_image x y subtitle_text = pil_image).
Proof.
  cbv zeta. split; [reflexivity|].
  split; [intros dx dy; apply stroke_offsets_elem|].
  split; [apply stroke_offsets_NoDup|].
  split; [apply stroke_offsets_length|].
  intros Hneg. unfold draw_stroke. cbv zeta.
  rewrite (seqZ_nil (- stroke_width style)) by lia. reflexivity.
Qed.

(** ** The frame buffer of a run without failures *)

Lemma py_int_lt_Z x (k : Z) : (0 <= x)%Q -> (x < inject_Z k)%Q -> py_int x < k.
Proof.
  intros H0 Hk. pose proof (py_int_le_self x H0) as Hle.
  rewrite Zlt_Qlt. lra.
Qed.

Lemma Qdiv_bounds (a : Q) (fps : Z) t :
  0 < fps ->
  ((t < a / inject_Z fps)%Q -> (t * inject_Z fps < a)%Q)
  /\ ((a / inject_Z fps <= t)%Q -> (a <= t * inject_Z fps)%Q).
Proof.
  intros Hfps.
  assert (Hq : (0 < inject_Z fps)%Q).
  { change 0%Q with (inject_Z 0). rewrite <- Zlt_Qlt. exact Hfps. }
  assert (Hinv : (inject_Z fps * / inject_Z fps == 1)%Q)
    by (apply Qmult_inv_r; lra).
  assert (Hi : (0 < / inject_Z fps)%Q) by (by apply Qinv_lt_0_compat).
  unfold Qdiv. set (i := (/ inject_Z fps)%Q) in *.
  set (f := inject_Z fps) in *.
  split; intros H.
  - assert (t * f < a * i * f)%Q by nra.
    assert (a * i * f == a)%Q by (rewrite <- Qmult_assoc, (Qmult_comm i f), Hinv; ring).
    lra.
  - assert (a * i * f <= t * f)%Q by nra.
    assert (a * i * f == a)%Q by (rewrite <- Qmult_assoc, (Qmult_comm i f), Hinv; ring).
    lra.
Qed.


(** ** The number and the size of the batches *)

Lemma frame_batches_length F bs fps :
  length (frame_batches F bs fps) = Z.to_nat ((F - 0 + bs - 1) / bs).
Proof.
  unfold frame_batches, py_range. by rewrite !length_map, length_seqZ.
Qed.

(** X18.  Between 1 and 8 workers are used.  A batch holds at least one
    and at most [batch_size] frames, [batch_size] is at least 30, and there
    are at most [4 * max_workers + 2] batches; a run of 30 frames or fewer
    is a single batch. *)
Theorem batches_are_few_and_bounded F cpu_count fps :
  0 < cpu_count -> 0 <= F ->
  let max_workers := max_workers cpu_count in
  let batch_size := batch_size F max_workers in
  let batches := frame_batches F batch_size fps in
  1 <= max_workers <= 8
  /\ 30 <= batch_size
  /\ Z.of_nat (length batches) <= 4 * max_workers + 2
  /\ Forall (fun batch =>
               0 < Z.of_nat (length batch) <= batch_size) batches
  /\ (F <= 30 -> Z.of_nat (length batches) <= 1).
Proof.
  intros Hcpu HF mw bs batches.
  assert (Hmw : 1 <= mw <= 8) by (subst mw; unfold max_workers; lia).
  assert (Hbs : 30 <= bs) by (subst bs; unfold batch_size; lia).
  assert (Hq : F / (mw * 4) <= bs) by (subst bs; unfold batch_size; lia).
  assert (Hlen : Z.of_nat (length batches) = (F - 0 + bs - 1) / bs).
  { subst batches. rewrite frame_batches_length.
    apply Z2Nat.id. apply Z.div_pos; lia. }
  split; [exact Hmw|]. split; [exact Hbs|]. split; [|split].
  - rewrite Hlen.
    assert (F < (4 * mw + 2) * bs).
    { pose proof (Z.mul_succ_div_gt F (mw * 4) ltac:(lia)). nia. }
    apply Z.lt_succ_r. apply Z.div_lt_upper_bound; lia.
  - subst batches. unfold frame_batches, py_range.
    rewrite Forall_map, Forall_map. apply Forall_forall.
    intros k Hk. apply elem_of_seqZ in Hk. unfold compose.
    unfold batch_info_of. rewrite length_map, length_seqZ.
    assert (k * bs < F).
    { destruct (Z.le_gt_cases F (k * bs)) as [C|]; [|lia].
      assert ((F - 0 + bs - 1) / bs <= k); [|lia].
      apply Z.lt_succ_r. apply Z.div_lt_upper_bound; lia. }
    lia.
  - intros Hsmall. rewrite Hlen.
    apply Z.lt_succ_r. apply Z.div_lt_upper_bound; lia.
Qed.

(** ** Words and chunks *)

(** *** Strings *)

Lemma append_cons a s t : String a s +:+ t = String a (s +:+ t).
Proof. reflexivity. Qed.

Lemma append_nil_l s : "" +:+ s = s.
Proof. reflexivity. Qed.

Lemma append_nil_r s : s +:+ "" = s.
Proof. induction s as [|a s IH]; [reflexivity|]. by rewrite append_cons, IH. Qed.

Lemma append_assoc a b c : (a +:+ b) +:+ c = a +:+ (b +:+ c).
Proof.
  induction a as [|x a IH]; [reflexivity|]. by rewrite !append_cons, IH.
Qed.

Lemma append_eq_nil a b : a +:+ b = "" -> a = "" /\ b = "".
Proof. destruct a; [by rewrite append_nil_l | discriminate]. Qed.

Lemma py_len_app a b : py_len (a +:+ b) = py_len a + py_len b.
Proof.
  unfold py_len. induction a as [|x a IH]; [reflexivity|].
  rewrite append_cons. cbn [String.length]. lia.
Qed.

Lemma rev_app_rev_app a : forall b c,
  String.rev_app (String.rev_app a b) c = String.rev_app b (a +:+ c).
Proof.
  induction a as [|x a IH]; intros b c; [reflexivity|].
  cbn [String.rev_app]. by rewrite IH.
Qed.

Lemma rev_involutive s : String.rev (String.rev s) = s.
Proof.
  unfold String.rev. rewrite rev_app_rev_app. cbn [String.rev_app].
  apply append_nil_r.
Qed.

Lemma rev_app_acc a : forall b, String.rev_app a b = String.rev a +:+ b.
Proof.
  unfold String.rev. induction a as [|x a IH]; intros b; [reflexivity|].
  cbn [String.rev_app]. rewrite (IH (String x b)), (IH (String x "")).
  by rewrite append_assoc.
Qed.

Lemma rev_append a b : String.rev (a +:+ b) = String.rev b +:+ String.rev a.
Proof.
  unfold String.rev at 1. revert b.
  assert (H : forall a b c,
            String.rev_app (a +:+ b) c
            = String.rev_app b (String.rev_app a c)).
  { clear. induction a as [|x a IH]; intros b c; [reflexivity|].
    rewrite append_cons. cbn [String.rev_app]. apply IH. }
  intros b. rewrite H. apply rev_app_acc.
Qed.

Lemma rev_eq_nil s : String.rev s = "" -> s = "".
Proof.
  intros H. rewrite <- (rev_involutive s), H. reflexivity.
Qed.

Lemma no_space_app a b : no_space (a +:+ b) = no_space a && no_space b.
Proof.
  induction a as [|x a IH]; [reflexivity|].
  rewrite append_cons. cbn [no_space]. by rewrite IH, andb_assoc.
Qed.

Lemma no_space_rev_app a : forall b,
  no_space (String.rev_app a b) = no_space a && no_space b.
Proof.
  induction a as [|x a IH]; intros b; [reflexivity|].
  cbn [String.rev_app no_space]. rewrite IH. cbn [no_space].
  destruct (Ascii.is_space x), (no_space a), (no_space b); reflexivity.
Qed.

Lemma is_word_rev w : is_word w -> is_word (String.rev w).
Proof.
  intros [Hne Hns]. split.
  - intros C. by apply rev_eq_nil in C.
  - unfold String.rev. by rewrite no_space_rev_app, Hns.
Qed.

(** *** [str.split()] *)

Lemma words_go_word w : forall cur s,
  w <> "" -> no_space w = true ->
  String.words_go cur (w +:+ s)
  = String.words_go (Some (String.rev_app w (from_option id "" cur))) s.
Proof.
  induction w as [|a w IH]; intros cur s Hne Hns; [done|].
  cbn [no_space] in Hns. apply andb_true_iff in Hns as [Ha Hw].
  apply negb_true_iff in Ha.
  rewrite append_cons. cbn [String.words_go]. rewrite Ha.
  assert (Hcur : from_option (String a) (String a "") cur
                 = String a (from_option id "" cur)) by (by destruct cur).
  rewrite Hcur. destruct w as [|b w].
  - reflexivity.
  - rewrite (IH _ s ltac:(done) Hw). reflexivity.
Qed.

Lemma words_word w : is_word w -> String.words w = [w].
Proof.
  intros [Hne Hns]. unfold String.words.
  rewrite <- (append_nil_r w) at 1. rewrite words_go_word by done.
  cbn [String.words_go from_option option_list fmap option_fmap option_map].
  change (String.rev_app w "") with (String.rev w).
  by rewrite (rev_involutive w).
Qed.

Lemma words_word_space w s :
  is_word w -> String.words (w +:+ " " +:+ s) = w :: String.words s.
Proof.
  intros [Hne Hns]. unfold String.words.
  rewrite words_go_word by done.
  change (" " +:+ s) with (String " " s).
  cbn [String.words_go from_option option_list fmap option_fmap option_map
       Ascii.is_space app].
  change (String.rev_app w "") with (String.rev w).
  by rewrite (rev_involutive w).
Qed.

Lemma words_join ws : Forall is_word ws -> String.words (join_words ws) = ws.
Proof.
  induction 1 as [|w ws Hw Hws IH]; [reflexivity|].
  destruct ws as [|w' ws].
  - by apply words_word.
  - change (join_words (w :: w' :: ws))
      with (w +:+ " " +:+ join_words (w' :: ws)).
    by rewrite words_word_space, IH.
Qed.

Lemma words_go_are_words s : forall cur,
  (forall c, cur = Some c -> c <> "" /\ no_space c = true) ->
  Forall is_word (String.words_go cur s).
Proof.
  assert (Hcur : forall cur,
            (forall c, cur = Some c -> c <> "" /\ no_space c = true) ->
            Forall is_word (option_list (String.rev <$> cur))).
  { intros [c|] Hc; [|constructor].
    repeat constructor; apply is_word_rev, (Hc c eq_refl). }
  induction s as [|a s IH]; intros cur Hc; cbn [String.words_go].
  - by apply Hcur.
  - destruct (Ascii.is_space a) eqn:Ha.
    + apply Forall_app. split; [by apply Hcur|]. apply IH. by intros c.
    + apply IH. intros c [= <-].
      destruct cur as [c0|]; cbn [from_option].
      * destruct (Hc c0 eq_refl) as [_ Hns].
        split; [done|]. cbn [no_space]. by rewrite Ha, Hns.
      * split; [done|]. cbn [no_space]. by rewrite Ha.
Qed.

Lemma words_are_words s : Forall is_word (String.words s).
Proof. apply words_go_are_words. by intros c. Qed.

(** *** [" ".join] and [strip] *)

Lemma py_nonempty_true s : py_nonempty s = true <-> s <> "".
Proof. destruct s; cbn; split; congruence. Qed.

Lemma join_words_nonempty w ws :
  is_word w -> py_nonempty (join_words (w :: ws)) = true.
Proof.
  intros [Hne _]. apply py_nonempty_true.
  destruct ws as [|w' ws]; [exact Hne|].
  change (join_words (w :: w' :: ws))
    with (w +:+ " " +:+ join_words (w' :: ws)).
  intros C. by apply append_eq_nil in C as [? _].
Qed.

Lemma join_words_snoc ws w :
  Forall is_word ws ->
  join_words (ws ++ [w])
  = join_words ws +:+ (if py_nonempty (join_words ws) then " " else "") +:+ w.
Proof.
  induction 1 as [|w0 ws Hw0 Hws IH]; [reflexivity|].
  rewrite (join_words_nonempty w0 ws Hw0).
  destruct ws as [|w1 ws]; [reflexivity|].
  change (join_words ((w0 :: w1 :: ws) ++ [w]))
    with (w0 +:+ " " +:+ join_words ((w1 :: ws) ++ [w])).
  rewrite IH.
  apply Forall_cons in Hws as [Hw1 _].
  rewrite (join_words_nonempty w1 ws Hw1).
  change (join_words (w0 :: w1 :: ws))
    with (w0 +:+ " " +:+ join_words (w1 :: ws)).
  by rewrite !append_assoc.
Qed.

Lemma lstrip_fixed_app a b : a <> "" -> lstrip a = a -> lstrip (a +:+ b) = a +:+ b.
Proof.
  destruct a as [|x a]; [done|]. intros _. rewrite append_cons.
  cbn [lstrip]. destruct (Ascii.is_space x); [|done].
  intros H. exfalso.
  assert (Hlen : forall s, (String.length (lstrip s) <= String.length s)%nat).
  { clear. induction s as [|y s IH]; [done|]. cbn [lstrip].
    destruct (Ascii.is_space y); cbn [String.length]; lia. }
  pose proof (Hlen a) as Hl. rewrite H in Hl. cbn [String.length] in Hl. lia.
Qed.

Lemma lstrip_word w : is_word w -> lstrip w = w.
Proof.
  intros [Hne Hns]. destruct w as [|x w]; [done|].
  cbn [no_space] in Hns. apply andb_true_iff in Hns as [Hx _].
  apply negb_true_iff in Hx. cbn [lstrip]. by rewrite Hx.
Qed.

Lemma join_words_lstrip ws :
  Forall is_word ws -> lstrip (join_words ws) = join_words ws.
Proof.
  intros Hws. destruct Hws as [|w ws Hw Hws]; [reflexivity|].
  destruct ws as [|w' ws]; [by apply lstrip_word|].
  change (join_words (w :: w' :: ws))
    with (w +:+ " " +:+ join_words (w' :: ws)).
  apply lstrip_fixed_app; [apply Hw | by apply lstrip_word].
Qed.

Lemma join_words_rev_lstrip ws :
  Forall is_word ws ->
  lstrip (String.rev (join_words ws)) = String.rev (join_words ws).
Proof.
  induction 1 as [|w ws Hw Hws IH]; [reflexivity|].
  destruct ws as [|w' ws]; [by apply lstrip_word, is_word_rev|].
  change (join_words (w :: w' :: ws))
    with (w +:+ " " +:+ join_words (w' :: ws)).
  rewrite !rev_append. rewrite append_assoc.
  apply lstrip_fixed_app; [|exact IH].
  intros C. apply rev_eq_nil in C.
  apply Forall_cons in Hws as [Hw' _].
  pose proof (join_words_nonempty w' ws Hw') as Hne.
  apply py_nonempty_true in Hne. done.
Qed.

Lemma py_strip_join ws :
  Forall is_word ws -> py_strip (join_words ws) = join_words ws.
Proof.
  intros Hws. unfold py_strip.
  rewrite join_words_lstrip, join_words_rev_lstrip by done.
  apply rev_involutive.
Qed.

Lemma py_nonempty_join ws :
  Forall is_word ws -> py_nonempty (join_words ws) = bool_decide (ws <> []).
Proof.
  intros Hws. destruct Hws as [|w ws Hw Hws]; [reflexivity|].
  by rewrite join_words_nonempty.
Qed.

(** *** The loop of [split_into_chunks] *)

(** A group of words that became one chunk: it fits the limit, or it is a
    single word that is longer than the limit. *)
Lemma split_loop_groups max_chars : forall words chunks cw,
  Forall is_word words -> Forall is_word cw ->
  (py_len (join_words cw) <= max_chars \/ (length cw <= 1)%nat) ->
  exists groups cw',
    split_loop words max_chars chunks (join_words cw)
    = (chunks ++ map join_words groups, join_words cw')
    /\ Forall is_word cw'
    /\ (py_len (join_words cw') <= max_chars \/ (length cw' <= 1)%nat)
    /\ Forall (fun g => g <> [] /\ Forall is_word g
                        /\ (py_len (join_words g) <= max_chars
                            \/ length g = 1%nat)) groups
    /\ concat groups ++ cw' = cw ++ words.
Proof.
  induction words as [|word rest IH]; intros chunks cw Hwords Hcw Hbound.
  - exists [], cw. cbn [split_loop map concat app].
    rewrite !app_nil_r. repeat split; auto.
  - apply Forall_cons in Hwords as [Hword Hrest].
    cbn [split_loop]. cbv zeta.
    rewrite <- (join_words_snoc cw word Hcw).
    destruct (Z.leb_spec (py_len (join_words (cw ++ [word]))) max_chars)
      as [Hfit | Hlong].
    + destruct (IH chunks (cw ++ [word]) Hrest) as
        (groups & cw' & -> & Hcw' & Hb' & Hg & Hcat).
      { apply Forall_app. split; [exact Hcw | by apply Forall_singleton]. }
      { by left. }
      exists groups, cw'. split; [reflexivity|].
      split; [exact Hcw'|]. split; [exact Hb'|]. split; [exact Hg|].
      rewrite Hcat. by rewrite <- app_assoc.
    + rewrite (py_strip_join cw Hcw), (py_nonempty_join cw Hcw).
      assert (Hone : Forall is_word [word]) by (by apply Forall_singleton).
      destruct (IH (if bool_decide (cw <> [])
                    then chunks ++ [join_words cw] else chunks)
                  [word] Hrest Hone ltac:(right; cbn; lia))
        as (groups & cw' & Heq & Hcw' & Hb' & Hg & Hcat).
      change (join_words [word]) with word in Heq. rewrite Heq.
      destruct (decide (cw = [])) as [-> | Hne].
      * rewrite bool_decide_eq_false_2 by (intros C; by apply C).
        exists groups, cw'. split; [reflexivity|].
        split; [exact Hcw'|]. split; [exact Hb'|]. split; [exact Hg|].
        exact Hcat.
      * rewrite bool_decide_eq_true_2 by done.
        exists (cw :: groups), cw'. cbn [map concat].
        rewrite <- app_assoc. split; [reflexivity|].
        split; [exact Hcw'|]. split; [exact Hb'|]. split.
        -- constructor; [|exact Hg]. split; [exact Hne|].
           split; [exact Hcw|].
           destruct Hbound as [? | Hlen]; [by left | right].
           destruct cw as [|? [|? ?]]; cbn in Hlen; [done | done | lia].
        -- rewrite <- app_assoc, Hcat. reflexivity.
Qed.

Lemma split_into_chunks_groups text max_chars :
  exists groups,
    split_into_chunks text max_chars = map join_words groups
    /\ Forall (fun g => g <> [] /\ Forall is_word g
                        /\ (py_len (join_words g) <= max_chars
                            \/ length g = 1%nat)) groups
    /\ concat groups = String.words text.
Proof.
  unfold split_into_chunks.
  destruct (split_loop_groups max_chars (String.words text) [] []
              (words_are_words text) ltac:(constructor)
              ltac:(right; cbn; lia))
    as (groups & cw' & Heq & Hcw' & Hb' & Hg & Hcat).
  change (join_words []) with "" in Heq. rewrite Heq.
  rewrite (py_strip_join cw' Hcw'), (py_nonempty_join cw' Hcw').
  cbn [app] in *.
  destruct (decide (cw' = [])) as [-> | Hne].
  - rewrite bool_decide_eq_false_2 by (intros C; by apply C).
    exists groups. rewrite app_nil_r in Hcat. auto.
  - rewrite bool_decide_eq_true_2 by done.
    exists (groups ++ [cw']). rewrite map_app. split; [reflexivity|].
    split.
    + apply Forall_app. split; [exact Hg|]. apply Forall_singleton.
      split; [exact Hne|]. split; [exact Hcw'|].
      destruct Hb' as [? | Hlen]; [by left | right].
      destruct cw' as [|? [|? ?]]; cbn in Hlen; [done | done | lia].
    + rewrite concat_app. cbn [concat]. by rewrite app_nil_r.
Qed.


(** *** [remove_punctuation] *)

(** What follows the first word of a joined list. *)
Lemma join_words_first w ws :
  join_words (w :: ws)
  = w +:+ (if bool_decide (ws <> []) then " " +:+ join_words ws else "").
Proof.
  destruct ws as [|w' ws]; [by rewrite append_nil_r | reflexivity].
Qed.

Lemma rev_snoc a c : String.rev (String a c) = String.rev c +:+ String a "".
Proof. unfold String.rev at 1. cbn [String.rev_app]. apply rev_app_acc. Qed.

Lemma collapse_whitespace_words s :
  (forall c, c <> "" -> no_space c = true ->
     exists w ws sp,
       String.words_go (Some c) s = (String.rev c +:+ w) :: ws
       /\ no_space w = true /\ Forall is_word ws
       /\ (sp = "" \/ sp = " ")
       /\ collapse_whitespace false s
          = w +:+ (if bool_decide (ws <> []) then " " +:+ join_words ws
                   else "") +:+ sp)
  /\ exists sp,
       (sp = "" \/ sp = " ")
       /\ (String.words s = [] -> sp = "")
       /\ collapse_whitespace true s = join_words (String.words s) +:+ sp.
Proof.
  induction s as [|a s [IHA IHB]].
  - split.
    + intros c Hne Hns. exists "", [], "". cbn. rewrite append_nil_r.
      repeat split; auto.
    + exists "". repeat split; auto.
  - split.
    + intros c Hne Hns. cbn [String.words_go collapse_whitespace].
      destruct (Ascii.is_space a) eqn:Ha.
      * destruct IHB as (sp & Hsp & Hnil & Heq).
        cbn [option_list fmap option_fmap option_map app].
        fold (String.words s). rewrite Heq.
        pose proof (words_are_words s) as Hws.
        destruct (String.words s) as [|w1 ws1] eqn:E.
        -- exists "", [], " ". rewrite append_nil_r, (Hnil eq_refl).
           repeat split; auto.
        -- exists "", (w1 :: ws1), sp. rewrite append_nil_r.
           rewrite bool_decide_eq_true_2 by done.
           repeat split; auto.
      * destruct (IHA (String a c) ltac:(done)) as
          (w & ws & sp & Hgo & Hw & Hws & Hsp & Heq).
        { cbn [no_space]. by rewrite Ha, Hns. }
        cbn [from_option]. rewrite Hgo, Heq.
        exists (String a w), ws, sp.
        rewrite rev_snoc, append_assoc.
        split; [reflexivity|]. split; [cbn [no_space]; by rewrite Ha, Hw|].
        repeat split; auto.
    + unfold String.words. cbn [String.words_go collapse_whitespace].
      destruct (Ascii.is_space a) eqn:Ha.
      * cbn [option_list fmap option_fmap option_map app]. exact IHB.
      * destruct (IHA (String a "") ltac:(done)) as
          (w & ws & sp & Hgo & Hw & Hws & Hsp & Heq).
        { cbn [no_space]. by rewrite Ha. }
        cbn [from_option]. rewrite Hgo, Heq. exists sp.
        split; [exact Hsp|]. split; [discriminate|].
        change (String.rev (String a "")) with (String a "").
        rewrite join_words_first. rewrite !append_cons, append_nil_l.
        by rewrite !append_assoc.
Qed.

Lemma collapse_whitespace_join s :
  exists lead sp,
    (lead = "" \/ lead = " ") /\ (sp = "" \/ sp = " ")
    /\ (String.words s = [] -> sp = "")
    /\ collapse_whitespace false s
       = lead +:+ join_words (String.words s) +:+ sp.
Proof.
  destruct s as [|a s].
  - exists "", "". repeat split; auto.
  - destruct (collapse_whitespace_words s) as [HA HB].
    unfold String.words. cbn [String.words_go collapse_whitespace].
    destruct (Ascii.is_space a) eqn:Ha.
    + destruct HB as (sp & Hsp & Hnil & Heq).
      cbn [option_list fmap option_fmap option_map app].
      exists " ", sp. fold (String.words s). rewrite Heq.
      repeat split; auto.
    + destruct (HA (String a "") ltac:(done)) as
        (w & ws & sp & Hgo & Hw & Hws & Hsp & Heq).
      { cbn [no_space]. by rewrite Ha. }
      cbn [from_option]. rewrite Hgo, Heq. exists "", sp.
      split; [by left|]. split; [exact Hsp|]. split; [discriminate|].
      change (String.rev (String a "")) with (String a "").
      rewrite join_words_first. rewrite !append_cons, !append_nil_l.
      by rewrite !append_assoc.
Qed.

Lemma py_strip_padded lead ws sp :
  Forall is_word ws ->
  (lead = "" \/ lead = " ") -> (sp = "" \/ sp = " ") ->
  (ws = [] -> sp = "") ->
  py_strip (lead +:+ join_words ws +:+ sp) = join_words ws.
Proof.
  intros Hws Hlead Hsp Hnil.
  assert (Hl : lstrip (lead +:+ join_words ws +:+ sp)
               = lstrip (join_words ws +:+ sp))
    by (destruct Hlead as [-> | ->]; reflexivity).
  unfold py_strip. rewrite Hl.
  destruct ws as [|w ws].
  - rewrite (Hnil eq_refl). reflexivity.
  - assert (Hne : join_words (w :: ws) <> "").
    { apply py_nonempty_true, join_words_nonempty.
      by apply Forall_cons in Hws as [? _]. }
    rewrite lstrip_fixed_app by (done || by apply join_words_lstrip).
    rewrite rev_append.
    assert (Hr : lstrip (String.rev sp +:+ String.rev (join_words (w :: ws)))
                 = lstrip (String.rev (join_words (w :: ws))))
      by (destruct Hsp as [-> | ->]; reflexivity).
    rewrite Hr, join_words_rev_lstrip by done.
    apply rev_involutive.
Qed.

Lemma remove_punctuation_join sub_punctuation text :
  remove_punctuation sub_punctuation text
  = join_words (String.words (sub_punctuation text)).
Proof.
  unfold remove_punctuation. cbv zeta.
  destruct (collapse_whitespace_join (sub_punctuation text))
    as (lead & sp & Hlead & Hsp & Hnil & ->).
  apply py_strip_padded; auto using words_are_words.
Qed.


(** ** Timing of one caption *)

Lemma timing_loop_text cd chunks : forall i,
  map Timing.text (timing_loop i cd chunks) = chunks.
Proof.
  induction chunks as [|c chunks IH]; intros i; [reflexivity|].
  cbn [timing_loop map Timing.text]. by rewrite IH.
Qed.

Lemma timing_loop_lookup cd chunks : forall i (k : nat) e,
  timing_loop i cd chunks !! k = Some e ->
  Timing.start_time e = (inject_Z (i + Z.of_nat k) * cd)%Q
  /\ Timing.end_time e = (inject_Z (i + Z.of_nat k + 1) * cd)%Q
  /\ Timing.duration e = cd.
Proof.
  induction chunks as [|c chunks IH]; intros i k e; [done|].
  cbn [timing_loop]. destruct k as [|k].
  - intros [= <-]. cbn [Timing.start_time Timing.end_time Timing.duration].
    replace (i + Z.of_nat 0) with i by lia. done.
  - intros H. apply IH in H.
    replace (i + Z.of_nat (S k)) with (i + 1 + Z.of_nat k) by lia. exact H.
Qed.

Lemma timing_loop_length cd chunks : forall i,
  length (timing_loop i cd chunks) = length chunks.
Proof.
  induction chunks as [|c chunks IH]; intros i; [reflexivity|].
  cbn [timing_loop length]. by rewrite IH.
Qed.

Lemma calculate_timing_loop chunks total_duration :
  chunks <> [] -> (0 < total_duration)%Q ->
  calculate_timing chunks total_duration
  = timing_loop 0
      (total_duration / inject_Z (Z.of_nat (length chunks))) chunks.
Proof.
  intros Hne Hpos. unfold calculate_timing.
  rewrite bool_decide_eq_false_2 by done.
  assert (Hle : Qle_bool total_duration 0 = false)
    by (by apply Qle_bool_false).
  by rewrite Hle.
Qed.

Lemma chunk_count_positive (chunks : list string) :
  chunks <> [] -> (0 < inject_Z (Z.of_nat (length chunks)))%Q.
Proof.
  intros Hne. change 0%Q with (inject_Z 0). rewrite <- Zlt_Qlt.
  destruct chunks; [done | cbn [length]; lia].
Qed.



(** ** The segments of one scene *)

Lemma filter_all {A} (P : A -> Prop) `{forall x, Decision (P x)} l :
  Forall P l -> filter P l = l.
Proof.
  induction 1 as [|x l Hx _ IH]; [reflexivity|].
  by rewrite filter_cons_True, IH.
Qed.

Lemma filter_none {A} (P : A -> Prop) `{forall x, Decision (P x)} l :
  Forall (fun x => ~ P x) l -> filter P l = [].
Proof.
  induction 1 as [|x l Hx _ IH]; [reflexivity|].
  by rewrite filter_cons_False.
Qed.

Lemma chunk_segments_text i cur cd chunks : forall j,
  map Seg.text (chunk_segments i cur cd j chunks) = chunks.
Proof.
  induction chunks as [|c chunks IH]; intros j; [reflexivity|].
  cbn [chunk_segments map Seg.text]. by rewrite IH.
Qed.

Lemma chunk_segments_chunk i cur cd chunks : forall j,
  map Seg.chunk (chunk_segments i cur cd j chunks)
  = seqZ (j + 1) (Z.of_nat (length chunks)).
Proof.
  induction chunks as [|c chunks IH]; intros j; [reflexivity|].
  cbn [chunk_segments map Seg.chunk length]. rewrite IH.
  rewrite (seqZ_cons (j + 1)) by lia. f_equal. f_equal; lia.
Qed.

Lemma chunk_segments_duration i cur cd j chunks :
  Forall (fun s => Seg.duration s = cd) (chunk_segments i cur cd j chunks).
Proof.
  revert j. induction chunks as [|c chunks IH]; intros j; cbn; constructor.
  - reflexivity.
  - apply IH.
Qed.

Section SceneSegments.

Variable sub_punctuation : string -> string.
Variable audio_duration : string -> option Q.

#[local] Abbreviation loop := (scene_loop sub_punctuation audio_duration).
#[local] Abbreviation chunks_of caption :=
  (split_into_chunks (remove_punctuation sub_punctuation caption) 15).
#[local] Abbreviation duration_of := (scene_duration_of audio_duration).

Lemma scene_loop_scenes scenes : forall i cur,
  Forall (fun s => i <= Seg.scene s < i + Z.of_nat (length scenes))
    (loop i cur scenes).1.
Proof.
  induction scenes as [|[caption audio_path] rest IH]; intros i cur.
  - constructor.
  - rewrite scene_loop_cons. cbn [fst length]. apply Forall_app. split.
    + eapply Forall_impl; [apply chunk_segments_scene|].
      intros s Hs. cbn beta in Hs. lia.
    + eapply Forall_impl; [apply IH|]. intros s Hs. cbn beta in Hs. lia.
Qed.

Lemma scene_loop_filter scenes : forall i cur (k : nat) caption audio_path,
  scenes !! k = Some (caption, audio_path) ->
  exists start,
    (start == cur + foldr Qplus 0
                      (map (fun ca => duration_of ca.2) (take k scenes)))%Q
    /\ filter (fun seg => Seg.scene seg = i + Z.of_nat k) (loop i cur scenes).1
       = chunk_segments (i + Z.of_nat k) start
           (chunk_duration_for (duration_of audio_path) (chunks_of caption))
           0 (chunks_of caption).
Proof.
  induction scenes as [|[c a] rest IH]; intros i cur k caption audio_path Hk;
    [done|].
  rewrite scene_loop_cons. cbn [fst]. rewrite filter_app.
  destruct k as [|k].
  - injection Hk as -> ->. exists cur. split; [cbn; ring|].
    replace (i + Z.of_nat 0) with i by lia.
    rewrite filter_all by apply chunk_segments_scene.
    rewrite filter_none; [by rewrite app_nil_r|].
    eapply Forall_impl; [apply scene_loop_scenes|].
    intros s Hs. cbn beta in Hs. lia.
  - cbn [lookup list_lookup] in Hk.
    destruct (IH (i + 1) (cur + duration_of a)%Q k caption audio_path Hk)
      as (start & Hstart & Heq).
    exists start. split.
    + rewrite Hstart. cbn [take map foldr snd]. ring.
    + replace (i + Z.of_nat (S k)) with (i + 1 + Z.of_nat k) by lia.
      rewrite Heq. rewrite filter_none; [reflexivity|].
      eapply Forall_impl; [apply chunk_segments_scene|].
      intros s Hs. cbn beta in Hs. lia.
Qed.


End SceneSegments.

(** ** The clip and the timeline *)

Lemma total_duration_bounds segs :
  Forall (fun s => (Seg.end_time s <= total_duration segs)%Q) segs
  /\ (segs = [] \/ exists s, s ∈ segs /\ total_duration segs = Seg.end_time s).
Proof.
  destruct segs as [|a segs]; [split; [constructor | by left]|].
  unfold total_duration.
  destruct (py_max_from_spec (map Seg.end_time segs) (Seg.end_time a))
    as (H1 & H2 & H3).
  split.
  - constructor; [exact H1|]. rewrite Forall_forall in H2.
    apply Forall_forall. intros s Hs. apply H2.
    apply list_elem_of_fmap. by exists s.
  - right. destruct H3 as [-> | H3].
    + exists a. split; [left | reflexivity].
    + apply list_elem_of_fmap in H3 as (s & -> & Hs).
      exists s. split; [by right | reflexivity].
Qed.

Section ClipAndTimeline.

Variable sub_punctuation : string -> string.
Variable audio_duration : string -> option Q.
Hypothesis durations_nonneg :
  forall path d, audio_duration path = Some d -> (0 <= d)%Q.


End ClipAndTimeline.

(** ** Captions without words *)

Lemma blank_caption_has_no_chunk sub_punctuation caption max_chars :
  String.words (sub_punctuation caption) = [] ->
  split_into_chunks (remove_punctuation sub_punctuation caption) max_chars
  = [].
Proof.
  intros Hnil.
  destruct (split_into_chunks_groups
              (remove_punctuation sub_punctuation caption) max_chars)
    as (groups & -> & Hg & Hcat).
  rewrite remove_punctuation_join, words_join in Hcat
    by apply words_are_words.
  rewrite Hnil in Hcat.
  destruct Hg as [|g groups (Hne & _) _]; [reflexivity|].
  cbn [concat] in Hcat. apply app_eq_nil in Hcat as [? _]. done.
Qed.

Lemma blank_scenes_give_no_segment sub_punctuation audio_duration scenes :
  Forall (fun ca => String.words (sub_punctuation ca.1) = []) scenes ->
  forall i cur,
    (scene_loop sub_punctuation audio_duration i cur scenes).1 = [].
Proof.
  induction 1 as [|[caption audio_path] rest Hblank _ IH]; intros i cur;
    [reflexivity|].
  rewrite scene_loop_cons. cbn [fst].
  rewrite blank_caption_has_no_chunk by exact Hblank.
  cbn [chunk_segments app]. apply IH.
Qed.

(** X25.  When no caption has a word, the generated timeline is empty:
    there is no frame to render, the scene count is 0, and
    [preload_images] raises on it. *)
Theorem blank_captions_stop_at_preload
  sub_punctuation audio_duration cv2_imread cv2_resize
  captions_list audio_files_list fps shot width height schedule st :
  Forall (fun caption => String.words (sub_punctuation caption) = [])
    captions_list ->
  let all_segments :=
    (generate_complete_rst_file sub_punctuation audio_duration
       captions_list audio_files_list).1 in
  all_segments = []
  /\ total_frames (total_duration all_segments) fps = 0
  /\ scene_count all_segments = 0
  /\ preload_images cv2_imread cv2_resize shot (scene_count all_segments)
       width height schedule st = None.
Proof.
  intros Hblank all_segments.
  assert (Hnil : all_segments = []).
  { subst all_segments. unfold generate_complete_rst_file.
    apply blank_scenes_give_no_segment.
    apply Forall_forall. intros [caption audio_path] Hin. cbn [fst].
    rewrite Forall_forall in Hblank. apply Hblank.
    apply list_elem_of_lookup in Hin as [k Hk].
    apply lookup_zip_with_Some in Hk as (c & a & [= <- <-] & Hc & _).
    by apply list_elem_of_lookup_2 in Hc. }
  rewrite Hnil. repeat split; reflexivity.
Qed.

(** ** Audio for a finished video *)

Lemma subclipped_from_start clip end_time :
  (0 < Clip.duration clip)%Q -> (end_time <= Clip.duration clip)%Q ->
  exists out,
    subclipped clip 0 end_time = Some out
    /\ (Clip.duration out == end_time)%Q
    /\ forall t, Clip.get_frame out t = Clip.get_frame clip (t + 0)%Q.
Proof.
  intros Hd He. unfold subclipped.
  assert (E1 : Qle_bool (Clip.duration clip) 0 = false)
    by (by apply Qle_bool_false).
  assert (E2 : Qltb (Clip.duration clip) end_time = false)
    by (by apply Qltb_false).
  rewrite E1, E2. eexists. split; [reflexivity|].
  cbn [Clip.duration Clip.get_frame]. split; [ring | reflexivity].
Qed.

Lemma add_audio_and_music_bg_duration bg_music_clip bg_volume video_duration :
  (0 < Clip.duration bg_music_clip)%Q -> (0 < video_duration)%Q ->
  exists bg_audio,
    add_audio_and_music_bg bg_music_clip bg_volume video_duration
    = Some bg_audio
    /\ (Clip.duration bg_audio == video_duration)%Q.
Proof.
  intros Hd Hv. unfold add_audio_and_music_bg. cbv zeta.
  set (scaled := with_volume_scaled bg_music_clip bg_volume).
  assert (Hs : Clip.duration scaled = Clip.duration bg_music_clip)
    by reflexivity.
  destruct (Qltb video_duration (Clip.duration scaled)) eqn:E1.
  - apply Qltb_true in E1.
    destruct (subclipped_from_start scaled video_duration)
      as (out & -> & Hout & _); [by rewrite Hs | lra |].
    by exists out.
  - apply Qltb_false in E1.
    destruct (Qltb (Clip.duration scaled) video_duration) eqn:E2.
    + apply Qltb_true in E2.
      rewrite Qeq_bool_false_pos by (by rewrite Hs).
      destruct (looped_and_cut scaled video_duration)
        as (out & -> & Hout & _); [by rewrite Hs | exact E2 |].
      by exists out.
    + apply Qltb_false in E2. exists scaled. split; [reflexivity | lra].
Qed.

Lemma match_lengths_aligns video_clip voice_audio :
  (0 < Video.duration video_clip)%Q -> (0 < Clip.duration voice_audio)%Q ->
  (forall track, Video.audio video_clip = Some track ->
                 (0 < Clip.duration track)%Q
                 /\ (Clip.duration voice_audio <= Clip.duration track)%Q) ->
  exists video voice,
    match_lengths video_clip voice_audio = Some (video, voice)
    /\ (Video.duration video
        == Qmin (Video.duration video_clip) (Clip.duration voice_audio))%Q
    /\ (Clip.duration voice == Video.duration video)%Q.
Proof.
  intros Hv Ha Htrack. unfold match_lengths.
  destruct (Qltb (Clip.duration voice_audio) (Video.duration video_clip))
    eqn:E1.
  - apply Qltb_true in E1. unfold video_subclipped.
    assert (F1 : Qle_bool (Video.duration video_clip) 0 = false)
      by (by apply Qle_bool_false).
    assert (F2 : Qltb (Video.duration video_clip) (Clip.duration voice_audio)
                 = false) by (apply Qltb_false; lra).
    rewrite F1, F2.
    assert (Haudio : exists audio,
              match Video.audio video_clip with
              | Some audio =>
                  audio ← subclipped audio 0 (Clip.duration voice_audio);
                  Some (Some audio)
              | None => Some None
              end = Some audio).
    { destruct (Video.audio video_clip) as [track|] eqn:Et; [|by eexists].
      destruct (Htrack track eq_refl) as [Hpos Hlen].
      destruct (subclipped_from_start track (Clip.duration voice_audio)
                  Hpos Hlen) as (out & -> & _).
      by eexists. }
    destruct Haudio as [audio ->]. cbn [mbind option_bind].
    eexists _, _. split; [reflexivity|]. cbn [Video.duration].
    rewrite Q.min_r by lra. split; ring.
  - apply Qltb_false in E1.
    destruct (Qltb (Video.duration video_clip) (Clip.duration voice_audio))
      eqn:E2.
    + apply Qltb_true in E2.
      destruct (subclipped_from_start voice_audio
                  (Video.duration video_clip))
        as (out & -> & Hout & _); [exact Ha | lra |].
      cbn [mbind option_bind]. eexists _, _. split; [reflexivity|].
      rewrite Q.min_l by lra. split; [reflexivity | exact Hout].
    + apply Qltb_false in E2. eexists _, _. split; [reflexivity|].
      rewrite Q.min_l by lra. split; [reflexivity | lra].
Qed.

Lemma CompositeAudioClip_pair a b :
  exists out,
    CompositeAudioClip [a; b] = Some out
    /\ (Clip.duration out == Qmax (Clip.duration a) (Clip.duration b))%Q
    /\ forall t, (0 <= t)%Q -> (t < Clip.duration a)%Q ->
                 (t < Clip.duration b)%Q ->
                 (Clip.get_frame out t
                  == Clip.get_frame a t + Clip.get_frame b t)%Q.
Proof.
  unfold CompositeAudioClip. cbn [map py_max py_max_from mbind option_bind].
  eexists. split; [reflexivity|]. cbn [Clip.duration Clip.get_frame].
  split.
  - destruct (Qltb (Clip.duration a) (Clip.duration b)) eqn:E.
    + apply Qltb_true in E. rewrite Q.max_r by lra. reflexivity.
    + apply Qltb_false in E. rewrite Q.max_l by lra. reflexivity.
  - intros t H0 Ha Hb. cbn [foldr].
    apply Qle_bool_iff in H0. apply Qltb_true in Ha, Hb.
    rewrite H0, Ha, Hb. cbn [andb]. ring.
Qed.


(** X27.  Without a voice file the video keeps its duration and gets
    the scaled music as its track, cut to the video when it is longer.
    Music that is shorter than the video is not looped in this branch: the
    track is the scaled music as it is, and ends before the video. *)
Theorem missing_voice_plays_the_music_once video_clip bg_audio bg_volume :
  (0 < Video.duration video_clip)%Q -> (0 < Clip.duration bg_audio)%Q ->
  exists final_video final_audio,
    add_audio_and_music video_clip None (Some (Some bg_audio)) bg_volume
    = Some final_video
    /\ Video.duration final_video = Video.duration video_clip
    /\ Video.audio final_video = Some final_audio
    /\ (Clip.duration final_audio
        == Qmin (Video.duration video_clip) (Clip.duration bg_audio))%Q
    /\ ((Clip.duration bg_audio < Video.duration video_clip)%Q ->
        final_audio = with_volume_scaled bg_audio bg_volume).
Proof.
  intros Hv Hb. unfold add_audio_and_music. cbn [mbind option_bind].
  set (scaled := with_volume_scaled bg_audio bg_volume).
  assert (Hs : Clip.duration scaled = Clip.duration bg_audio) by reflexivity.
  destruct (Qltb (Video.duration video_clip) (Clip.duration scaled)) eqn:E.
  - apply Qltb_true in E.
    destruct (subclipped_from_start scaled (Video.duration video_clip))
      as (out & -> & Hout & _); [by rewrite Hs | lra |].
    cbn [mbind option_bind]. eexists _, _. split; [reflexivity|].
    cbn [with_audio Video.audio Video.duration].
    split; [reflexivity|]. split; [reflexivity|]. split.
    + rewrite Hout, Q.min_l by (rewrite <- Hs; lra). reflexivity.
    + intros C. rewrite Hs in E. lra.
  - apply Qltb_false in E. cbn [mbind option_bind].
    eexists _, _. split; [reflexivity|].
    cbn [with_audio Video.audio Video.duration].
    split; [reflexivity|]. split; [reflexivity|]. split.
    + rewrite Q.min_r by (rewrite <- Hs; lra). by rewrite Hs.
    + reflexivity.
Qed.


(** ** Where the voice tracks start *)

Lemma py_max_from_snoc xs e : forall m,
  py_max_from m (xs ++ [e])
  = (if Qltb (py_max_from m xs) e then e else py_max_from m xs).
Proof.
  induction xs as [|x xs IH]; intros m; [reflexivity|].
  cbn [app py_max_from]. apply IH.
Qed.

Lemma py_max_snoc xs e :
  py_max (xs ++ [e])
  = Some (match py_max xs with
          | None => e
          | Some d => if Qltb d e then e else d
          end).
Proof.
  destruct xs as [|x xs]; [reflexivity|].
  cbn [app py_max]. by rewrite py_max_from_snoc.
Qed.

Lemma scene_durations_snoc segs segment :
  scene_durations (segs ++ [segment])
  = let scene_durations := scene_durations segs in
    let scene := Seg.scene segment in
    match scene_durations !! scene with
    | None => <[scene := Seg.end_time segment]> scene_durations
    | Some d =>
        <[scene := if Qltb d (Seg.end_time segment)
                   then Seg.end_time segment else d]> scene_durations
    end.
Proof. unfold scene_durations. by rewrite foldl_snoc. Qed.

Lemma scene_durations_lookup segs scene :
  scene_durations segs !! scene
  = py_max (map Seg.end_time
              (filter (fun seg => Seg.scene seg = scene) segs)).
Proof.
  induction segs as [|segment segs IH] using rev_ind; [reflexivity|].
  rewrite scene_durations_snoc. cbv zeta. rewrite filter_app.
  destruct (decide (Seg.scene segment = scene)) as [<- | Hne].
  - rewrite (filter_cons_True _ segment []) by done.
    rewrite filter_nil, map_app. cbn [map]. rewrite py_max_snoc, <- IH.
    destruct (scene_durations segs !! Seg.scene segment);
      by rewrite lookup_insert_eq.
  - rewrite (filter_cons_False _ segment []) by done.
    rewrite filter_nil, app_nil_r, <- IH.
    destruct (scene_durations segs !! Seg.scene segment);
      by rewrite lookup_insert_ne.
Qed.

Lemma scene_durations_dom segs scene :
  scene ∈ dom (scene_durations segs)
  <-> exists seg, seg ∈ segs /\ Seg.scene seg = scene.
Proof.
  rewrite elem_of_dom, scene_durations_lookup. split.
  - intros [d Hd].
    destruct (filter _ segs) as [|seg rest] eqn:E; [discriminate Hd|].
    assert (Hin : seg ∈ filter (fun seg => Seg.scene seg = scene) segs)
      by (rewrite E; left).
    apply list_elem_of_filter in Hin as [Hs Hin]. by exists seg.
  - intros (seg & Hin & Hs).
    assert (Hf : seg ∈ filter (fun seg => Seg.scene seg = scene) segs)
      by (apply list_elem_of_filter; by split).
    destruct (filter _ segs) as [|x rest]; [by apply not_elem_of_nil in Hf|].
    by eexists.
Qed.

Lemma audio_tasks_loop_tasks shot sd scenes : forall current_time,
  Forall (fun scene => is_Some (sd !! scene)) scenes ->
  exists tasks,
    audio_tasks_loop shot sd scenes current_time = Some tasks
    /\ map (fun task => task.1.1) tasks = scenes
    /\ Forall (fun task => task.1.2 = audio_path_of shot task.1.1) tasks
    /\ (forall task, head tasks = Some task -> task.2 = current_time)
    /\ (forall (i : nat) task next,
          tasks !! i = Some task -> tasks !! S i = Some next ->
          sd !! task.1.1 = Some next.2).
Proof.
  induction scenes as [|scene rest IH]; intros current_time Hall.
  - exists []. repeat split; try constructor; intros; done.
  - apply Forall_cons in Hall as [[d Hd] Hrest].
    cbn [audio_tasks_loop]. rewrite Hd. cbn [mbind option_bind].
    destruct (IH d Hrest) as (tasks & -> & Hscenes & Hpaths & Hhead & Hadj).
    cbn [mbind option_bind]. eexists. split; [reflexivity|].
    split; [cbn [map fst]; by rewrite Hscenes|].
    split; [by constructor|].
    split; [by intros task [= <-]|].
    intros i task next Hi Hn. destruct i as [|i].
    + injection Hi as <-. cbn [fst]. rewrite Hd. f_equal.
      symmetry. apply Hhead. by rewrite head_lookup.
    + by apply (Hadj i).
Qed.

Lemma sorted_nodup_adjacent (l : list Z) (i : nat) a b :
  StronglySorted Z.le l -> NoDup l ->
  l !! i = Some a -> l !! S i = Some b -> a < b.
Proof.
  intros Hs Hn Ha Hb.
  assert (Hle : a <= b).
  { apply take_drop_middle in Ha. rewrite <- Ha in Hs.
    apply StronglySorted_app in Hs as (_ & _ & Hs).
    apply StronglySorted_inv in Hs as [_ Hall].
    rewrite Forall_forall in Hall. apply Hall.
    apply list_elem_of_lookup. exists 0%nat.
    rewrite lookup_drop. by replace (S i + 0)%nat with (S i) by lia. }
  assert (a <> b).
  { intros ->. pose proof (NoDup_lookup l i (S i) b Hn Ha Hb). lia. }
  lia.
Qed.

(** X29.  The voice tasks of [load_audio_clips_concurrent] are one for
    each scene that has a segment, in increasing scene order, each with the
    path of the voice file of its scene.  The first is made to start at 0
    and each further one at the largest end time of the segments of the
    scene before it in that order: the value that [render_frame_batch] uses
    as the end of that scene. *)
Theorem voice_tracks_start_at_scene_ends shot all_segments :
  exists tasks,
    audio_tasks shot (scene_durations all_segments) = Some tasks
    /\ (forall scene,
          scene ∈ map (fun task => task.1.1) tasks
          <-> exists seg, seg ∈ all_segments /\ Seg.scene seg = scene)
    /\ Forall (fun task => task.1.2 = audio_path_of shot task.1.1) tasks
    /\ (forall task, head tasks = Some task -> task.2 = 0%Q)
    /\ (forall (i : nat) task next,
          tasks !! i = Some task -> tasks !! S i = Some next ->
          task.1.1 < next.1.1
          /\ Some next.2
             = py_max (map Seg.end_time
                         (filter (fun seg => Seg.scene seg = task.1.1)
                            all_segments))).
Proof.
  unfold audio_tasks.
  set (sd := scene_durations all_segments).
  set (scenes := merge_sort Z.le (elements (dom sd))).
  assert (Hperm : scenes ≡ₚ elements (dom sd))
    by apply merge_sort_Permutation.
  assert (Hin : forall scene, scene ∈ scenes <-> scene ∈ dom sd).
  { intros scene. by rewrite Hperm, elem_of_elements. }
  destruct (audio_tasks_loop_tasks shot sd scenes 0%Q)
    as (tasks & -> & Hscenes & Hpaths & Hhead & Hadj).
  { apply Forall_forall. intros scene Hs.
    by apply elem_of_dom, Hin. }
  exists tasks. split; [reflexivity|]. split; [|split; [|split]].
  - intros scene. rewrite Hscenes, Hin. apply scene_durations_dom.
  - exact Hpaths.
  - exact Hhead.
  - intros i task next Hi Hn. split.
    + apply (sorted_nodup_adjacent scenes i).
      * apply StronglySorted_merge_sort; apply _.
      * rewrite Hperm. apply NoDup_elements.
      * rewrite <- Hscenes, list_lookup_fmap, Hi. reflexivity.
      * rewrite <- Hscenes, list_lookup_fmap, Hn. reflexivity.
    + rewrite <- scene_durations_lookup. symmetry. by apply (Hadj i).
Qed.

(** ** The statements at concrete inputs *)


(** X3 for the kind [fade]. *)
Lemma unknown_effect_is_zoom_in_witness :
  apply_ken_burns_effect Reference.resize unit Reference.rotation_matrix
    Reference.warp Reference.sin Reference.cos Reference.pi
    Reference.grey 0.5 "fade" 4 4
  = apply_ken_burns_effect Reference.resize unit Reference.rotation_matrix
      Reference.warp Reference.sin Reference.cos Reference.pi
      Reference.grey 0.5 KenBurnsEffect.ZOOM_IN 4 4.
Proof.
  apply (unknown_effect_is_zoom_in Reference.resize unit
           Reference.rotation_matrix Reference.warp Reference.sin
           Reference.cos Reference.pi).
  apply (bool_decide_unpack _). vm_compute. exact I.
Defined.


(** X5 at the output size, half way. *)
Lemma zoom_pan_left_and_up_stay_at_the_edge_witness :
  start_x (zoom_pan_left_window 0.5 1440 1920) = 0.
Proof.
  destruct (zoom_pan_left_and_up_stay_at_the_edge 0.5 1440 1920) as [H _];
    [lia | lia | discriminate | discriminate |].
  exact H.
Defined.

(** X6 at the output size, half way. *)
Lemma zoom_pan_right_and_down_stay_at_the_far_edge_witness :
  start_x (zoom_pan_right_window 0.5 1440 1920)
  = buf_width (zoom_pan_right_window 0.5 1440 1920) - 1440.
Proof.
  destruct (zoom_pan_right_and_down_stay_at_the_far_edge 0.5 1440 1920)
    as [H _]; [lia | lia | discriminate | discriminate |].
  exact H.
Defined.

(** X7 for a height of 100: the margin is 20. *)
Lemma vertical_pans_sweep_the_margin_witness :
  start_y (pan_up_window 0 100 100) = 20
  /\ start_y (pan_up_window 1 100 100) = 0
  /\ start_y (pan_down_window 0 100 100) = 0
  /\ start_y (pan_down_window 1 100 100) = 20.
Proof.
  destruct (vertical_pans_sweep_the_margin 100 100 0 1) as [H _];
    [lia | lia | discriminate |].
  exact H.
Defined.

(** X8 at the output size and progress 0.8. *)
Lemma pans_stand_still_from_0_7_witness :
  start_x (pan_left_window 0.8 1440 1920) = 0.
Proof.
  destruct (pans_stand_still_from_0_7 1440 1920 0.8) as [H _];
    [lia | lia | discriminate |].
  exact H.
Defined.

(** X9 at the output size, half way. *)
Lemma rotate_zoom_crops_inside_the_picture_witness :
  (rotate_zoom_canvas_size 0.5 1440 1920
   - py_int (inject_Z 1440 * rotate_zoom_current_zoom 0.5)) / 2
  <= start_x (rotate_zoom_window 0.5 1440 1920).
Proof.
  destruct (rotate_zoom_crops_inside_the_picture 0.5 1440 1920)
    as [_ [H _]]; [lia | lia | discriminate | discriminate |].
  exact H.
Defined.

(** X12 in a scene from 3 to 6 seconds. *)
Lemma scene_progress_of_range_witness :
  (scene_progress_of (SceneInfo 2 3 6) 4 <= scene_progress_of (SceneInfo 2 3 6) 5)%Q.
Proof.
  destruct (scene_progress_of_range (SceneInfo 2 3 6) 4 5)
    as (_ & _ & H & _); [discriminate|].
  exact H.
Defined.

(** X13 for the one picture that can be read. *)
Lemma get_cached_image_caches_witness :
  exists img st',
    get_cached_image Sample.imread Reference.resize "shot_01" 1 4 4
      (RenderState ∅ []) = Some (img, st')
    /\ forall w' h',
         get_cached_image Sample.imread Reference.resize "shot_01" 1 w' h' st'
         = Some (img, st').
Proof.
  eexists _, _. split; [reflexivity|].
  apply (get_cached_image_caches Sample.imread Reference.resize "shot_01" 1
           4 4 (RenderState ∅ [])).
  reflexivity.
Defined.

Lemma Sample_imread_image image_path img :
  Sample.imread image_path = Some img -> is_image img.
Proof.
  unfold Sample.imread. destruct (String.eqb _ _); [|discriminate].
  intros [= <-]. apply Reference_grey_is_image.
Qed.

Lemma empty_cache_holds_images : cache_holds_images (RenderState ∅ []).
Proof. intros p img H. cbn [image_cache] in H. by rewrite lookup_empty in H. Qed.

(** X14 for two frames of one scene. *)
Lemma render_frame_batch_returns_witness :
  exists rendered_frames st',
    render_frame_batch Sample.imread Reference.resize unit
      Reference.rotation_matrix Reference.warp Reference.sin Reference.cos
      Reference.pi Reference.text_width Reference.draw_text
      [(0, 0%Q); (1, 0.5%Q)] [Seg.Make 1 1 "hello" 0 3 3] []
      Reference.style 8 8 "shot_01" (RenderState ∅ [])
    = Some (rendered_frames, st')
    /\ map fst rendered_frames = [0; 1].
Proof.
  destruct (render_frame_batch_returns Sample.imread Reference.resize unit
              Reference.rotation_matrix Reference.warp Reference.sin
              Reference.cos Reference.pi Reference.text_width
              Reference.draw_text Reference_resize_contract
              Reference_warp_contract Sample_imread_image
              [(0, 0%Q); (1, 0.5%Q)] [Seg.Make 1 1 "hello" 0 3 3] []
              Reference.style 8 8 "shot_01" (RenderState ∅ []))
    as (frames & st' & Heq & Hidx & _).
  - lia.
  - lia.
  - exact empty_cache_holds_images.
  - exists frames, st'. split; [exact Heq | exact Hidx].
Defined.

(** X15 for two scenes loaded in reverse order; the second picture is missing. *)
Lemma preload_images_fills_the_cache_witness :
  exists st',
    preload_images Sample.imread Reference.resize "shot_01" 2 4 4 [2; 1]
      (RenderState ∅ []) = Some st'
    /\ exists img,
         image_cache st' !! image_path_of "shot_01" 2 = Some img
         /\ img = np_zeros 4 4.
Proof.
  pose proof (preload_images_fills_the_cache Sample.imread Reference.resize
                Reference_resize_contract Sample_imread_image
                "shot_01" 2 4 4 [2; 1] (RenderState ∅ [])
                ltac:(lia) ltac:(lia) ltac:(apply perm_swap)) as H.
  cbn [Z.leb Z.compare] in H.
  destruct H as (st' & Heq & _ & Hall).
  destruct (Hall 2 ltac:(lia)) as (img & Himg & _ & Hmiss).
  exists st'. split; [exact Heq|]. exists img. split; [exact Himg|].
  apply Hmiss; reflexivity.
Defined.


(** X18 for 1000 frames on 16 cores. *)
Lemma batches_are_few_and_bounded_witness :
  Z.of_nat (length (frame_batches 1000 (batch_size 1000 (max_workers 16)) 25))
  <= 4 * max_workers 16 + 2.
Proof.
  destruct (batches_are_few_and_bounded 1000 16 25) as (_ & _ & H & _);
    [lia | lia |].
  exact H.
Defined.




(** X25 for two captions of white space and punctuation. *)
Lemma blank_captions_stop_at_preload_witness :
  preload_images Sample.imread Reference.resize "shot_01"
    (scene_count
       (generate_complete_rst_file Reference.sub_punctuation
          Reference.no_audio ["  "; "?!"] ["a.wav"; "b.wav"]).1)
    4 4 [] (RenderState ∅ []) = None.
Proof.
  destruct (blank_captions_stop_at_preload Reference.sub_punctuation
              Reference.no_audio Sample.imread Reference.resize
              ["  "; "?!"] ["a.wav"; "b.wav"] 25 "shot_01" 4 4 []
              (RenderState ∅ [])) as (_ & _ & _ & H).
  - apply Forall_cons. split; [reflexivity|].
    apply Forall_singleton. reflexivity.
  - exact H.
Defined.


(** X27 for a video of 5 seconds and music of 2. *)
Lemma missing_voice_plays_the_music_once_witness :
  exists final_video,
    add_audio_and_music Sample.video None
      (Some (Some Reference.two_second_clip)) 0.3 = Some final_video
    /\ Video.audio final_video
       = Some (with_volume_scaled Reference.two_second_clip 0.3).
Proof.
  destruct (missing_voice_plays_the_music_once Sample.video
              Reference.two_second_clip 0.3)
    as (v & a & Heq & _ & Ha & _ & Hsame); [reflexivity | reflexivity |].
  exists v. split; [exact Heq|]. rewrite Ha. f_equal.
  apply Hsame. reflexivity.
Defined.

